(** * Image-to-video timeline compositor: easing, transition renderer,
      timeline builder and frame resolver

    A shallow embedding of [easing.ts], [transition-renderer.ts] and
    [image-to-video.ts] (class [ImageToVideoService]), of the
    [/api/image-to-video] route handler that validates a request and plans
    its timeline, and of the frame loops of the [useImageToVideo] hook and
    of the slideshow page.

    Modelling conventions.
    - A JavaScript [number] is an exact rational ([Q]): no rounding, no
      [NaN], no infinities.  Every comparison and arithmetic operator of
      the source is the corresponding operation on [Q]; results that the
      source computes along different routes are compared with [==].
      Where the rounding of a result decides what the code does (the
      number of frames, the time of a frame), the expression is given a
      second time with the rounding written out, and [round64] is the
      rounding of binary64.
    - The enumerations [TransitionType] and [EasingType] are strings at run
      time and are kept as strings, so that the [default] arm of each
      [switch] has inhabitants.
    - The 2D canvas context is observed through the sequence of calls made
      on it.  A [void] rendering routine is a [Paint]: the calls it made
      and the exception that interrupted it, if any.
    - [Math.cos], [Math.sin] and [Math.PI] are parameters of the
      development (section variables).
    - A promise is modelled by its settlement: [Normal] when fulfilled,
      [Throw] when rejected.  The optional [onProgress] callback is left
      out (the caller passed none). *)

From Stdlib Require Import QArith Qround Qminmax Qabs Qpower ZArith List String Lia Lqa Bool.
Import ListNotations.
Open Scope Q_scope.

(** ** JavaScript helpers *)

(** [a < b] on numbers. *)
Definition Qlt_bool (a b : Q) : bool := negb (Qle_bool b a).

(** [a >= b] on numbers. *)
Definition Qge_bool (a b : Q) : bool := Qle_bool b a.

(** [a || b] on numbers: [0] is the falsy one. *)
Definition number_or (a b : Q) : Q := if Qeq_bool a 0 then b else a.

(** A [switch] over string literals whose arms all end in [break] or
    [return]: the first arm whose label equals the scrutinee runs,
    otherwise the [default] arm. *)
Fixpoint switch {A : Type} (scrutinee : string) (cases : list (string * A))
  (default : A) : A :=
  match cases with
  | [] => default
  | (label, arm) :: others =>
      if String.eqb scrutinee label then arm else switch scrutinee others default
  end.

Inductive JsError : Type :=
| Error (message : string)
| TypeError (message : string).

(** Outcome of a call that returns a value or throws (for an async
    function: the settlement of its promise). *)
Inductive Completion (A : Type) : Type :=
| Normal (value : A)
| Throw (error : JsError).
Arguments Normal {A} value.
Arguments Throw {A} error.

Definition bindC {A B : Type} (c : Completion A) (k : A -> Completion B)
  : Completion B :=
  match c with
  | Normal a => k a
  | Throw e => Throw e
  end.

(** ** Data model ([types/transitions.ts]) *)

Record TransitionConfig : Type := mkTransitionConfig {
  transition_type : string;
  transition_duration : Q;
  transition_easing : string
}.

Record Point : Type := mkPoint { pos_x : Q; pos_y : Q }.

Record KenBurns : Type := mkKenBurns {
  startScale : Q;
  endScale : Q;
  startPosition : Point;
  endPosition : Point
}.

Record ImageSlide : Type := mkImageSlide {
  src : string;
  duration : Q;
  transition : option TransitionConfig;
  kenBurns : option KenBurns
}.

(** [HTMLImageElement | ImageBitmap]: a decoded image, identified by the
    source it was loaded from, with its pixel dimensions. *)
Record ImgSource : Type := mkImgSource {
  img_src : string;
  img_width : Q;
  img_height : Q
}.

(** ** The canvas, as a trace of calls *)

Inductive CanvasFilter : Type :=
| FilterNone
| FilterBlur (px : Q).

Inductive CanvasCall : Type :=
| SetFillStyle (color : string)
| SetGlobalAlpha (alpha : Q)
| SetFilter (f : CanvasFilter)
| FillRect (x y w h : Q)
| ClearRect (x y w h : Q)
| Save
| Restore
| Translate (x y : Q)
| Scale (sx sy : Q)
| BeginPath
| Rect (x y w h : Q)
| Clip
| DrawImage (img : ImgSource) (x y w h : Q)
| GetImageData (x y w h : Q).

Record Paint : Type := mkPaint {
  calls : list CanvasCall;
  thrown : option JsError
}.

Definition skip : Paint := mkPaint [] None.
Definition call (c : CanvasCall) : Paint := mkPaint [c] None.
Definition throw (e : JsError) : Paint := mkPaint [] (Some e).

(** Sequencing: the second routine runs only if the first did not throw. *)
Definition andThen (p q : Paint) : Paint :=
  match thrown p with
  | Some _ => p
  | None => mkPaint (calls p ++ calls q) (thrown q)
  end.

Declare Scope paint_scope.
Delimit Scope paint_scope with paint.
Bind Scope paint_scope with Paint.
Notation "p ;; q" := (andThen p q)
  (at level 61, right associativity) : paint_scope.
Local Open Scope paint_scope.

(** ** [easing.ts] *)

Definition applyEasing (t : Q) (easing : string) : Q :=
  let clamped := Qmax 0 (Qmin 1 t) in
  switch easing
    [ ("linear"%string, clamped);
      ("ease-in"%string, clamped * clamped * clamped);
      ("ease-out"%string, 1 - (1 - clamped) ^ 3);
      ("ease-in-out"%string,
         if Qlt_bool clamped (1 # 2)
         then 4 * clamped * clamped * clamped
         else 1 - (-2 * clamped + 2) ^ 3 / 2) ]
    clamped.

(** ** [transition-renderer.ts] *)

(** Draw an image scaled to cover the canvas; a missing image draws
    nothing.  [opacity] defaults to [1] in the source and is passed
    explicitly here. *)
Definition drawImage (img : option ImgSource) (width height opacity : Q) : Paint :=
  match img with
  | None => skip
  | Some img =>
      let imgW := img_width img in
      let imgH := img_height img in
      let scale := Qmax (width / imgW) (height / imgH) in
      let scaledW := imgW * scale in
      let scaledH := imgH * scale in
      let x := (width - scaledW) / 2 in
      let y := (height - scaledH) / 2 in
      call Save ;;
      call (SetGlobalAlpha opacity) ;;
      call (DrawImage img x y scaledW scaledH) ;;
      call Restore
  end.

Inductive Direction : Type := dir_left | dir_right | dir_up | dir_down.
Inductive ZoomDirection : Type := zoom_in | zoom_out.

Section TransitionRenderer.

Variables Math_cos Math_sin : Q -> Q.
Variable Math_PI : Q.

Definition renderFade (from to : option ImgSource) (progress w h : Q) : Paint :=
  drawImage from w h (1 - progress) ;;
  drawImage to w h progress.

Definition renderDissolve (from to : option ImgSource) (progress w h : Q) : Paint :=
  let fromAlpha := Math_cos (progress * Math_PI * (1 # 2)) in
  let toAlpha := Math_sin (progress * Math_PI * (1 # 2)) in
  drawImage from w h fromAlpha ;;
  drawImage to w h toAlpha.

Definition renderSlide (from to : option ImgSource) (progress w h : Q)
  (direction : Direction) : Paint :=
  let '(fromX, fromY, toX, toY) :=
    match direction with
    | dir_left => (- progress * w, 0, (1 - progress) * w, 0)
    | dir_right => (progress * w, 0, - (1 - progress) * w, 0)
    | dir_up => (0, - progress * h, 0, (1 - progress) * h)
    | dir_down => (0, progress * h, 0, - (1 - progress) * h)
    end in
  call Save ;;
  call (Translate fromX fromY) ;;
  drawImage from w h 1 ;;
  call Restore ;;
  call Save ;;
  call (Translate toX toY) ;;
  drawImage to w h 1 ;;
  call Restore.

Definition renderWipe (from to : option ImgSource) (progress w h : Q)
  (direction : Direction) : Paint :=
  drawImage from w h 1 ;;
  call Save ;;
  call BeginPath ;;
  call (match direction with
        | dir_left => Rect 0 0 (w * progress) h
        | dir_right => Rect (w * (1 - progress)) 0 (w * progress) h
        | dir_up => Rect 0 0 w (h * progress)
        | dir_down => Rect 0 (h * (1 - progress)) w (h * progress)
        end) ;;
  call Clip ;;
  drawImage to w h 1 ;;
  call Restore.

Definition renderZoom (from to : option ImgSource) (progress w h : Q)
  (direction : ZoomDirection) : Paint :=
  match direction with
  | zoom_in =>
      drawImage from w h (1 - progress) ;;
      let scale := progress in
      call Save ;;
      call (SetGlobalAlpha progress) ;;
      call (Translate (w / 2) (h / 2)) ;;
      call (Scale scale scale) ;;
      call (Translate (- w / 2) (- h / 2)) ;;
      drawImage to w h 1 ;;
      call Restore
  | zoom_out =>
      drawImage to w h progress ;;
      let scale := 1 + progress in
      call Save ;;
      call (SetGlobalAlpha (1 - progress)) ;;
      call (Translate (w / 2) (h / 2)) ;;
      call (Scale scale scale) ;;
      call (Translate (- w / 2) (- h / 2)) ;;
      drawImage from w h 1 ;;
      call Restore
  end.

Definition renderBlur (from to : option ImgSource) (progress w h : Q) : Paint :=
  let maxBlur := 20 in
  if Qlt_bool progress (1 # 2) then
    let blurAmount := (progress / (1 # 2)) * maxBlur in
    call Save ;;
    call (SetFilter (FilterBlur blurAmount)) ;;
    drawImage from w h 1 ;;
    call (SetFilter FilterNone) ;;
    call Restore
  else
    let blurAmount := ((1 - progress) / (1 # 2)) * maxBlur in
    call Save ;;
    call (SetFilter (FilterBlur blurAmount)) ;;
    drawImage to w h 1 ;;
    call (SetFilter FilterNone) ;;
    call Restore.

Definition renderRotate (from to : option ImgSource) (progress w h : Q) : Paint :=
  if Qlt_bool progress (1 # 2) then
    let angle := progress * Math_PI in
    let scale := Math_cos angle in
    call Save ;;
    call (Translate (w / 2) (h / 2)) ;;
    call (Scale (Qabs scale) 1) ;;
    call (Translate (- w / 2) (- h / 2)) ;;
    drawImage from w h (1 - progress) ;;
    call Restore
  else
    let angle := (1 - progress) * Math_PI in
    let scale := Math_cos angle in
    call Save ;;
    call (Translate (w / 2) (h / 2)) ;;
    call (Scale (Qabs scale) 1) ;;
    call (Translate (- w / 2) (- h / 2)) ;;
    drawImage to w h progress ;;
    call Restore.

Definition renderFlip (from to : option ImgSource) (progress w h : Q) : Paint :=
  if Qlt_bool progress (1 # 2) then
    let scaleY := 1 - progress * 2 in
    call Save ;;
    call (Translate 0 (h / 2)) ;;
    call (Scale 1 (number_or (Qabs scaleY) (1 # 1000))) ;;
    call (Translate 0 (- h / 2)) ;;
    drawImage from w h 1 ;;
    call Restore
  else
    let scaleY := (progress - (1 # 2)) * 2 in
    call Save ;;
    call (Translate 0 (h / 2)) ;;
    call (Scale 1 (number_or scaleY (1 # 1000))) ;;
    call (Translate 0 (- h / 2)) ;;
    drawImage to w h 1 ;;
    call Restore.

(** The labelled arms of the [switch] in [renderTransitionFrame]. *)
Definition transitionCases (from to : option ImgSource) (progress width height : Q)
  : list (string * Paint) :=
  [ ("none"%string,
       drawImage (if Qlt_bool progress (1 # 2) then from else to) width height 1);
    ("fade"%string, renderFade from to progress width height);
    ("dissolve"%string, renderDissolve from to progress width height);
    ("slide-left"%string, renderSlide from to progress width height dir_left);
    ("slide-right"%string, renderSlide from to progress width height dir_right);
    ("slide-up"%string, renderSlide from to progress width height dir_up);
    ("slide-down"%string, renderSlide from to progress width height dir_down);
    ("wipe-left"%string, renderWipe from to progress width height dir_left);
    ("wipe-right"%string, renderWipe from to progress width height dir_right);
    ("wipe-up"%string, renderWipe from to progress width height dir_up);
    ("wipe-down"%string, renderWipe from to progress width height dir_down);
    ("zoom-in"%string, renderZoom from to progress width height zoom_in);
    ("zoom-out"%string, renderZoom from to progress width height zoom_out);
    ("blur"%string, renderBlur from to progress width height);
    ("rotate"%string, renderRotate from to progress width height);
    ("flip"%string, renderFlip from to progress width height) ].

Definition renderTransitionFrame (from to : option ImgSource) (progress : Q)
  (type : string) (width height : Q) : Paint :=
  call (ClearRect 0 0 width height) ;;
  switch type (transitionCases from to progress width height)
    (drawImage (if Qlt_bool progress (1 # 2) then from else to) width height 1).

End TransitionRenderer.

(** ** [image-to-video.ts] *)

(** The transition attached to a timeline entry: the slide's
    [TransitionConfig] spread out, plus its absolute interval. *)
Record TransitionOut : Type := mkTransitionOut {
  out_type : string;
  out_duration : Q;
  out_easing : string;
  out_startTime : Q;
  out_endTime : Q
}.

(** [image] is [images[i]]: undefined when [images] is shorter than
    [slides]. *)
Record SlideTimeline : Type := mkSlideTimeline {
  slide : ImageSlide;
  image : option ImgSource;
  startTime : Q;
  endTime : Q;
  transitionOut : option TransitionOut
}.

Record BuiltTimeline : Type := mkBuiltTimeline {
  timeline : list SlideTimeline;
  totalDuration : Q
}.

Record OutputConfig : Type := mkOutputConfig {
  output_width : Q;
  output_height : Q;
  output_fps : Q
}.

Record ImageToVideoRequest : Type := mkImageToVideoRequest {
  slides : list ImageSlide;
  output : OutputConfig;
  request_backgroundColor : option string
}.

(** The fields of the class instance ([this]); the canvas itself is the
    trace. *)
Record ImageToVideoService : Type := mkImageToVideoService {
  width : Q;
  height : Q;
  fps : Q;
  backgroundColor : string
}.

(** [constructor].  [contextAvailable] tells whether
    [canvas.getContext("2d")] returned a context. *)
Definition newImageToVideoService (config : ImageToVideoRequest)
  (contextAvailable : bool) : Completion ImageToVideoService :=
  let color :=
    match request_backgroundColor config with
    | Some c => if String.eqb c "" then "#000000"%string else c
    | None => "#000000"%string
    end in
  if contextAvailable
  then Normal (mkImageToVideoService (output_width (output config))
                 (output_height (output config)) (output_fps (output config)) color)
  else Throw (Error "Failed to create canvas 2D context").

(** The test guarding the transition branch of [buildTimeline]:
    [i < slides.length - 1 && slide.transition && slide.transition.type !== "none"].
    It yields the transition config when the branch is taken. *)
Definition transitionToAdd (i len : nat) (s : ImageSlide) : option TransitionConfig :=
  if (Z.of_nat i <? Z.of_nat len - 1)%Z then
    match transition s with
    | Some tr => if negb (String.eqb (transition_type tr) "none") then Some tr else None
    | None => None
    end
  else None.

(** The [for] loop of [buildTimeline].  [rest] is [slides[i..]], [len] is
    [slides.length], [acc] is the array [timeline] built so far. *)
Fixpoint buildTimeline_loop (images : list ImgSource) (len i : nat)
  (rest : list ImageSlide) (currentTime : Q) (acc : list SlideTimeline)
  : BuiltTimeline :=
  match rest with
  | [] => mkBuiltTimeline acc currentTime
  | s :: rest' =>
      let img := nth_error images i in
      let startTime := currentTime in
      let endTime := startTime + duration s in
      match transitionToAdd i len s with
      | Some tr =>
          let transDuration := transition_duration tr in
          let entry :=
            mkSlideTimeline s img startTime endTime
              (Some (mkTransitionOut (transition_type tr) (transition_duration tr)
                       (transition_easing tr) endTime (endTime + transDuration))) in
          buildTimeline_loop images len (S i) rest' (endTime + transDuration)
            (acc ++ [entry])
      | None =>
          let entry := mkSlideTimeline s img startTime endTime None in
          buildTimeline_loop images len (S i) rest' endTime (acc ++ [entry])
      end
  end.

Definition buildTimeline (slides : list ImageSlide) (images : list ImgSource)
  : BuiltTimeline :=
  buildTimeline_loop images (List.length slides) 0 slides 0 [].

(** [drawImageCover]: reading [img.width] of an undefined image throws. *)
Definition drawImageCover (this : ImageToVideoService) (img : option ImgSource)
  : Paint :=
  match img with
  | None => throw (TypeError "Cannot read properties of undefined (reading 'width')")
  | Some img =>
      let imgW := img_width img in
      let imgH := img_height img in
      let scale := Qmax (width this / imgW) (height this / imgH) in
      let scaledW := imgW * scale in
      let scaledH := imgH * scale in
      let x := (width this - scaledW) / 2 in
      let y := (height this - scaledH) / 2 in
      call (DrawImage img x y scaledW scaledH)
  end.

(** The constant [t] of [renderSlideWithKenBurns]: the slide's progress,
    clamped to [0, 1]. *)
Definition kenBurnsProgress (entry : SlideTimeline) (time : Q) : Q :=
  let slideProgress := (time - startTime entry) / duration (slide entry) in
  Qmax 0 (Qmin 1 slideProgress).

Definition renderSlideWithKenBurns (this : ImageToVideoService)
  (entry : SlideTimeline) (time : Q) : Paint :=
  match kenBurns (slide entry) with
  | None => drawImageCover this (image entry)
  | Some kb =>
      let t := kenBurnsProgress entry time in
      let scale := startScale kb + (endScale kb - startScale kb) * t in
      let posX :=
        pos_x (startPosition kb) + (pos_x (endPosition kb) - pos_x (startPosition kb)) * t in
      let posY :=
        pos_y (startPosition kb) + (pos_y (endPosition kb) - pos_y (startPosition kb)) * t in
      call Save ;;
      call (Translate (width this / 2 + posX) (height this / 2 + posY)) ;;
      call (Scale scale scale) ;;
      call (Translate (- width this / 2) (- height this / 2)) ;;
      drawImageCover this (image entry) ;;
      call Restore
  end.

(** The five ways [renderFrame] leaves its body, with the data each one
    draws from. *)
Inductive FrameChoice : Type :=
| DisplaySlide (entry : SlideTimeline)
    (* inside the display time: [renderSlideWithKenBurns(entry, time)] *)
| NoNextSlide (entry : SlideTimeline)
    (* inside a transition but [timeline[i + 1]] is undefined *)
| TransitionFrame (entry next : SlideTimeline) (out : TransitionOut)
    (* inside a transition: [renderTransitionFrame] *)
| PastAllSlides (last : SlideTimeline)
    (* after the loop: [drawImageCover(last.image)] *)
| EmptyTimeline.
    (* after the loop, [last] undefined: nothing more is drawn *)

Definition inDisplay (time : Q) (entry : SlideTimeline) : bool :=
  Qge_bool time (startTime entry) && Qlt_bool time (endTime entry).

Definition inTransition (time : Q) (out : TransitionOut) : bool :=
  Qge_bool time (out_startTime out) && Qlt_bool time (out_endTime out).

(** The [for] loop of [renderFrame] over [timeline[i..]]; [timeline[i + 1]]
    is the head of what follows the current entry.  [None]: the loop ran
    to its end without returning. *)
Fixpoint scanTimeline (time : Q) (entries : list SlideTimeline)
  : option FrameChoice :=
  match entries with
  | [] => None
  | entry :: following =>
      if inDisplay time entry then Some (DisplaySlide entry)
      else
        match transitionOut entry with
        | Some out =>
            if inTransition time out then
              match following with
              | [] => Some (NoNextSlide entry)
              | nextEntry :: _ => Some (TransitionFrame entry nextEntry out)
              end
            else scanTimeline time following
        | None => scanTimeline time following
        end
  end.

Definition resolveFrame (time : Q) (timeline : list SlideTimeline) : FrameChoice :=
  match scanTimeline time timeline with
  | Some choice => choice
  | None =>
      match nth_error timeline (List.length timeline - 1) with
      | Some last => PastAllSlides last
      | None => EmptyTimeline
      end
  end.

(** [rawProgress] of the transition branch. *)
Definition rawProgress (time : Q) (out : TransitionOut) : Q :=
  (time - out_startTime out) / (out_endTime out - out_startTime out).

Section Service.

Variables Math_cos Math_sin : Q -> Q.
Variable Math_PI : Q.
(** [loadImage]: fetching and decoding is the environment's business. *)
Variable loadImage : string -> Completion ImgSource.

Definition drawChoice (this : ImageToVideoService) (time : Q)
  (choice : FrameChoice) : Paint :=
  match choice with
  | DisplaySlide entry => renderSlideWithKenBurns this entry time
  | NoNextSlide entry => renderSlideWithKenBurns this entry time
  | TransitionFrame entry nextEntry out =>
      let progress := applyEasing (rawProgress time out) (out_easing out) in
      renderTransitionFrame Math_cos Math_sin Math_PI
        (image entry) (image nextEntry) progress (out_type out)
        (width this) (height this)
  | PastAllSlides last => drawImageCover this (image last)
  | EmptyTimeline => skip
  end.

Definition renderFrame (this : ImageToVideoService) (time : Q)
  (timeline : list SlideTimeline) : Paint :=
  call (SetFillStyle (backgroundColor this)) ;;
  call (FillRect 0 0 (width this) (height this)) ;;
  drawChoice this time (resolveFrame time timeline).

(** The loading loop shared by [generateFrames] and [createRenderLoop]:
    images are awaited one after the other; the first rejection rejects
    the whole call. *)
Fixpoint loadImages (rest : list ImageSlide) (images : list ImgSource)
  : Completion (list ImgSource) :=
  match rest with
  | [] => Normal images
  | s :: rest' =>
      bindC (loadImage (src s)) (fun img => loadImages rest' (images ++ [img]))
  end.

Record GeneratedFrames : Type := mkGeneratedFrames {
  frames : list (unit -> Paint);
  frames_totalDuration : Q;
  frames_totalFrames : Z
}.

(** [frame = 0 .. totalFrames - 1]; no iteration when [totalFrames <= 0]. *)
Definition frameIndices (totalFrames : Z) : list Z :=
  map Z.of_nat (seq 0 (Z.to_nat totalFrames)).

Definition generateFrames (this : ImageToVideoService)
  (request : ImageToVideoRequest) : Completion GeneratedFrames :=
  bindC (loadImages (slides request) []) (fun images =>
    let built := buildTimeline (slides request) images in
    let totalFrames := Qceiling (totalDuration built * fps this) in
    let frameGenerators :=
      map (fun frameIndex (_ : unit) =>
             let time := inject_Z frameIndex / fps this in
             renderFrame this time (timeline built) ;;
             call (GetImageData 0 0 (width this) (height this)))
          (frameIndices totalFrames) in
    Normal (mkGeneratedFrames frameGenerators (totalDuration built) totalFrames)).

Record RenderLoop : Type := mkRenderLoop {
  loop_renderFrame : Z -> Paint;
  loop_totalDuration : Q;
  loop_totalFrames : Z
}.

Definition createRenderLoop (this : ImageToVideoService)
  (request : ImageToVideoRequest) : Completion RenderLoop :=
  bindC (loadImages (slides request) []) (fun images =>
    let built := buildTimeline (slides request) images in
    let totalFrames := Qceiling (totalDuration built * fps this) in
    Normal (mkRenderLoop
              (fun frameIndex =>
                 let time := inject_Z frameIndex / fps this in
                 renderFrame this time (timeline built))
              (totalDuration built) totalFrames)).

End Service.

(** ** Number arithmetic

    A Number is a binary64 value, and every arithmetic operation rounds
    its exact result to the nearest one.  The frame count, the frame
    times and the progress of a transition depend on that rounding, so
    the expressions that compute them are given here with the rounding
    [fl] of each result written out; the exact reading used above is
    [fl x = x]. *)

(** [Math.ceil(totalDuration * this.fps)], in [generateFrames] and in
    [createRenderLoop]. *)
Definition totalFramesOf (fl : Q -> Q) (totalDuration fps : Q) : Z :=
  Qceiling (fl (totalDuration * fps)).

(** [frameIndex / this.fps], in the frame closures of both. *)
Definition frameTime (fl : Q -> Q) (frameIndex : Z) (fps : Q) : Q :=
  fl (inject_Z frameIndex / fps).


(** The nearest integer, a tie going to the even one. *)
Definition roundHalfEven (q : Q) : Z :=
  let f := Qfloor q in
  match Qcompare (q - inject_Z f) (1 # 2) with
  | Lt => f
  | Gt => (f + 1)%Z
  | Eq => if Z.even f then f else (f + 1)%Z
  end.

(** For positive [q], the integer [c] with [2 ^ c <= q < 2 ^ (c + 1)]. *)
Definition binade (q : Q) : Z :=
  let c := (Z.log2 (Qnum q) - Z.log2 (Zpos (Qden q)))%Z in
  if Qle_bool (2 ^ c) q then c else (c - 1)%Z.

(** The binary64 value nearest to a positive rational, ties to even: 53
    significant bits, with the exponent bounded below by that of the
    subnormal numbers.  Overflow to [Infinity] is not represented; the
    definition is meant for magnitudes below [2 ^ 1024]. *)
Definition round64_pos (q : Q) : Q :=
  let e := Z.max (binade q - 52) (-1074) in
  inject_Z (roundHalfEven (q / 2 ^ e)) * 2 ^ e.

Definition round64 (q : Q) : Q :=
  match Qcompare q 0 with
  | Eq => 0
  | Gt => round64_pos q
  | Lt => - round64_pos (- q)
  end.

(** ** The [/api/image-to-video] route handler ([POST] and its schemas)

    Of the response only the status and the rendering plan are kept: the
    error details and the static lists of available transitions and
    easings are left out. *)

(** The request body as it arrives: a field that the schema makes
    optional or gives a default is an [option].  Bodies whose fields have
    the wrong JSON type are outside this type. *)
Record TransitionInput : Type := mkTransitionInput {
  in_type : string;
  in_transitionDuration : Q;
  in_easing : option string
}.

Record KenBurnsInput : Type := mkKenBurnsInput {
  in_startScale : option Q;
  in_endScale : option Q;
  in_startPosition : option Point;
  in_endPosition : option Point
}.

Record SlideInput : Type := mkSlideInput {
  in_src : string;
  in_duration : Q;
  in_transition : option TransitionInput;
  in_kenBurns : option KenBurnsInput
}.

Record OutputInput : Type := mkOutputInput {
  in_width : option Q;
  in_height : option Q;
  in_fps : option Q;
  in_format : option string;
  in_quality : option string
}.

Record RequestInput : Type := mkRequestInput {
  in_slides : list SlideInput;
  in_output : OutputInput;
  in_backgroundColor : option string
}.

(** The validated configuration ([validation.data]). *)
Record ValidatedOutput : Type := mkValidatedOutput {
  valid_width : Q;
  valid_height : Q;
  valid_fps : Q;
  valid_format : string;
  valid_quality : string
}.

Record ValidatedConfig : Type := mkValidatedConfig {
  config_slides : list ImageSlide;
  config_output : ValidatedOutput;
  config_backgroundColor : string
}.

(** [z.number().min(lo).max(hi)] *)
Definition zNumber (lo hi v : Q) : option Q :=
  if Qle_bool lo v && Qle_bool v hi then Some v else None.

(** [z.number().int().min(lo).max(hi)] *)
Definition zInt (lo hi v : Q) : option Q :=
  if Qeq_bool v (inject_Z (Qfloor v)) then zNumber lo hi v else None.

(** [z.enum(values)] *)
Definition zEnum (values : list string) (v : string) : option string :=
  if existsb (String.eqb v) values then Some v else None.

(** [schema.default(d)]: an absent field takes the default unvalidated. *)
Definition zDefault {A B : Type} (schema : A -> option B) (d : B) (v : option A)
  : option B :=
  match v with
  | None => Some d
  | Some a => schema a
  end.

(** [schema.optional()] *)
Definition zOptional {A B : Type} (schema : A -> option B) (v : option A)
  : option (option B) :=
  match v with
  | None => Some None
  | Some a => option_map Some (schema a)
  end.

(** [z.array(schema)]: every element must parse. *)
Fixpoint zArray {A B : Type} (schema : A -> option B) (vs : list A)
  : option (list B) :=
  match vs with
  | [] => Some []
  | v :: rest =>
      match schema v, zArray schema rest with
      | Some b, Some bs => Some (b :: bs)
      | _, _ => None
      end
  end.

Definition transitionTypeSchema : string -> option string :=
  zEnum [ "none"; "fade"; "slide-left"; "slide-right"; "slide-up"; "slide-down";
          "zoom-in"; "zoom-out"; "dissolve"; "wipe-left"; "wipe-right";
          "wipe-up"; "wipe-down"; "blur"; "rotate"; "flip" ]%string.

Definition easingTypeSchema : string -> option string :=
  zEnum [ "linear"; "ease-in"; "ease-out"; "ease-in-out" ]%string.

Definition transitionConfigSchema (v : TransitionInput) : option TransitionConfig :=
  match transitionTypeSchema (in_type v),
        zNumber (1 # 10) 5 (in_transitionDuration v),
        zDefault easingTypeSchema "ease-in-out"%string (in_easing v) with
  | Some type, Some d, Some easing => Some (mkTransitionConfig type d easing)
  | _, _, _ => None
  end.

Definition kenBurnsSchema (v : KenBurnsInput) : option KenBurns :=
  match zDefault (zNumber (1 # 2) 3) 1 (in_startScale v),
        zDefault (zNumber (1 # 2) 3) (12 # 10) (in_endScale v),
        zDefault (@Some Point) (mkPoint 0 0) (in_startPosition v),
        zDefault (@Some Point) (mkPoint 0 0) (in_endPosition v) with
  | Some s, Some e, Some sp, Some ep => Some (mkKenBurns s e sp ep)
  | _, _, _, _ => None
  end.

(** The [src] check: at least one character, and a URL or an image data
    URI. *)
Definition srcSchema (v : string) : option string :=
  if (1 <=? String.length v)%nat
     && (String.prefix "http://" v || String.prefix "https://" v
         || String.prefix "data:image/" v)
  then Some v else None.

Definition imageSlideSchema (v : SlideInput) : option ImageSlide :=
  match srcSchema (in_src v),
        zNumber (1 # 10) 60 (in_duration v),
        zOptional transitionConfigSchema (in_transition v),
        zOptional kenBurnsSchema (in_kenBurns v) with
  | Some s, Some d, Some tr, Some kb => Some (mkImageSlide s d tr kb)
  | _, _, _, _ => None
  end.

Definition outputSchema (v : OutputInput) : option ValidatedOutput :=
  match zDefault (zInt 64 3840) 1920 (in_width v),
        zDefault (zInt 64 2160) 1080 (in_height v),
        zDefault (zInt 1 60) 30 (in_fps v),
        zDefault (zEnum ["mp4"; "webm"]%string) "mp4"%string (in_format v),
        zDefault (zEnum ["low"; "medium"; "high"; "very_high"]%string)
          "high"%string (in_quality v) with
  | Some w, Some h, Some f, Some fmt, Some q => Some (mkValidatedOutput w h f fmt q)
  | _, _, _, _, _ => None
  end.

(** [imageToVideoRequestSchema.safeParse(body)]: [None] when validation
    fails. *)
Definition imageToVideoRequestSchema (body : RequestInput) : option ValidatedConfig :=
  match zArray imageSlideSchema (in_slides body),
        outputSchema (in_output body) with
  | Some slides, Some out =>
      if (1 <=? List.length slides)%nat && (List.length slides <=? 100)%nat
      then Some (mkValidatedConfig slides out
                   (match in_backgroundColor body with
                    | Some c => c
                    | None => "#000000"%string
                    end))
      else None
  | _, _ => None
  end.

(** An entry of the plan the route returns. *)
Record TimelineSlide : Type := mkTimelineSlide {
  plan_src : string;
  plan_duration : Q;
  plan_startTime : Q;
  plan_endTime : Q;
  plan_transition : option TransitionOut;
  plan_kenBurns : option KenBurns
}.

(** The [for] loop of [POST] that computes absolute times; [rest] is
    [config.slides[i..]] and [acc] the array [timeline] so far. *)
Fixpoint planTimeline_loop (len i : nat) (rest : list ImageSlide)
  (currentTime : Q) (acc : list TimelineSlide) : list TimelineSlide * Q :=
  match rest with
  | [] => (acc, currentTime)
  | s :: rest' =>
      let startTime := currentTime in
      let endTime := startTime + duration s in
      match transitionToAdd i len s with
      | Some tr =>
          let entry :=
            mkTimelineSlide (src s) (duration s) startTime endTime
              (Some (mkTransitionOut (transition_type tr) (transition_duration tr)
                       (transition_easing tr) endTime
                       (endTime + transition_duration tr)))
              (kenBurns s) in
          planTimeline_loop len (S i) rest' (endTime + transition_duration tr)
            (acc ++ [entry])
      | None =>
          let entry :=
            mkTimelineSlide (src s) (duration s) startTime endTime None (kenBurns s) in
          planTimeline_loop len (S i) rest' endTime (acc ++ [entry])
      end
  end.

Record PlanMetadata : Type := mkPlanMetadata {
  meta_totalDuration : Q;
  meta_totalFrames : Z;
  meta_slideCount : nat;
  meta_transitionCount : nat
}.

Record RenderPlan : Type := mkRenderPlan {
  plan_output : ValidatedOutput;
  plan_backgroundColor : string;
  plan_timeline : list TimelineSlide;
  plan_metadata : PlanMetadata
}.

(** The predicate of the [filter] that counts transitions:
    [s.transition && s.transition.type !== "none"]. *)
Definition hasRealTransition (s : ImageSlide) : bool :=
  match transition s with
  | Some tr => negb (String.eqb (transition_type tr) "none")
  | None => false
  end.

(** What [checkRateLimit] and [request.json()] can hand to [POST]. *)
Inductive RateLimitResult : Type :=
| RateLimit (limited : bool)
| RateLimitThrows.

Inductive BodyResult : Type :=
| BodyJson (body : RequestInput)
| BodySyntaxError
| BodyOtherError.

Inductive RouteResponse : Type :=
| TooManyRequests                    (* 429 *)
| InvalidRequest                     (* 400, "Invalid request" *)
| InvalidJson                        (* 400, "Invalid JSON in request body" *)
| InternalServerError                (* 500 *)
| Success (plan : RenderPlan).       (* 200 *)

Definition POST (rateLimit : RateLimitResult) (body : BodyResult) : RouteResponse :=
  match rateLimit with
  | RateLimitThrows => InternalServerError
  | RateLimit true => TooManyRequests
  | RateLimit false =>
      match body with
      | BodySyntaxError => InvalidJson
      | BodyOtherError => InternalServerError
      | BodyJson body =>
          match imageToVideoRequestSchema body with
          | None => InvalidRequest
          | Some config =>
              let '(timeline, currentTime) :=
                planTimeline_loop (List.length (config_slides config)) 0
                  (config_slides config) 0 [] in
              let totalDuration := currentTime in
              let totalFrames :=
                Qceiling (totalDuration * valid_fps (config_output config)) in
              Success
                (mkRenderPlan (config_output config) (config_backgroundColor config)
                   timeline
                   (mkPlanMetadata totalDuration totalFrames
                      (List.length (config_slides config))
                      (List.length (filter hasRealTransition (config_slides config)))))
          end
      end
  end.

(** ** The frame loop of [generate] ([hooks/use-image-to-video.ts]) *)

Inductive LoopOutcome : Type :=
| LoopDone                      (* every iteration ran *)
| LoopCancelled                 (* the cancel flag was seen set *)
| LoopThrew (error : JsError).  (* an iteration threw *)

(** [for (frame = 0; frame < totalFrames; frame++)] of [generate], over the
    indices still to visit.  [cancelled frame] is the value of
    [cancelRef.current] read at the top of iteration [frame]; [addFrame]
    is the encoder's [canvasSource.addFrame()], [Some e] when it rejects.
    The result lists the calls made to [renderLoop.renderFrame], in
    order, with what each painted. *)
Fixpoint generate_frameLoop (cancelled : Z -> bool) (renderFrame : Z -> Paint)
  (addFrame : Z -> option JsError) (indices : list Z)
  : list (Z * Paint) * LoopOutcome :=
  match indices with
  | [] => ([], LoopDone)
  | frame :: rest =>
      if cancelled frame then ([], LoopCancelled)
      else
        let painted := renderFrame frame in
        match thrown painted with
        | Some e => ([(frame, painted)], LoopThrew e)
        | None =>
            match addFrame frame with
            | Some e => ([(frame, painted)], LoopThrew e)
            | None =>
                let '(later, outcome) :=
                  generate_frameLoop cancelled renderFrame addFrame rest in
                ((frame, painted) :: later, outcome)
            end
        end
  end.

(** ** [app/slideshow/page.tsx] *)

Record File : Type := mkFile {
  file_name : string;
  file_type : string
}.

Record SlideItem : Type := mkSlideItem {
  item_id : string;
  item_file : File;
  item_previewUrl : string;
  item_duration : Q;
  item_transitionType : string;
  item_transitionDuration : Q;
  item_transitionEasing : string
}.

(** The loop of [renderWithMediaRecorder].  [onProgress] is the caller's
    callback, [Some e] when it throws; copying the canvas, requesting a
    stream frame and sleeping do not fail. *)
Fixpoint renderWithMediaRecorder_loop (renderFrame : Z -> Paint)
  (totalFrames : Z) (onProgress : Z -> Z -> option JsError) (indices : list Z)
  : list (Z * Paint) * LoopOutcome :=
  match indices with
  | [] => ([], LoopDone)
  | i :: rest =>
      match onProgress (i + 1)%Z totalFrames with
      | Some e => ([], LoopThrew e)
      | None =>
          let painted := renderFrame i in
          match thrown painted with
          | Some e => ([(i, painted)], LoopThrew e)
          | None =>
              let '(later, outcome) :=
                renderWithMediaRecorder_loop renderFrame totalFrames onProgress rest in
              ((i, painted) :: later, outcome)
          end
      end
  end.

Definition renderWithMediaRecorder (renderFrame : Z -> Paint) (totalFrames : Z)
  (onProgress : Z -> Z -> option JsError) : list (Z * Paint) * LoopOutcome :=
  renderWithMediaRecorder_loop renderFrame totalFrames onProgress
    (frameIndices totalFrames).

(** The progress callback [handleRender] passes: it throws once the cancel
    flag is set.  [cancelled frame] is the flag's value when the callback
    runs for [frame]. *)
Definition handleRender_onProgress (cancelled : Z -> bool) (frame total : Z)
  : option JsError :=
  if cancelled frame then Some (Error "Cancelled") else None.

(** The candidates of [getSupportedMimeType], in order of preference. *)
Definition mimeTypeCandidates : list string :=
  [ "video/webm;codecs=vp9"; "video/webm;codecs=vp8"; "video/webm"; "video/mp4" ]%string.

(** [getSupportedMimeType]: the [for] loop returns the first candidate
    that [MediaRecorder.isTypeSupported] accepts; after the loop the
    function returns ["video/webm"]. *)
Fixpoint getSupportedMimeType_loop (isTypeSupported : string -> bool)
  (types : list string) : string :=
  match types with
  | [] => "video/webm"
  | type :: rest =>
      if isTypeSupported type then type
      else getSupportedMimeType_loop isTypeSupported rest
  end.

Definition getSupportedMimeType (isTypeSupported : string -> bool) : string :=
  getSupportedMimeType_loop isTypeSupported mimeTypeCandidates.

Section SlideshowPage.

(** [fileToDataUri]: reading the file is the browser's business. *)
Variable fileToDataUri : File -> Completion string.

(** [Promise.all(slides.map(async (slide, i) => ...))] of [handleRender];
    [rest] is [slides[i..]], [len] is [slides.length].  When several files
    fail, which rejection wins is a matter of timing; the first in list
    order is taken. *)
Fixpoint slideConfigs (len i : nat) (rest : list SlideItem)
  : Completion (list ImageSlide) :=
  match rest with
  | [] => Normal []
  | slide :: rest' =>
      bindC (fileToDataUri (item_file slide)) (fun dataUri =>
        let isLast := (Z.of_nat i =? Z.of_nat len - 1)%Z in
        let config :=
          mkImageSlide dataUri (item_duration slide)
            (if negb isLast && negb (String.eqb (item_transitionType slide) "none")
             then Some (mkTransitionConfig (item_transitionType slide)
                          (item_transitionDuration slide)
                          (item_transitionEasing slide))
             else None)
            None in
        bindC (slideConfigs len (S i) rest') (fun configs =>
          Normal (config :: configs)))
  end.

(** The request [handleRender] builds; [None] when there are no slides
    (the handler shows a toast and returns). *)
Definition handleRender_request (slides : list SlideItem)
  (outputWidth outputHeight outputFps : Q)
  : option (Completion ImageToVideoRequest) :=
  if (List.length slides =? 0)%nat then None
  else Some
    (bindC (slideConfigs (List.length slides) 0 slides) (fun configs =>
       Normal (mkImageToVideoRequest configs
                 (mkOutputConfig outputWidth outputHeight outputFps)
                 (Some "#000000"%string)))).

End SlideshowPage.

(** * Auxiliary definitions

    The notions the properties are stated with: the specification's own
    wording of saturation, of the cursor and of input rejection; the
    invariants of a built timeline; and the sample inputs. *)

(** Saturation to the unit interval, as the specification words it:
    inputs below [0] give [0], inputs above [1] give [1]. *)
Definition saturate (t : Q) : Q :=
  if Qlt_le_dec t 0 then 0 else if Qlt_le_dec 1 t then 1 else t.

(** The sixteen members of the [TransitionType] union. *)
Definition TransitionType_values : list string :=
  [ "none"; "fade"; "slide-left"; "slide-right"; "slide-up"; "slide-down";
    "zoom-in"; "zoom-out"; "dissolve"; "wipe-left"; "wipe-right"; "wipe-up";
    "wipe-down"; "blur"; "rotate"; "flip" ]%string.

(** The entry pushed by iteration [i] when the cursor is [currentTime]. *)
Definition entryAt (images : list ImgSource) (len i : nat) (s : ImageSlide)
  (currentTime : Q) : SlideTimeline :=
  mkSlideTimeline s (nth_error images i) currentTime (currentTime + duration s)
    (match transitionToAdd i len s with
     | Some tr =>
         Some (mkTransitionOut (transition_type tr) (transition_duration tr)
                 (transition_easing tr) (currentTime + duration s)
                 (currentTime + duration s + transition_duration tr))
     | None => None
     end).

(** Where an entry's last interval ends: the cursor after its iteration. *)
Definition entryEnd (e : SlideTimeline) : Q :=
  match transitionOut e with
  | Some out => out_endTime out
  | None => endTime e
  end.

(** The same slide with no transition configured. *)
Definition withoutTransition (s : ImageSlide) : ImageSlide :=
  mkImageSlide (src s) (duration s) None (kenBurns s).

(** The intervals of a timeline entry. *)
Definition entryIntervals (e : SlideTimeline) : Q * Q * option TransitionOut :=
  (startTime e, endTime e, transitionOut e).

(** [chained a l b]: the entries of [l] follow one another from cursor [a]
    to cursor [b].  Each entry starts at the cursor, displays for its
    slide's duration, and an entry with a transition is followed by
    another entry. *)
Fixpoint chained (a : Q) (l : list SlideTimeline) (b : Q) : Prop :=
  match l with
  | [] => a = b
  | e :: l' =>
      startTime e = a /\
      endTime e = a + duration (slide e) /\
      (forall out, transitionOut e = Some out ->
         out_startTime out = endTime e /\
         out_endTime out = endTime e + out_duration out /\
         transition (slide e) =
           Some (mkTransitionConfig (out_type out) (out_duration out) (out_easing out)) /\
         l' <> []) /\
      chained (entryEnd e) l' b
  end.

Definition validSlide (s : ImageSlide) : Prop :=
  0 < duration s /\
  forall tr, transition s = Some tr -> 0 < transition_duration tr.

Definition validEntry (e : SlideTimeline) : Prop :=
  0 < duration (slide e) /\
  forall out, transitionOut e = Some out -> 0 < out_duration out.

(** The worked example: three slides of 3 s, the first two with a 1 s
    fade, rendered at 1920x1080 and 30 frames per second. *)
Definition fade1s : TransitionConfig := mkTransitionConfig "fade" 1 "ease-in-out".

Definition exampleSlides : list ImageSlide :=
  [ mkImageSlide "image1.jpg" 3 (Some fade1s) None;
    mkImageSlide "image2.jpg" 3 (Some fade1s) None;
    mkImageSlide "image3.jpg" 3 None None ].

Definition exampleLoadImage (source : string) : Completion ImgSource :=
  Normal (mkImgSource source 1920 1080).

Definition exampleImages : list ImgSource :=
  map (fun s => mkImgSource (src s) 1920 1080) exampleSlides.

Definition exampleService : ImageToVideoService :=
  mkImageToVideoService 1920 1080 30 "#000000".

Definition exampleRequest : ImageToVideoRequest :=
  mkImageToVideoRequest exampleSlides (mkOutputConfig 1920 1080 30) None.

(** The frame is one of the three renderings the resolver is meant to
    choose from. *)
Definition oneInstruction (time : Q) (tl : list SlideTimeline) : Prop :=
  (exists e, In e tl /\ resolveFrame time tl = DisplaySlide e) \/
  (exists e next out,
      In e tl /\ In next tl /\ transitionOut e = Some out /\
      resolveFrame time tl = TransitionFrame e next out) \/
  (exists last,
      nth_error tl (List.length tl - 1) = Some last /\
      resolveFrame time tl = PastAllSlides last).

(** A single 3 s slide that zooms from scale 1 to scale 2 while panning to
    offset (10, 20). *)
Definition kenBurnsSlides : list ImageSlide :=
  [ mkImageSlide "zoom.jpg" 3 None
      (Some (mkKenBurns 1 2 (mkPoint 0 0) (mkPoint 10 20))) ].

Definition kenBurnsImages : list ImgSource :=
  [ mkImgSource "zoom.jpg" 1920 1080 ].

Definition kenBurnsRequest : ImageToVideoRequest :=
  mkImageToVideoRequest kenBurnsSlides (mkOutputConfig 1920 1080 30) None.

Definition isTransform (c : CanvasCall) : bool :=
  match c with
  | Translate _ _ | Scale _ _ => true
  | _ => false
  end.

(** The half-open intervals of an entry, in time order: its display
    interval, then its transition interval when it has one. *)
Definition entryIntervalList (e : SlideTimeline) : list (Q * Q) :=
  (startTime e, endTime e) ::
  match transitionOut e with
  | Some out => [(out_startTime out, out_endTime out)]
  | None => []
  end.

Definition timelineIntervals (tl : list SlideTimeline) : list (Q * Q) :=
  flat_map entryIntervalList tl.

Definition within (t : Q) (iv : Q * Q) : Prop := fst iv <= t < snd iv.

(** [intervalChain a ivs b]: non-empty intervals, each starting where the
    previous one ends, from [a] to [b]. *)
Fixpoint intervalChain (a : Q) (ivs : list (Q * Q)) (b : Q) : Prop :=
  match ivs with
  | [] => a = b
  | iv :: rest => fst iv = a /\ fst iv < snd iv /\ intervalChain (snd iv) rest b
  end.

(** The specification's account of the cursor.  Slide [i] contributes a
    transition interval if and only if it is not the last slide and has a
    transition whose kind is not ["none"]. *)
Definition spec_transitionLength (slides : list ImageSlide) (i : nat) : Q :=
  match nth_error slides i with
  | Some s =>
      match transition s with
      | Some tr =>
          if (S i <? List.length slides)%nat
             && negb (String.eqb (transition_type tr) "none")
          then transition_duration tr
          else 0
      | None => 0
      end
  | None => 0
  end.

Definition spec_displayLength (slides : list ImageSlide) (i : nat) : Q :=
  match nth_error slides i with
  | Some s => duration s
  | None => 0
  end.

(** The cursor before slide [i]: it starts at 0 and advances by each
    slide's duration and then by its transition's duration. *)
Fixpoint spec_cursor (slides : list ImageSlide) (i : nat) : Q :=
  match i with
  | O => 0
  | S j =>
      spec_cursor slides j + spec_displayLength slides j
      + spec_transitionLength slides j
  end.

(** The inputs the specification wants rejected. *)
Definition invalidInput (slides : list ImageSlide) : Prop :=
  slides = [] \/ Exists (fun s => duration s <= 0) slides.

(** The specification's requirement: an invalid slide list makes the
    render-job entry points fail. *)
Definition rejectsInvalidInput : Prop :=
  forall (cos sin : Q -> Q) (PI : Q) (load : string -> Completion ImgSource)
         (this : ImageToVideoService) (request : ImageToVideoRequest),
    invalidInput (slides request) ->
    (exists err, createRenderLoop cos sin PI load this request = Throw err) /\
    (exists err, generateFrames cos sin PI load this request = Throw err).

Definition emptyRequest : ImageToVideoRequest :=
  mkImageToVideoRequest [] (mkOutputConfig 1920 1080 30) None.

Definition negativeRequest : ImageToVideoRequest :=
  mkImageToVideoRequest [ mkImageSlide "image1.jpg" (-1) None None ]
    (mkOutputConfig 1920 1080 30) None.

(** ** Reading a canvas trace *)

(** The images drawn, in drawing order (later ones paint over earlier
    ones). *)
Fixpoint drawnImages (cs : list CanvasCall) : list ImgSource :=
  match cs with
  | [] => []
  | DrawImage img _ _ _ _ :: rest => img :: drawnImages rest
  | _ :: rest => drawnImages rest
  end.

Definition optionList {A : Type} (o : option A) : list A :=
  match o with
  | Some a => [a]
  | None => []
  end.

(** The calls that change the drawing state that [save] and [restore]
    manage. *)
Definition changesState (c : CanvasCall) : bool :=
  match c with
  | SetFillStyle _ | SetGlobalAlpha _ | SetFilter _
  | Translate _ _ | Scale _ _ | Clip => true
  | _ => false
  end.

(** Runs through a trace from a given depth of the state stack.  The
    result is the final depth, or [None] when a [restore] has no matching
    [save] or the drawing state is changed outside every [save]. *)
Fixpoint scopedFrom (depth : nat) (cs : list CanvasCall) : option nat :=
  match cs with
  | [] => Some depth
  | Save :: rest => scopedFrom (S depth) rest
  | Restore :: rest =>
      match depth with
      | O => None
      | S d => scopedFrom d rest
      end
  | c :: rest =>
      if changesState c && (depth =? 0)%nat then None else scopedFrom depth rest
  end.

(** A trace that leaves the drawing state as it found it. *)
Definition stateNeutral (cs : list CanvasCall) : Prop := scopedFrom 0 cs = Some 0%nat.

(** The kinds whose two images are both drawn, outgoing first. *)
Definition blendingKinds : list string :=
  [ "fade"; "dissolve"; "slide-left"; "slide-right"; "slide-up"; "slide-down";
    "wipe-left"; "wipe-right"; "wipe-up"; "wipe-down"; "zoom-in" ]%string.

(** The four members of the [EasingType] union. *)
Definition EasingType_values : list string :=
  [ "linear"; "ease-in"; "ease-out"; "ease-in-out" ]%string.

(** The offsets of the [translate] calls, in order. *)
Fixpoint translations (cs : list CanvasCall) : list (Q * Q) :=
  match cs with
  | [] => []
  | Translate x y :: rest => (x, y) :: translations rest
  | _ :: rest => translations rest
  end.

(** The displacement from the outgoing to the incoming image in a slide
    transition over a [w] by [h] canvas. *)
Definition slideStep (direction : Direction) (w h : Q) : Q * Q :=
  match direction with
  | dir_left => (w, 0)
  | dir_right => (- w, 0)
  | dir_up => (0, h)
  | dir_down => (0, - h)
  end.

Definition clearsCanvas (c : CanvasCall) : bool :=
  match c with
  | ClearRect _ _ _ _ => true
  | _ => false
  end.

Definition isTransitionFrame (choice : FrameChoice) : bool :=
  match choice with
  | TransitionFrame _ _ _ => true
  | _ => false
  end.

(** [x] lies between [a] and [b], whichever of the two is larger. *)
Definition between (a x b : Q) : Prop := Qmin a b <= x <= Qmax a b.

(** The images [renderTransitionFrame] draws for a kind, in drawing
    order. *)
Definition drawnByKind (from to : option ImgSource) (progress : Q) (type : string)
  : list ImgSource :=
  if existsb (String.eqb type) blendingKinds then optionList from ++ optionList to
  else if String.eqb type "zoom-out" then optionList to ++ optionList from
  else optionList (if Qlt_bool progress (1 # 2) then from else to).

(** The plan entry that corresponds to a timeline entry of the service. *)
Definition planOf (e : SlideTimeline) : TimelineSlide :=
  mkTimelineSlide (src (slide e)) (duration (slide e)) (startTime e) (endTime e)
    (transitionOut e) (kenBurns (slide e)).

(** The ranges the request schema enforces on a slide. *)
Definition inSchemaRange (s : ImageSlide) : Prop :=
  1 # 10 <= duration s <= 60 /\
  forall tr, transition s = Some tr -> 1 # 10 <= transition_duration tr <= 5.

Definition hasPlanTransition (p : TimelineSlide) : bool :=
  match plan_transition p with
  | Some _ => true
  | None => false
  end.

(** Whether the last slide of the list configures a transition other than
    ["none"]. *)
Definition lastHasRealTransition (slides : list ImageSlide) : bool :=
  match rev slides with
  | s :: _ => hasRealTransition s
  | [] => false
  end.

(** Sample inputs for the further properties. *)
Definition wideImage : ImgSource := mkImgSource "wide.jpg" 4000 1000.

Definition flakyLoadImage (source : string) : Completion ImgSource :=
  if String.eqb source "image2.jpg"
  then Throw (Error "Failed to load image: image2.jpg")
  else Normal (mkImgSource source 1920 1080).

Definition kenBurnsEntry : SlideTimeline :=
  mkSlideTimeline
    (mkImageSlide "zoom.jpg" 3 None
       (Some (mkKenBurns 1 2 (mkPoint 0 0) (mkPoint 10 20))))
    (Some (mkImgSource "zoom.jpg" 1920 1080)) 0 3 None.

(** The request of the route's own documentation. *)
Definition sampleInput : RequestInput :=
  mkRequestInput
    [ mkSlideInput "https://example.com/image1.jpg" 3
        (Some (mkTransitionInput "fade" 1 (Some "ease-in-out"%string))) None;
      mkSlideInput "https://example.com/image2.jpg" 3
        (Some (mkTransitionInput "slide-left" (8 # 10) (Some "ease-out"%string))) None;
      mkSlideInput "https://example.com/image3.jpg" 3
        (Some (mkTransitionInput "fade" 1 None)) None ]
    (mkOutputInput (Some 1920) (Some 1080) (Some 30)
       (Some "mp4"%string) (Some "high"%string))
    (Some "#000000"%string).

Definition emptyInput : RequestInput :=
  mkRequestInput [] (mkOutputInput None None None None None) None.

Definition sampleItems : list SlideItem :=
  [ mkSlideItem "a" (mkFile "a.png" "image/png") "blob:a" 3 "fade" 1 "ease-in-out";
    mkSlideItem "b" (mkFile "b.png" "image/png") "blob:b" 2 "wipe-left" 1 "linear" ].

Definition sampleFileToDataUri (f : File) : Completion string :=
  Normal ("data:image/png;base64," ++ file_name f)%string.

(** A browser whose recorder only supports MP4. *)
Definition onlyMp4 (type : string) : bool := String.eqb type "video/mp4".

(** The cancel flag is seen set when frame 2 is about to be rendered. *)
Definition cancelAtTwo (frame : Z) : bool := (frame =? 2)%Z.

(** ** Further auxiliary definitions *)

(** The frame is the background fill followed by exactly one of the three
    renderings, the one the scan selects. *)
Definition rendersOneInstruction (cos sin : Q -> Q) (PI : Q)
  (this : ImageToVideoService) (time : Q) (tl : list SlideTimeline) : Prop :=
  let frame := renderFrame cos sin PI this time tl in
  (exists e,
      In e tl /\ resolveFrame time tl = DisplaySlide e /\
      frame = call (SetFillStyle (backgroundColor this)) ;;
              call (FillRect 0 0 (width this) (height this)) ;;
              renderSlideWithKenBurns this e time) \/
  (exists e next out,
      In e tl /\ In next tl /\ transitionOut e = Some out /\
      resolveFrame time tl = TransitionFrame e next out /\
      frame = call (SetFillStyle (backgroundColor this)) ;;
              call (FillRect 0 0 (width this) (height this)) ;;
              renderTransitionFrame cos sin PI (image e) (image next)
                (applyEasing
                   ((time - out_startTime out) / (out_endTime out - out_startTime out))
                   (out_easing out))
                (out_type out) (width this) (height this)) \/
  (exists last,
      nth_error tl (List.length tl - 1) = Some last /\
      resolveFrame time tl = PastAllSlides last /\
      frame = call (SetFillStyle (backgroundColor this)) ;;
              call (FillRect 0 0 (width this) (height this)) ;;
              drawImageCover this (image last)).




(** [contiguous a l b]: the intervals of [l] follow one another without a
    gap from [a] to [b], and none of them is empty.  Only the order of
    the stored bounds matters, not how they were computed. *)
Fixpoint contiguous (a : Q) (l : list SlideTimeline) (b : Q) : Prop :=
  match l with
  | [] => a == b
  | e :: l' =>
      startTime e == a /\
      a < endTime e /\
      (forall out, transitionOut e = Some out ->
         out_startTime out == endTime e /\
         endTime e < out_endTime out /\
         l' <> []) /\
      contiguous (entryEnd e) l' b
  end.

(** A single slide of 2.2 s, the duration being the binary64 value
    nearest to 2.2, for a service that renders 25 frames per second. *)
Definition binary64Slides : list ImageSlide :=
  [ mkImageSlide "image1.jpg" (round64 (11 # 5)) None None ].

Definition binary64Images : list ImgSource := [ mkImgSource "image1.jpg" 1920 1080 ].

Definition service25fps : ImageToVideoService :=
  mkImageToVideoService 1920 1080 25 "#000000".

(** * Properties *)

(** ** Easing *)

Lemma Qlt_bool_iff (a b : Q) : Qlt_bool a b = true <-> a < b.
Proof.
  unfold Qlt_bool. rewrite negb_true_iff.
  split; intro H.
  - apply Qnot_le_lt. intro Hle. apply Qle_bool_iff in Hle. congruence.
  - destruct (Qle_bool b a) eqn:E; [|reflexivity].
    apply Qle_bool_iff in E. exfalso. exact (Qlt_not_le _ _ H E).
Qed.

Lemma Qlt_bool_false_iff (a b : Q) : Qlt_bool a b = false <-> b <= a.
Proof.
  unfold Qlt_bool. rewrite negb_false_iff. apply Qle_bool_iff.
Qed.

Lemma Qge_bool_iff (a b : Q) : Qge_bool a b = true <-> b <= a.
Proof. unfold Qge_bool. apply Qle_bool_iff. Qed.

Lemma clamp_saturate (t : Q) : Qmax 0 (Qmin 1 t) == saturate t.
Proof.
  unfold saturate.
  destruct (Qlt_le_dec t 0) as [Hneg|Hpos].
  - apply Q.max_l. apply Qle_trans with t; [apply Q.le_min_r | apply Qlt_le_weak, Hneg].
  - destruct (Qlt_le_dec 1 t) as [Hbig|Hsmall].
    + rewrite (Q.min_l 1 t) by (apply Qlt_le_weak, Hbig).
      apply Q.max_r. discriminate.
    + rewrite (Q.min_r 1 t) by exact Hsmall.
      apply Q.max_r. exact Hpos.
Qed.

Lemma saturate_bounds (t : Q) : 0 <= saturate t <= 1.
Proof.
  unfold saturate.
  destruct (Qlt_le_dec t 0); [split; discriminate|].
  destruct (Qlt_le_dec 1 t); [split; discriminate|].
  split; assumption.
Qed.

(** C8. [applyEasing] saturates its input to [0, 1] and then evaluates the
    formula of the easing kind: linear [p], ease-in [p^3], ease-out
    [1 - (1-p)^3], ease-in-out [4p^3] below one half and
    [1 - (-2p+2)^3 / 2] from one half on.  Every kind fixes [0] and [1],
    and at [p = 1/2] both ease-in-out formulas give the value returned. *)
Theorem applyEasing_formulas :
  (forall t : Q,
      let p := saturate t in
      0 <= p <= 1 /\
      (t <= 0 -> p == 0) /\ (1 <= t -> p == 1) /\ (0 <= t <= 1 -> p == t) /\
      applyEasing t "linear" == p /\
      applyEasing t "ease-in" == p ^ 3 /\
      applyEasing t "ease-out" == 1 - (1 - p) ^ 3 /\
      (p < 1 # 2 -> applyEasing t "ease-in-out" == 4 * p ^ 3) /\
      (1 # 2 <= p -> applyEasing t "ease-in-out" == 1 - (-2 * p + 2) ^ 3 / 2)) /\
  (forall kind : string,
      In kind ["linear"; "ease-in"; "ease-out"; "ease-in-out"]%string ->
      applyEasing 0 kind == 0 /\ applyEasing 1 kind == 1) /\
  (applyEasing (1 # 2) "ease-in-out" == 4 * (1 # 2) ^ 3 /\
   applyEasing (1 # 2) "ease-in-out" == 1 - (-2 * (1 # 2) + 2) ^ 3 / 2).
Proof.
  split; [|split].
  - intros t p.
    pose proof (clamp_saturate t) as Hc. fold p in Hc.
    split; [apply saturate_bounds|].
    split; [|split; [|split]].
    + intro Ht. subst p. unfold saturate.
      destruct (Qlt_le_dec t 0); [reflexivity|].
      destruct (Qlt_le_dec 1 t) as [H1|H1].
      * exfalso. apply (Qlt_not_le _ _ H1). apply Qle_trans with 0; [exact Ht|discriminate].
      * apply Qle_antisym; assumption.
    + intro Ht. subst p. unfold saturate.
      destruct (Qlt_le_dec t 0) as [H0|H0].
      * exfalso. apply (Qlt_not_le _ _ H0). apply Qle_trans with 1; [discriminate|exact Ht].
      * destruct (Qlt_le_dec 1 t); [reflexivity|]. apply Qle_antisym; assumption.
    + intros [H0 H1]. subst p. unfold saturate.
      destruct (Qlt_le_dec t 0) as [Hn|_].
      * apply Qle_antisym; [exact H0|apply Qlt_le_weak, Hn].
      * destruct (Qlt_le_dec 1 t) as [Hb|_]; [|reflexivity].
        apply Qle_antisym; [apply Qlt_le_weak, Hb|exact H1].
    + unfold applyEasing; simpl switch.
      repeat split.
      * exact Hc.
      * rewrite Hc. simpl Qpower. ring.
      * rewrite Hc. reflexivity.
      * intro Hlt.
        assert (E : Qlt_bool (Qmax 0 (Qmin 1 t)) (1 # 2) = true).
        { apply Qlt_bool_iff. rewrite Hc. exact Hlt. }
        rewrite E, Hc. simpl Qpower. ring.
      * intro Hge.
        assert (E : Qlt_bool (Qmax 0 (Qmin 1 t)) (1 # 2) = false).
        { apply Qlt_bool_false_iff. rewrite Hc. exact Hge. }
        rewrite E, Hc. reflexivity.
  - intros kind Hin. simpl in Hin.
    repeat (destruct Hin as [<-|Hin]; [split; reflexivity|]).
    contradiction.
  - split; reflexivity.
Qed.

(** ** Effect renderer *)

Lemma switch_default {A : Type} (scrutinee : string) (cases : list (string * A))
  (default : A) :
  ~ In scrutinee (map fst cases) -> switch scrutinee cases default = default.
Proof.
  induction cases as [|[label arm] others IH]; intro Hnot; simpl.
  - reflexivity.
  - destruct (String.eqb_spec scrutinee label) as [->|Hne].
    + exfalso. apply Hnot. left. reflexivity.
    + apply IH. intro Hin. apply Hnot. right. exact Hin.
Qed.

Lemma transitionCases_labels (cos sin : Q -> Q) (PI : Q)
  (from to : option ImgSource) (progress w h : Q) (type : string) :
  In type (map fst (transitionCases cos sin PI from to progress w h)) ->
  In type TransitionType_values.
Proof.
  simpl. intro H.
  repeat (destruct H as [<-|H]; [simpl; tauto|]).
  contradiction.
Qed.

(** C9. For the kind ["none"] and for every kind outside the sixteen
    recognised ones, [renderTransitionFrame] clears the canvas and draws a
    single image cover-fit at full opacity: [from] while progress is below
    one half, [to] from one half on.  An unrecognised kind paints exactly
    what ["none"] paints. *)
Theorem renderTransitionFrame_hard_cut :
  forall (cos sin : Q -> Q) (PI : Q) (from to : option ImgSource)
         (progress : Q) (type : string) (w h : Q),
    type = "none"%string \/ ~ In type TransitionType_values ->
    let shown := if Qlt_bool progress (1 # 2) then from else to in
    let painted := renderTransitionFrame cos sin PI from to progress type w h in
    (progress < 1 # 2 -> shown = from) /\
    (1 # 2 <= progress -> shown = to) /\
    painted = call (ClearRect 0 0 w h) ;; drawImage shown w h 1 /\
    thrown painted = None /\
    (forall img : ImgSource, shown = Some img ->
       let scale := Qmax (w / img_width img) (h / img_height img) in
       calls painted =
         [ ClearRect 0 0 w h; Save; SetGlobalAlpha 1;
           DrawImage img ((w - img_width img * scale) / 2)
             ((h - img_height img * scale) / 2)
             (img_width img * scale) (img_height img * scale);
           Restore ]) /\
    (shown = None -> calls painted = [ClearRect 0 0 w h]) /\
    painted = renderTransitionFrame cos sin PI from to progress "none" w h.
Proof.
  intros cos sin PI from to progress type w h Hkind shown painted.
  assert (Hcut : painted = call (ClearRect 0 0 w h) ;; drawImage shown w h 1).
  { subst painted shown. unfold renderTransitionFrame.
    destruct Hkind as [->|Hunknown].
    - reflexivity.
    - rewrite switch_default; [reflexivity|].
      intro Hin. apply Hunknown. eapply transitionCases_labels. exact Hin. }
  split; [|split; [|split; [|split; [|split; [|split]]]]].
  - intro Hlt. subst shown. apply Qlt_bool_iff in Hlt. rewrite Hlt. reflexivity.
  - intro Hge. subst shown. apply Qlt_bool_false_iff in Hge. rewrite Hge. reflexivity.
  - exact Hcut.
  - rewrite Hcut. destruct shown; reflexivity.
  - intros img Himg. rewrite Hcut, Himg. reflexivity.
  - intro Hnone. rewrite Hcut, Hnone. reflexivity.
  - rewrite Hcut. reflexivity.
Qed.

(** ** Timeline builder: the loop, one iteration at a time *)

Lemma buildTimeline_loop_acc (images : list ImgSource) (len : nat)
  (rest : list ImageSlide) :
  forall (i : nat) (t : Q) (acc : list SlideTimeline),
    buildTimeline_loop images len i rest t acc =
    mkBuiltTimeline
      (acc ++ timeline (buildTimeline_loop images len i rest t []))
      (totalDuration (buildTimeline_loop images len i rest t [])).
Proof.
  induction rest as [|s rest IH]; intros i t acc; simpl.
  - rewrite app_nil_r. reflexivity.
  - destruct (transitionToAdd i len s) as [tr|].
    + rewrite IH. rewrite (IH (S i) _ [_]). simpl.
      rewrite <- app_assoc. reflexivity.
    + rewrite IH. rewrite (IH (S i) _ [_]). simpl.
      rewrite <- app_assoc. reflexivity.
Qed.

Lemma buildTimeline_loop_cons (images : list ImgSource) (len i : nat)
  (s : ImageSlide) (rest : list ImageSlide) (t : Q) :
  let e := entryAt images len i s t in
  let r := buildTimeline_loop images len (S i) rest (entryEnd e) [] in
  buildTimeline_loop images len i (s :: rest) t [] =
  mkBuiltTimeline (e :: timeline r) (totalDuration r).
Proof.
  simpl. unfold entryAt, entryEnd.
  destruct (transitionToAdd i len s) as [tr|]; simpl;
    rewrite buildTimeline_loop_acc; reflexivity.
Qed.

Lemma buildTimeline_loop_length (images : list ImgSource) (len : nat)
  (rest : list ImageSlide) :
  forall (i : nat) (t : Q),
    List.length (timeline (buildTimeline_loop images len i rest t [])) =
    List.length rest.
Proof.
  induction rest as [|s rest IH]; intros i t.
  - reflexivity.
  - rewrite buildTimeline_loop_cons. simpl. rewrite IH. reflexivity.
Qed.

Lemma transitionToAdd_Some (i len : nat) (s : ImageSlide) (tr : TransitionConfig) :
  transitionToAdd i len s = Some tr <->
  (S i < len)%nat /\ transition s = Some tr /\ transition_type tr <> "none"%string.
Proof.
  unfold transitionToAdd.
  destruct (Z.ltb_spec (Z.of_nat i) (Z.of_nat len - 1)) as [Hlt|Hge].
  - destruct (transition s) as [tr'|].
    + destruct (String.eqb_spec (transition_type tr') "none") as [Heq|Hne]; simpl.
      * split; [discriminate|]. intros (_ & Htr & Hn). congruence.
      * split.
        -- intros [= ->]. repeat split; [lia|assumption].
        -- intros (_ & [= ->] & _). reflexivity.
    + split; [discriminate|]. intros (_ & Htr & _). discriminate.
  - split; [discriminate|]. intros (Hlt & _). lia.
Qed.

Lemma transitionToAdd_last (len : nat) (s : ImageSlide) :
  transitionToAdd (len - 1) len s = None.
Proof.
  destruct (transitionToAdd (len - 1) len s) as [tr|] eqn:E; [|reflexivity].
  apply transitionToAdd_Some in E. lia.
Qed.

(** ** The last slide's transition *)

Lemma buildTimeline_loop_last_transition (images : list ImgSource) (len : nat)
  (s : ImageSlide) (rest : list ImageSlide) :
  forall (i : nat) (t : Q),
    len = (i + List.length rest + 1)%nat ->
    let b := buildTimeline_loop images len i (rest ++ [s]) t [] in
    let b' := buildTimeline_loop images len i (rest ++ [withoutTransition s]) t [] in
    totalDuration b = totalDuration b' /\
    map entryIntervals (timeline b) = map entryIntervals (timeline b') /\
    exists front last,
      timeline b = front ++ [last] /\ transitionOut last = None /\ slide last = s.
Proof.
  induction rest as [|s0 rest IH]; intros i t Hlen.
  - simpl app. cbv zeta. rewrite !buildTimeline_loop_cons. simpl.
    assert (Hi : i = (len - 1)%nat) by (simpl in Hlen; lia).
    unfold entryEnd, entryAt, entryIntervals. simpl.
    rewrite Hi, !transitionToAdd_last. simpl.
    repeat split.
    eexists [], _. simpl. repeat split.
  - simpl app. cbv zeta. rewrite !buildTimeline_loop_cons. simpl.
    destruct (IH (S i) (entryEnd (entryAt images len i s0 t))) as (Hd & Hm & front & last & Hf & Hl & Hs).
    { simpl in Hlen. lia. }
    repeat split.
    + exact Hd.
    + f_equal. exact Hm.
    + exists (entryAt images len i s0 t :: front), last.
      rewrite Hf. repeat split; assumption.
Qed.

(** C7. The transition of the last slide is ignored whatever its kind:
    a slide list and the same list with the last slide's transition
    removed give the same [totalDuration] and, entry by entry, the same
    display and transition intervals; the last entry carries no
    transition. *)
Theorem last_transition_ignored :
  forall (init : list ImageSlide) (s : ImageSlide) (images : list ImgSource),
    let b := buildTimeline (init ++ [s]) images in
    let b' := buildTimeline (init ++ [withoutTransition s]) images in
    totalDuration b = totalDuration b' /\
    map entryIntervals (timeline b) = map entryIntervals (timeline b') /\
    exists front last,
      timeline b = front ++ [last] /\ transitionOut last = None /\ slide last = s.
Proof.
  intros init s images. unfold buildTimeline.
  assert (Hl : List.length (init ++ [withoutTransition s]) = List.length (init ++ [s])).
  { rewrite !length_app. reflexivity. }
  rewrite Hl.
  apply buildTimeline_loop_last_transition.
  rewrite length_app. simpl. lia.
Qed.

(** ** The shape of a built timeline *)

Lemma buildTimeline_loop_chained (images : list ImgSource) (len : nat)
  (rest : list ImageSlide) :
  forall (i : nat) (t : Q),
    len = (i + List.length rest)%nat ->
    let b := buildTimeline_loop images len i rest t [] in
    chained t (timeline b) (totalDuration b).
Proof.
  induction rest as [|s rest IH]; intros i t Hlen.
  - reflexivity.
  - cbv zeta. rewrite buildTimeline_loop_cons. simpl.
    split; [reflexivity|]. split; [reflexivity|]. split.
    + intros out Hout. unfold entryAt in Hout. simpl in Hout.
      destruct (transitionToAdd i len s) as [tr|] eqn:E; [|discriminate].
      injection Hout as <-. simpl.
      apply transitionToAdd_Some in E. destruct E as (Hi & Htr & _).
      split; [reflexivity|]. split; [reflexivity|].
      split; [rewrite Htr; destruct tr; reflexivity|].
      intro Hnil. apply (f_equal (@List.length _)) in Hnil.
      rewrite buildTimeline_loop_length in Hnil. simpl in *. lia.
    + apply IH. simpl in Hlen. lia.
Qed.

Lemma buildTimeline_chained (slides : list ImageSlide) (images : list ImgSource) :
  chained 0 (timeline (buildTimeline slides images))
    (totalDuration (buildTimeline slides images)).
Proof. apply buildTimeline_loop_chained. reflexivity. Qed.

Lemma buildTimeline_loop_valid (images : list ImgSource) (len : nat)
  (rest : list ImageSlide) :
  forall (i : nat) (t : Q),
    Forall validSlide rest ->
    Forall validEntry (timeline (buildTimeline_loop images len i rest t [])).
Proof.
  induction rest as [|s rest IH]; intros i t Hvalid.
  - constructor.
  - rewrite buildTimeline_loop_cons. simpl.
    inversion Hvalid as [|? ? [Hd Htr] Hrest]; subst.
    constructor; [|apply IH; assumption].
    split; [exact Hd|].
    intros out Hout. unfold entryAt in Hout. simpl in Hout.
    destruct (transitionToAdd i len s) as [tr|] eqn:E; [|discriminate].
    injection Hout as <-. simpl.
    apply transitionToAdd_Some in E. destruct E as (_ & Hs & _).
    apply Htr. exact Hs.
Qed.

Lemma buildTimeline_valid (slides : list ImageSlide) (images : list ImgSource) :
  Forall validSlide slides ->
  Forall validEntry (timeline (buildTimeline slides images)).
Proof. apply buildTimeline_loop_valid. Qed.

Lemma buildTimeline_length (slides : list ImageSlide) (images : list ImgSource) :
  List.length (timeline (buildTimeline slides images)) = List.length slides.
Proof. apply buildTimeline_loop_length. Qed.

(** An entry's last interval ends no earlier than the entry starts. *)
Lemma validEntry_order (a b : Q) (e : SlideTimeline) (l : list SlideTimeline) :
  chained a (e :: l) b -> validEntry e ->
  a < endTime e /\ endTime e <= entryEnd e.
Proof.
  intros (Hs & He & Hout & _) [Hd Ho]. unfold entryEnd.
  split; [rewrite He; lra|].
  destruct (transitionOut e) as [out|]; [|lra].
  destruct (Hout out eq_refl) as (_ & Hoe & _ & _).
  specialize (Ho out eq_refl). rewrite Hoe. lra.
Qed.

Lemma chained_le (l : list SlideTimeline) :
  forall a b, chained a l b -> Forall validEntry l -> a <= b.
Proof.
  induction l as [|e l IH]; intros a b Hc Hv.
  - simpl in Hc. subst. lra.
  - inversion Hv as [|? ? He Hl]; subst.
    destruct (validEntry_order _ _ _ _ Hc He) as [H1 H2].
    destruct Hc as (_ & _ & _ & Hc').
    specialize (IH _ _ Hc' Hl). lra.
Qed.

Lemma chained_nth_start (l : list SlideTimeline) :
  forall a b i e,
    chained a l b -> Forall validEntry l -> nth_error l i = Some e ->
    a <= startTime e /\ entryEnd e <= b.
Proof.
  induction l as [|e0 l IH]; intros a b i e Hc Hv Hnth.
  - destruct i; discriminate.
  - inversion Hv as [|? ? He Hl]; subst.
    destruct (validEntry_order _ _ _ _ Hc He) as [H1 H2].
    destruct Hc as (Hs & _ & _ & Hc').
    destruct i as [|i]; simpl in Hnth.
    + injection Hnth as <-. split; [rewrite Hs; lra|].
      apply (chained_le _ _ _ Hc' Hl).
    + destruct (IH _ _ _ _ Hc' Hl Hnth) as [H3 H4]. split; lra.
Qed.

Lemma chained_next (l : list SlideTimeline) :
  forall a b i e out,
    chained a l b -> nth_error l i = Some e -> transitionOut e = Some out ->
    exists next, nth_error l (S i) = Some next.
Proof.
  induction l as [|e0 l IH]; intros a b i e out Hc Hnth Hout.
  - destruct i; discriminate.
  - destruct Hc as (_ & _ & Hfollow & Hc').
    destruct i as [|i]; simpl in Hnth.
    + injection Hnth as ->.
      destruct (Hfollow out Hout) as (_ & _ & _ & Hne).
      destruct l as [|next l']; [congruence|].
      exists next. reflexivity.
    + simpl. eapply IH; eassumption.
Qed.

Lemma scanTimeline_has_next (l : list SlideTimeline) :
  forall a b time e,
    chained a l b -> scanTimeline time l <> Some (NoNextSlide e).
Proof.
  induction l as [|e0 l IH]; intros a b time e Hc; simpl.
  - discriminate.
  - destruct Hc as (_ & _ & Hfollow & Hc').
    destruct (inDisplay time e0); [discriminate|].
    destruct (transitionOut e0) as [out|]; [|eapply IH; eassumption].
    destruct (inTransition time out); [|eapply IH; eassumption].
    destruct (Hfollow out eq_refl) as (_ & _ & _ & Hne).
    destruct l; [congruence|discriminate].
Qed.

(** ** Transitions are always followed by a slide *)

(** C10. In a timeline produced by [buildTimeline], an entry that carries
    a [transitionOut] is followed by another entry; hence [renderFrame]
    never leaves through its "no next slide" branch on such a timeline. *)
Theorem transition_has_next_entry :
  forall (slides : list ImageSlide) (images : list ImgSource),
    let tl := timeline (buildTimeline slides images) in
    (forall i e out,
        nth_error tl i = Some e -> transitionOut e = Some out ->
        (S i < List.length slides)%nat /\
        exists next, nth_error tl (S i) = Some next) /\
    (forall time e, resolveFrame time tl <> NoNextSlide e).
Proof.
  intros slides images tl.
  pose proof (buildTimeline_chained slides images) as Hc. fold tl in Hc.
  split.
  - intros i e out Hnth Hout.
    destruct (chained_next _ _ _ _ _ _ Hc Hnth Hout) as [next Hnext].
    split; [|exists next; exact Hnext].
    assert (Hlt : (S i < List.length tl)%nat).
    { apply nth_error_Some. congruence. }
    unfold tl in Hlt. rewrite buildTimeline_length in Hlt. exact Hlt.
  - intros time e. unfold resolveFrame.
    destruct (scanTimeline time tl) as [choice|] eqn:E.
    + intros ->. exact (scanTimeline_has_next _ _ _ _ _ Hc E).
    + destruct (nth_error tl (List.length tl - 1)); discriminate.
Qed.

(** ** Frame resolver *)

Lemma inDisplay_iff (time : Q) (e : SlideTimeline) :
  inDisplay time e = true <-> startTime e <= time < endTime e.
Proof.
  unfold inDisplay. rewrite andb_true_iff, Qge_bool_iff, Qlt_bool_iff. tauto.
Qed.

Lemma inTransition_iff (time : Q) (out : TransitionOut) :
  inTransition time out = true <-> out_startTime out <= time < out_endTime out.
Proof.
  unfold inTransition. rewrite andb_true_iff, Qge_bool_iff, Qlt_bool_iff. tauto.
Qed.

Lemma inDisplay_false (time : Q) (e : SlideTimeline) :
  time < startTime e \/ endTime e <= time -> inDisplay time e = false.
Proof.
  intro H. destruct (inDisplay time e) eqn:E; [|reflexivity].
  apply inDisplay_iff in E. lra.
Qed.

Lemma inTransition_false (time : Q) (out : TransitionOut) :
  time < out_startTime out \/ out_endTime out <= time -> inTransition time out = false.
Proof.
  intro H. destruct (inTransition time out) eqn:E; [|reflexivity].
  apply inTransition_iff in E. lra.
Qed.

(** Once the time is at or after an entry's last interval, the scan moves
    on to the entries that follow. *)
Lemma scanTimeline_skip (a b time : Q) (e : SlideTimeline) (l : list SlideTimeline) :
  chained a (e :: l) b -> validEntry e -> entryEnd e <= time ->
  scanTimeline time (e :: l) = scanTimeline time l.
Proof.
  intros Hc Hv Ht.
  destruct (validEntry_order _ _ _ _ Hc Hv) as [_ Hle].
  simpl. rewrite inDisplay_false by lra.
  unfold entryEnd in Ht.
  destruct (transitionOut e) as [out|]; [|reflexivity].
  rewrite inTransition_false by lra. reflexivity.
Qed.


Lemma chained_suffix (l : list SlideTimeline) :
  forall a b i e,
    chained a l b -> Forall validEntry l -> nth_error l i = Some e ->
    a <= startTime e /\ chained (startTime e) (e :: skipn (S i) l) b.
Proof.
  induction l as [|e0 l IH]; intros a b i e Hc Hv Hnth.
  - destruct i; discriminate.
  - inversion Hv as [|? ? He0 Hl]; subst.
    destruct i as [|i]; simpl in Hnth.
    + injection Hnth as ->. pose proof Hc as (Hs & _).
      split; [rewrite Hs; lra|]. simpl skipn. rewrite Hs. exact Hc.
    + destruct (validEntry_order _ _ _ _ Hc He0) as [H1 H2].
      destruct Hc as (Hs & _ & _ & Hc').
      destruct (IH _ _ _ _ Hc' Hl Hnth) as [H3 H4].
      split; [lra|exact H4].
Qed.


Lemma scanTimeline_past (l : list SlideTimeline) :
  forall a b time,
    chained a l b -> Forall validEntry l -> b <= time ->
    scanTimeline time l = None.
Proof.
  induction l as [|e0 l IH]; intros a b time Hc Hv Ht.
  - reflexivity.
  - inversion Hv as [|? ? He0 Hl]; subst.
    pose proof Hc as (_ & _ & _ & Hc').
    pose proof (chained_le _ _ _ Hc' Hl) as Hle.
    rewrite (scanTimeline_skip _ _ _ _ _ Hc He0) by lra.
    eapply IH; eassumption.
Qed.

Lemma scanTimeline_choice (l : list SlideTimeline) (time : Q) (choice : FrameChoice) :
  scanTimeline time l = Some choice ->
  (exists e, choice = DisplaySlide e /\ In e l /\ startTime e <= time < endTime e) \/
  (exists e, choice = NoNextSlide e /\ In e l) \/
  (exists e next out,
      choice = TransitionFrame e next out /\ In e l /\ In next l /\
      transitionOut e = Some out /\
      out_startTime out <= time < out_endTime out).
Proof.
  induction l as [|e0 l IH]; simpl; intro H.
  - discriminate.
  - assert (Hrec : scanTimeline time l = Some choice ->
      (exists e, choice = DisplaySlide e /\ (e0 = e \/ In e l) /\ startTime e <= time < endTime e) \/
      (exists e, choice = NoNextSlide e /\ (e0 = e \/ In e l)) \/
      (exists e next out,
          choice = TransitionFrame e next out /\ (e0 = e \/ In e l) /\ (e0 = next \/ In next l) /\
          transitionOut e = Some out /\
          out_startTime out <= time < out_endTime out)).
    { intro Hs. destruct (IH Hs) as [(e & ? & ? & ?)|[(e & ? & ?)|(e & next & out & ? & ? & ? & ? & ?)]].
      - left. exists e. auto.
      - right. left. exists e. auto.
      - right. right. exists e, next, out. auto. }
    destruct (inDisplay time e0) eqn:Ed.
    + injection H as <-. left. exists e0. apply inDisplay_iff in Ed. auto.
    + destruct (transitionOut e0) as [out|] eqn:Eo; [|auto].
      destruct (inTransition time out) eqn:Et; [|auto].
      apply inTransition_iff in Et.
      destruct l as [|next l'].
      * injection H as <-. right. left. exists e0. auto.
      * injection H as <-. right. right. exists e0, next, out. simpl. auto 7.
Qed.






(** ** Totality of the frame resolver *)

Lemma buildTimeline_loop_images (images : list ImgSource) (len : nat)
  (rest : list ImageSlide) :
  forall (i : nat) (t : Q),
    (i + List.length rest <= List.length images)%nat ->
    Forall (fun e => image e <> None)
      (timeline (buildTimeline_loop images len i rest t [])).
Proof.
  induction rest as [|s rest IH]; intros i t Hlen.
  - constructor.
  - rewrite buildTimeline_loop_cons. simpl. simpl in Hlen.
    constructor.
    + simpl. apply nth_error_Some. lia.
    + apply IH. lia.
Qed.

Lemma switch_ind {A : Type} (P : A -> Prop) (scrutinee : string)
  (cases : list (string * A)) (default : A) :
  Forall (fun c => P (snd c)) cases -> P default ->
  P (switch scrutinee cases default).
Proof.
  intros Hcases Hdefault.
  induction Hcases as [|[label arm] others Harm _ IH]; simpl.
  - exact Hdefault.
  - destruct (String.eqb scrutinee label); [exact Harm|exact IH].
Qed.

Lemma drawImage_thrown (img : option ImgSource) (w h opacity : Q) :
  thrown (drawImage img w h opacity) = None.
Proof. destruct img; reflexivity. Qed.

Lemma andThen_thrown (p q : Paint) :
  thrown p = None -> thrown q = None -> thrown (p ;; q) = None.
Proof. intros Hp Hq. unfold andThen. rewrite Hp. exact Hq. Qed.

Lemma call_thrown (c : CanvasCall) : thrown (call c) = None.
Proof. reflexivity. Qed.

Ltac paint_no_throw :=
  repeat first
    [ apply call_thrown
    | apply drawImage_thrown
    | apply andThen_thrown ].

Lemma renderTransitionFrame_thrown (cos sin : Q -> Q) (PI : Q)
  (from to : option ImgSource) (progress : Q) (type : string) (w h : Q) :
  thrown (renderTransitionFrame cos sin PI from to progress type w h) = None.
Proof.
  unfold renderTransitionFrame.
  apply andThen_thrown; [apply call_thrown|].
  apply switch_ind; [|apply drawImage_thrown].
  unfold transitionCases.
  repeat (apply Forall_cons; [simpl snd|]); try apply Forall_nil.
  - apply drawImage_thrown.
  - unfold renderFade. paint_no_throw.
  - unfold renderDissolve. paint_no_throw.
  - unfold renderSlide. simpl. paint_no_throw.
  - unfold renderSlide. simpl. paint_no_throw.
  - unfold renderSlide. simpl. paint_no_throw.
  - unfold renderSlide. simpl. paint_no_throw.
  - unfold renderWipe. paint_no_throw.
  - unfold renderWipe. paint_no_throw.
  - unfold renderWipe. paint_no_throw.
  - unfold renderWipe. paint_no_throw.
  - unfold renderZoom. paint_no_throw.
  - unfold renderZoom. paint_no_throw.
  - unfold renderBlur. destruct (Qlt_bool progress (1 # 2)); paint_no_throw.
  - unfold renderRotate. destruct (Qlt_bool progress (1 # 2)); paint_no_throw.
  - unfold renderFlip. destruct (Qlt_bool progress (1 # 2)); paint_no_throw.
Qed.

Lemma renderSlideWithKenBurns_thrown (this : ImageToVideoService)
  (e : SlideTimeline) (time : Q) :
  image e <> None -> thrown (renderSlideWithKenBurns this e time) = None.
Proof.
  intro Himg. unfold renderSlideWithKenBurns.
  destruct (image e) as [img|]; [|congruence].
  destruct (kenBurns (slide e)); reflexivity.
Qed.

Lemma scanTimeline_inside (l : list SlideTimeline) :
  forall a b time,
    chained a l b -> Forall validEntry l -> a <= time < b ->
    exists choice, scanTimeline time l = Some choice.
Proof.
  induction l as [|e0 l IH]; intros a b time Hc Hv Ht.
  - simpl in Hc. subst. lra.
  - inversion Hv as [|? ? He0 Hl]; subst.
    destruct (Qlt_le_dec time (entryEnd e0)) as [Hin|Hpast].
    + pose proof Hc as (Hs & _ & Hfollow & _).
      simpl. destruct (inDisplay time e0) eqn:Ed; [eauto|].
      assert (Hge : endTime e0 <= time).
      { destruct (Qlt_le_dec time (endTime e0)) as [Hlt|Hge]; [|exact Hge].
        assert (Htrue : inDisplay time e0 = true).
        { apply inDisplay_iff. rewrite Hs. lra. }
        congruence. }
      unfold entryEnd in Hin.
      destruct (transitionOut e0) as [out|]; [|lra].
      destruct (Hfollow out eq_refl) as (Hos & _ & _ & Hne).
      assert (Ht' : inTransition time out = true).
      { apply inTransition_iff. rewrite Hos. lra. }
      rewrite Ht'. destruct l; eauto.
    + rewrite (scanTimeline_skip _ _ _ _ _ Hc He0 Hpast).
      destruct Hc as (_ & _ & _ & Hc').
      apply (IH _ _ _ Hc' Hl). lra.
Qed.

Lemma loadImages_all (load : string -> Completion ImgSource)
  (rest : list ImageSlide) :
  forall acc,
    (forall s, In s rest -> exists img, load (src s) = Normal img) ->
    exists images,
      loadImages load rest acc = Normal images /\
      List.length images = (List.length acc + List.length rest)%nat.
Proof.
  induction rest as [|s rest IH]; intros acc Hok; simpl.
  - exists acc. split; [reflexivity|lia].
  - destruct (Hok s (or_introl eq_refl)) as [img Himg]. rewrite Himg. simpl.
    destruct (IH (acc ++ [img])) as (images & Hload & Hlen).
    { intros s' Hs'. apply Hok. right. exact Hs'. }
    exists images. split; [exact Hload|].
    rewrite Hlen, length_app. simpl. lia.
Qed.

Lemma drawChoice_thrown (cos sin : Q -> Q) (PI : Q) (this : ImageToVideoService)
  (time : Q) (l : list SlideTimeline) :
  Forall (fun e => image e <> None) l ->
  thrown (drawChoice cos sin PI this time (resolveFrame time l)) = None.
Proof.
  intro Himg. unfold resolveFrame.
  destruct (scanTimeline time l) as [choice|] eqn:E.
  - destruct (scanTimeline_choice _ _ _ E)
      as [(e & -> & Hin & _)|[(e & -> & Hin)|(e & next & out & -> & _)]]; simpl.
    + apply renderSlideWithKenBurns_thrown.
      exact (proj1 (Forall_forall _ _) Himg e Hin).
    + apply renderSlideWithKenBurns_thrown.
      exact (proj1 (Forall_forall _ _) Himg e Hin).
    + apply renderTransitionFrame_thrown.
  - destruct (nth_error l (List.length l - 1)) as [last|] eqn:El; [|reflexivity].
    simpl. apply nth_error_In in El.
    pose proof (proj1 (Forall_forall _ _) Himg last El) as Hlast.
    destruct (image last) eqn:Ei; [reflexivity|congruence].
Qed.

Lemma renderFrame_thrown (cos sin : Q -> Q) (PI : Q) (this : ImageToVideoService)
  (time : Q) (l : list SlideTimeline) :
  Forall (fun e => image e <> None) l ->
  thrown (renderFrame cos sin PI this time l) = None.
Proof.
  intro Himg. unfold renderFrame.
  repeat (apply andThen_thrown; [apply call_thrown|]).
  apply drawChoice_thrown. exact Himg.
Qed.

Lemma resolveFrame_oneInstruction (a b time : Q) (l : list SlideTimeline) :
  chained a l b -> l <> [] -> oneInstruction time l.
Proof.
  intros Hc Hne. unfold oneInstruction, resolveFrame.
  destruct (scanTimeline time l) as [choice|] eqn:E.
  - destruct (scanTimeline_choice _ _ _ E)
      as [(e & -> & Hin & _)|[(e & -> & Hin)|(e & next & out & -> & ? & ? & ? & _)]].
    + left. eauto.
    + exfalso. exact (scanTimeline_has_next _ _ _ _ _ Hc E).
    + right. left. exists e, next, out. auto.
  - right. right.
    destruct (nth_error l (List.length l - 1)) as [last|] eqn:El; [eauto|].
    apply nth_error_None in El. destruct l; [congruence|simpl in El; lia].
Qed.

Lemma renderFrame_rendersOneInstruction (cos sin : Q -> Q) (PI : Q)
  (this : ImageToVideoService) (time : Q) (l : list SlideTimeline) :
  oneInstruction time l -> rendersOneInstruction cos sin PI this time l.
Proof.
  unfold oneInstruction, rendersOneInstruction, renderFrame. cbv zeta.
  intros [(e & Hin & Hres)|[(e & next & out & Hin & Hnext & Hout & Hres)|(last & Hlast & Hres)]].
  - left. exists e. rewrite Hres. auto.
  - right. left. exists e, next, out. rewrite Hres. auto 6.
  - right. right. exists last. rewrite Hres. auto.
Qed.

(** A transition frame with both images draws one or two of them. *)
Lemma renderTransitionFrame_draws (cos sin : Q -> Q) (PI : Q)
  (from to : ImgSource) (progress : Q) (type : string) (w h : Q) :
  (1 <= List.length
          (drawnImages
             (calls (renderTransitionFrame cos sin PI (Some from) (Some to)
                       progress type w h))) <= 2)%nat.
Proof.
  unfold renderTransitionFrame.
  set (arm := switch type _ _).
  assert (Harm : thrown arm = None /\
                 (1 <= List.length (drawnImages (calls arm)) <= 2)%nat).
  { unfold arm.
    apply (switch_ind
             (fun arm => thrown arm = None /\
                         (1 <= List.length (drawnImages (calls arm)) <= 2)%nat)).
    - unfold transitionCases.
      repeat (apply Forall_cons; [simpl snd|]); try apply Forall_nil;
        unfold renderFade, renderDissolve, renderSlide, renderWipe, renderZoom,
          renderBlur, renderRotate, renderFlip;
        destruct (Qlt_bool progress (1 # 2));
        (split; [reflexivity|split; apply Nat.leb_le; reflexivity]).
    - destruct (Qlt_bool progress (1 # 2));
        (split; [reflexivity|split; apply Nat.leb_le; reflexivity]). }
  destruct Harm as [Ht Hd]. unfold andThen. simpl thrown. cbv iota.
  simpl calls. exact Hd.
Qed.

Lemma renderSlideWithKenBurns_draws (this : ImageToVideoService)
  (e : SlideTimeline) (time : Q) (img : ImgSource) :
  image e = Some img ->
  drawnImages (calls (renderSlideWithKenBurns this e time)) = [img].
Proof.
  intro Himg. unfold renderSlideWithKenBurns. rewrite Himg.
  destruct (kenBurns (slide e)); reflexivity.
Qed.

(** With its images loaded, a frame shows one image, or two during a
    transition. *)
Lemma renderFrame_draws (cos sin : Q -> Q) (PI : Q) (this : ImageToVideoService)
  (time : Q) (l : list SlideTimeline) :
  Forall (fun e => image e <> None) l ->
  oneInstruction time l ->
  (1 <= List.length (drawnImages (calls (renderFrame cos sin PI this time l))) <= 2)%nat.
Proof.
  intros Himg Hone.
  assert (Hin : forall e, In e l -> exists img, image e = Some img).
  { intros e He. pose proof (proj1 (Forall_forall _ _) Himg e He) as H.
    cbv beta in H. destruct (image e) as [img|]; [eauto|congruence]. }
  assert (Hframe : calls (renderFrame cos sin PI this time l) =
                   SetFillStyle (backgroundColor this)
                   :: FillRect 0 0 (width this) (height this)
                   :: calls (drawChoice cos sin PI this time (resolveFrame time l)))
    by reflexivity.
  rewrite Hframe. cbn [drawnImages].
  destruct Hone as [(e & He & ->)|[(e & next & out & He & Hnext & _ & ->)|(last & Hlast & ->)]];
    cbn [drawChoice].
  - destruct (Hin e He) as [img Hi].
    rewrite (renderSlideWithKenBurns_draws this e time img Hi). simpl. lia.
  - destruct (Hin e He) as [a Ha]. destruct (Hin next Hnext) as [b Hb].
    rewrite Ha, Hb. apply renderTransitionFrame_draws.
  - destruct (Hin last (nth_error_In _ _ Hlast)) as [img Hi].
    rewrite Hi. simpl. lia.
Qed.

(** C5. The frame resolver is total.  For a timeline built from a
    non-empty slide list with one loaded image per slide, every time value
    (in particular every one in [0, totalDuration], overshoot included)
    makes [renderFrame] paint the background and then carry out exactly
    one of the three renderings, the one the scan selects: the frame is
    that rendering's trace, it shows one image (two in a transition), and
    no exception is thrown; with positive durations the rendering is a
    steady display or a transition for times in [0, totalDuration) and the
    last-slide fallback from [totalDuration] on.  Hence every frame of a
    render loop created for a non-empty request whose images all load is
    painted without throwing. *)
Theorem renderFrame_total :
  (forall (cos sin : Q -> Q) (PI : Q) (this : ImageToVideoService)
          (slides : list ImageSlide) (images : list ImgSource) (time : Q),
      slides <> [] ->
      List.length images = List.length slides ->
      let b := buildTimeline slides images in
      let frame := renderFrame cos sin PI this time (timeline b) in
      thrown frame = None /\
      oneInstruction time (timeline b) /\
      rendersOneInstruction cos sin PI this time (timeline b) /\
      (1 <= List.length (drawnImages (calls frame)) <= 2)%nat /\
      resolveFrame time (timeline b) <> EmptyTimeline /\
      (forall e, resolveFrame time (timeline b) <> NoNextSlide e) /\
      (Forall validSlide slides ->
         (0 <= time < totalDuration b ->
            exists choice, scanTimeline time (timeline b) = Some choice /\
                           resolveFrame time (timeline b) = choice /\
                           forall last, choice <> PastAllSlides last) /\
         (totalDuration b <= time ->
            exists last, nth_error (timeline b) (List.length slides - 1) = Some last /\
                         resolveFrame time (timeline b) = PastAllSlides last /\
                         frame = call (SetFillStyle (backgroundColor this)) ;;
                                 call (FillRect 0 0 (width this) (height this)) ;;
                                 drawImageCover this (image last)))) /\
  (forall (cos sin : Q -> Q) (PI : Q) (load : string -> Completion ImgSource)
          (this : ImageToVideoService) (request : ImageToVideoRequest),
      slides request <> [] ->
      (forall s, In s (slides request) -> exists img, load (src s) = Normal img) ->
      exists loop,
        createRenderLoop cos sin PI load this request = Normal loop /\
        forall frameIndex : Z,
          thrown (loop_renderFrame loop frameIndex) = None /\
          (1 <= List.length (drawnImages (calls (loop_renderFrame loop frameIndex))) <= 2)%nat).
Proof.
  split.
  - intros cos sin PI this slides images time Hne Hlen b frame.
    pose proof (buildTimeline_chained slides images) as Hc. fold b in Hc.
    assert (Hne' : timeline b <> []).
    { intro Hnil. apply (f_equal (@List.length _)) in Hnil.
      unfold b in Hnil. rewrite buildTimeline_length in Hnil.
      destruct slides; [congruence|discriminate]. }
    assert (Himg : Forall (fun e => image e <> None) (timeline b)).
    { apply buildTimeline_loop_images. simpl. lia. }
    pose proof (resolveFrame_oneInstruction _ _ time _ Hc Hne') as Hone.
    split; [apply renderFrame_thrown; exact Himg|].
    split; [exact Hone|].
    split; [apply renderFrame_rendersOneInstruction; exact Hone|].
    split; [apply renderFrame_draws; assumption|].
    split; [|split].
    + destruct Hone as [(e & _ & ->)|[(e & n & o & _ & _ & _ & ->)|(l & _ & ->)]];
        discriminate.
    + intro e.
      destruct Hone as [(e' & _ & ->)|[(e' & n & o & _ & _ & _ & ->)|(l & _ & ->)]];
        discriminate.
    + intro Hvalid.
      pose proof (buildTimeline_valid slides images Hvalid) as Hv. fold b in Hv.
      split.
      * intro Ht.
        destruct (scanTimeline_inside _ _ _ _ Hc Hv Ht) as [choice Hscan].
        exists choice. split; [exact Hscan|].
        split; [unfold resolveFrame; rewrite Hscan; reflexivity|].
        intros last ->.
        destruct (scanTimeline_choice _ _ _ Hscan)
          as [(e & He & _)|[(e & He & _)|(e & n & o & He & _)]]; discriminate He.
      * intro Ht.
        pose proof (scanTimeline_past _ _ _ _ Hc Hv Ht) as Hscan.
        assert (Hl : List.length (timeline b) = List.length slides)
          by apply buildTimeline_length.
        destruct (nth_error (timeline b) (List.length slides - 1)) as [last|] eqn:El.
        -- exists last. split; [reflexivity|].
           assert (Hres : resolveFrame time (timeline b) = PastAllSlides last).
           { unfold resolveFrame. rewrite Hscan, Hl, El. reflexivity. }
           split; [exact Hres|].
           unfold frame, renderFrame. rewrite Hres. reflexivity.
        -- apply nth_error_None in El. rewrite Hl in El.
           destruct slides; [congruence|simpl in El; lia].
  - intros cos sin PI load this request Hne Hload.
    unfold createRenderLoop.
    destruct (loadImages_all load (slides request) [] Hload) as (images & Himgs & Hlen).
    rewrite Himgs. simpl. eexists. split; [reflexivity|].
    intro frameIndex. simpl.
    assert (Himg : Forall (fun e => image e <> None)
                     (timeline (buildTimeline (slides request) images))).
    { apply buildTimeline_loop_images. simpl in *. lia. }
    split; [apply renderFrame_thrown; exact Himg|].
    apply renderFrame_draws; [exact Himg|].
    apply (resolveFrame_oneInstruction 0 (totalDuration (buildTimeline (slides request) images))).
    + apply buildTimeline_chained.
    + intro Hnil. apply (f_equal (@List.length _)) in Hnil.
      rewrite buildTimeline_length in Hnil.
      destruct (slides request); [congruence|discriminate].
Qed.

(** ** Past the end of the timeline *)

(** C6, evaluated on the code.  For the one-slide Ken Burns timeline and
    [time = totalDuration = 3], [renderFrame] takes the last-slide
    fallback, which draws the image cover-fit with no pan/zoom transform at
    all; the steady display of that slide at the same time has progress 1
    and draws it scaled by [endScale = 2] and moved by [endPosition].  The
    two renderings differ.  The render loop's [renderFrame] reaches this
    state at frame index 90, the first index past its 90 frames. *)
Theorem past_end_drops_kenBurns :
  forall (cos sin : Q -> Q) (PI : Q),
    let b := buildTimeline kenBurnsSlides kenBurnsImages in
    let painted := renderFrame cos sin PI exampleService 3 (timeline b) in
    exists last,
      nth_error (timeline b) 0 = Some last /\
      totalDuration b == 3 /\
      resolveFrame 3 (timeline b) = PastAllSlides last /\
      painted =
        call (SetFillStyle "#000000") ;; call (FillRect 0 0 1920 1080) ;;
        drawImageCover exampleService (image last) /\
      existsb isTransform (calls painted) = false /\
      let steady :=
        call (SetFillStyle "#000000") ;; call (FillRect 0 0 1920 1080) ;;
        renderSlideWithKenBurns exampleService last 3 in
      kenBurnsProgress last 3 == 1 /\
      In (Scale 2 2) (calls steady) /\
      (exists x y, In (Translate x y) (calls steady) /\
                   x == 1920 / 2 + 10 /\ y == 1080 / 2 + 20) /\
      painted <> steady /\
      exists loop,
        createRenderLoop cos sin PI exampleLoadImage exampleService kenBurnsRequest
          = Normal loop /\
        loop_totalFrames loop = 90%Z /\
        loop_renderFrame loop 90%Z = painted.
Proof.
  intros cos sin PI b painted.
  eexists. split; [reflexivity|].
  split; [reflexivity|].
  split; [reflexivity|].
  split; [reflexivity|].
  split; [reflexivity|].
  split; [reflexivity|].
  split; [vm_compute; tauto|].
  split.
  - exists (1940 # 2), (1120 # 2). split; [vm_compute; tauto|].
    split; reflexivity.
  - split.
    + intro Heq. apply (f_equal (fun p => List.length (calls p))) in Heq.
      vm_compute in Heq. discriminate.
    + eexists. split; [reflexivity|]. split; reflexivity.
Qed.

(** ** The intervals partition the time axis *)

Lemma chained_intervalChain (l : list SlideTimeline) :
  forall a b,
    chained a l b -> Forall validEntry l ->
    intervalChain a (timelineIntervals l) b.
Proof.
  induction l as [|e l IH]; intros a b Hc Hv.
  - exact Hc.
  - inversion Hv as [|? ? He Hl]; subst.
    destruct (validEntry_order _ _ _ _ Hc He) as [Hlt _].
    destruct Hc as (Hs & Hend & Hfollow & Hc').
    specialize (IH _ _ Hc' Hl).
    destruct He as [_ Ho].
    unfold timelineIntervals in *. simpl. unfold entryIntervalList at 1.
    unfold entryEnd in IH.
    destruct (transitionOut e) as [out|]; simpl.
    + destruct (Hfollow out eq_refl) as (Hos & Hoe & _).
      specialize (Ho out eq_refl).
      repeat split; try assumption.
      * rewrite Hs. exact Hlt.
      * rewrite Hos, Hoe. lra.
    + repeat split; try assumption. rewrite Hs. exact Hlt.
Qed.

Lemma intervalChain_le (ivs : list (Q * Q)) :
  forall a b, intervalChain a ivs b -> a <= b.
Proof.
  induction ivs as [|iv rest IH]; intros a b Hc; simpl in Hc.
  - subst. lra.
  - destruct Hc as (Hs & Hlt & Hc'). specialize (IH _ _ Hc').
    rewrite <- Hs. lra.
Qed.

Lemma intervalChain_nth (ivs : list (Q * Q)) :
  forall a b k iv,
    intervalChain a ivs b -> nth_error ivs k = Some iv ->
    a <= fst iv /\ fst iv < snd iv /\ snd iv <= b /\
    intervalChain (snd iv) (skipn (S k) ivs) b.
Proof.
  induction ivs as [|iv0 rest IH]; intros a b k iv Hc Hnth.
  - destruct k; discriminate.
  - destruct Hc as (Hs & Hlt & Hc').
    destruct k as [|k]; simpl in Hnth.
    + injection Hnth as <-.
      pose proof (intervalChain_le _ _ _ Hc').
      repeat split; try assumption. rewrite Hs. lra.
    + destruct (IH _ _ _ _ Hc' Hnth) as (H1 & H2 & H3 & H4).
      repeat split; try assumption. rewrite <- Hs. lra.
Qed.

Lemma intervalChain_order (ivs : list (Q * Q)) (a b : Q) (k k' : nat)
  (iv iv' : Q * Q) :
  intervalChain a ivs b -> (k < k')%nat ->
  nth_error ivs k = Some iv -> nth_error ivs k' = Some iv' ->
  snd iv <= fst iv'.
Proof.
  intros Hc Hlt Hk Hk'.
  destruct (intervalChain_nth _ _ _ _ _ Hc Hk) as (_ & _ & _ & Htail).
  assert (Hnth : nth_error (skipn (S k) ivs) (k' - S k) = Some iv').
  { rewrite nth_error_skipn. replace (S k + (k' - S k))%nat with k' by lia. exact Hk'. }
  destruct (intervalChain_nth _ _ _ _ _ Htail Hnth) as (H & _). exact H.
Qed.

Lemma intervalChain_next (ivs : list (Q * Q)) (a b : Q) (k : nat)
  (iv iv' : Q * Q) :
  intervalChain a ivs b ->
  nth_error ivs k = Some iv -> nth_error ivs (S k) = Some iv' ->
  fst iv' = snd iv.
Proof.
  intros Hc Hk Hk'.
  destruct (intervalChain_nth _ _ _ _ _ Hc Hk) as (_ & _ & _ & Htail).
  assert (Hnth : nth_error (skipn (S k) ivs) 0 = Some iv').
  { rewrite nth_error_skipn. replace (S k + 0)%nat with (S k) by lia. exact Hk'. }
  destruct (skipn (S k) ivs) as [|iv0 rest]; [discriminate|].
  injection Hnth as ->. destruct Htail as (Hs & _). exact Hs.
Qed.

Lemma intervalChain_cover (ivs : list (Q * Q)) :
  forall a b t,
    intervalChain a ivs b -> a <= t < b ->
    exists k iv, nth_error ivs k = Some iv /\ within t iv.
Proof.
  induction ivs as [|iv0 rest IH]; intros a b t Hc Ht.
  - simpl in Hc. subst. lra.
  - destruct Hc as (Hs & Hlt & Hc').
    destruct (Qlt_le_dec t (snd iv0)) as [Hin|Hpast].
    + exists 0%nat, iv0. split; [reflexivity|]. unfold within. rewrite Hs. lra.
    + destruct (IH _ _ t Hc') as (k & iv & Hk & Hw); [lra|].
      exists (S k), iv. split; assumption.
Qed.

Lemma chained_consecutive (l : list SlideTimeline) (a b : Q) (i : nat)
  (e e' : SlideTimeline) :
  chained a l b -> Forall validEntry l ->
  nth_error l i = Some e -> nth_error l (S i) = Some e' ->
  startTime e' = entryEnd e.
Proof.
  intros Hc Hv Hi Hi'.
  destruct (chained_suffix _ _ _ _ _ Hc Hv Hi) as [_ (_ & _ & _ & Htail)].
  assert (Hnth : nth_error (skipn (S i) l) 0 = Some e').
  { rewrite nth_error_skipn. replace (S i + 0)%nat with (S i) by lia. exact Hi'. }
  destruct (skipn (S i) l) as [|e0 rest]; [discriminate|].
  injection Hnth as ->. destruct Htail as (Hs & _). exact Hs.
Qed.

Lemma chained_last (l : list SlideTimeline) (a b : Q) (e : SlideTimeline) :
  chained a l b -> Forall validEntry l ->
  nth_error l (List.length l - 1) = Some e ->
  b = entryEnd e.
Proof.
  intros Hc Hv Hlast.
  destruct (chained_suffix _ _ _ _ _ Hc Hv Hlast) as [_ (_ & _ & _ & Htail)].
  assert (Hlen : (List.length l - 1 < List.length l)%nat).
  { apply nth_error_Some. congruence. }
  rewrite skipn_all2 in Htail by lia.
  simpl in Htail. symmetry. exact Htail.
Qed.

(** C2. For slides with positive durations the intervals of the built
    timeline partition [0, totalDuration): every interval is non-empty, an
    entry's transition interval starts where its display interval ends,
    the next entry starts where the previous entry's last interval ends,
    the first entry starts at 0 and [totalDuration] is the end of the last
    entry's last interval; listed in order the intervals are strictly
    increasing, adjacent with no gap, pairwise disjoint, and every time in
    [0, totalDuration) lies in exactly one of them. *)
Theorem timeline_partition :
  forall (slides : list ImageSlide) (images : list ImgSource),
    Forall validSlide slides ->
    let b := buildTimeline slides images in
    let tl := timeline b in
    let ivs := timelineIntervals tl in
    (forall i e,
        nth_error tl i = Some e ->
        startTime e < endTime e /\
        forall out, transitionOut e = Some out ->
                    out_startTime out = endTime e /\
                    out_startTime out < out_endTime out) /\
    (forall i e e',
        nth_error tl i = Some e -> nth_error tl (S i) = Some e' ->
        startTime e' = entryEnd e) /\
    (forall e, nth_error tl 0 = Some e -> startTime e = 0) /\
    (forall e, nth_error tl (List.length tl - 1) = Some e ->
               totalDuration b = entryEnd e) /\
    (slides = [] -> totalDuration b = 0) /\
    (forall k iv,
        nth_error ivs k = Some iv ->
        0 <= fst iv /\ fst iv < snd iv /\ snd iv <= totalDuration b) /\
    (forall k iv iv',
        nth_error ivs k = Some iv -> nth_error ivs (S k) = Some iv' ->
        fst iv' = snd iv) /\
    (forall k k' iv iv',
        (k < k')%nat ->
        nth_error ivs k = Some iv -> nth_error ivs k' = Some iv' ->
        fst iv < fst iv' /\ snd iv <= fst iv' /\
        forall t, ~ (within t iv /\ within t iv')) /\
    (forall t,
        0 <= t < totalDuration b ->
        exists k iv,
          nth_error ivs k = Some iv /\ within t iv /\
          forall k' iv', nth_error ivs k' = Some iv' -> within t iv' -> k' = k).
Proof.
  intros slides images Hvalid b tl ivs.
  pose proof (buildTimeline_chained slides images) as Hc. fold b tl in Hc.
  pose proof (buildTimeline_valid slides images Hvalid) as Hv. fold b tl in Hv.
  pose proof (chained_intervalChain _ _ _ Hc Hv) as Hiv. fold ivs in Hiv.
  assert (Hdisjoint : forall k k' iv iv',
             (k < k')%nat ->
             nth_error ivs k = Some iv -> nth_error ivs k' = Some iv' ->
             fst iv < fst iv' /\ snd iv <= fst iv' /\
             forall t, ~ (within t iv /\ within t iv')).
  { intros k k' iv iv' Hlt Hk Hk'.
    pose proof (intervalChain_order _ _ _ _ _ _ _ Hiv Hlt Hk Hk') as Hord.
    destruct (intervalChain_nth _ _ _ _ _ Hiv Hk) as (_ & Hne & _).
    split; [lra|]. split; [exact Hord|].
    unfold within. intros t [H1 H2]. lra. }
  repeat apply conj.
  - intros i e Hnth.
    assert (He : validEntry e).
    { eapply Forall_forall; [exact Hv|]. eapply nth_error_In; eassumption. }
    destruct (chained_suffix _ _ _ _ _ Hc Hv Hnth) as [_ Hsuf].
    destruct (validEntry_order _ _ _ _ Hsuf He) as [Hlt _].
    destruct Hsuf as (_ & _ & Hfollow & _).
    split; [exact Hlt|].
    intros out Hout. destruct (Hfollow out Hout) as (Hos & Hoe & _).
    split; [exact Hos|]. rewrite Hos, Hoe.
    destruct He as [_ Ho]. specialize (Ho out Hout). lra.
  - intros i e e'. apply (chained_consecutive _ _ _ _ _ _ Hc Hv).
  - intros e Hnth. destruct tl as [|e0 rest]; [discriminate|].
    injection Hnth as ->. destruct Hc as (Hs & _). exact Hs.
  - intros e. apply (chained_last _ _ _ _ Hc Hv).
  - intros ->. reflexivity.
  - intros k iv Hk.
    destruct (intervalChain_nth _ _ _ _ _ Hiv Hk) as (H1 & H2 & H3 & _). auto.
  - intros k iv iv'. apply (intervalChain_next _ _ _ _ _ _ Hiv).
  - exact Hdisjoint.
  - intros t Ht.
    destruct (intervalChain_cover _ _ _ _ Hiv Ht) as (k & iv & Hk & Hw).
    exists k, iv. split; [exact Hk|]. split; [exact Hw|].
    intros k' iv' Hk' Hw'.
    destruct (Nat.lt_trichotomy k' k) as [Hlt|[Heq|Hgt]]; [|exact Heq|].
    + destruct (Hdisjoint _ _ _ _ Hlt Hk' Hk) as (_ & _ & Hno).
      exfalso. exact (Hno t (conj Hw' Hw)).
    + destruct (Hdisjoint _ _ _ _ Hgt Hk Hk') as (_ & _ & Hno).
      exfalso. exact (Hno t (conj Hw Hw')).
Qed.

(** ** The running cursor *)

Lemma spec_transitionLength_code (slides : list ImageSlide) (i : nat) (s : ImageSlide) :
  nth_error slides i = Some s ->
  spec_transitionLength slides i =
  match transitionToAdd i (List.length slides) s with
  | Some tr => transition_duration tr
  | None => 0
  end.
Proof.
  intro Hnth. unfold spec_transitionLength, transitionToAdd. rewrite Hnth.
  destruct (transition s) as [tr|].
  - destruct (Nat.ltb_spec (S i) (List.length slides));
      destruct (Z.ltb_spec (Z.of_nat i) (Z.of_nat (List.length slides) - 1));
      try lia; simpl; [|reflexivity].
    destruct (negb (String.eqb (transition_type tr) "none")); reflexivity.
  - destruct (Z.of_nat i <? Z.of_nat (List.length slides) - 1)%Z; reflexivity.
Qed.

Lemma spec_cursor_step (slides : list ImageSlide) (images : list ImgSource)
  (i : nat) (s : ImageSlide) (t : Q) :
  nth_error slides i = Some s ->
  t == spec_cursor slides i ->
  entryEnd (entryAt images (List.length slides) i s t) == spec_cursor slides (S i).
Proof.
  intros Hnth Ht. simpl spec_cursor.
  rewrite (spec_transitionLength_code _ _ _ Hnth).
  unfold spec_displayLength. rewrite Hnth.
  unfold entryEnd, entryAt. simpl.
  destruct (transitionToAdd i (List.length slides) s) as [tr|]; simpl; rewrite Ht; ring.
Qed.

Lemma buildTimeline_loop_cursor (slides : list ImageSlide) (images : list ImgSource)
  (rest : list ImageSlide) :
  forall (pre : list ImageSlide) (t : Q),
    slides = pre ++ rest ->
    t == spec_cursor slides (List.length pre) ->
    let b := buildTimeline_loop images (List.length slides) (List.length pre) rest t [] in
    (forall j s,
        nth_error rest j = Some s ->
        exists e,
          nth_error (timeline b) j = Some e /\
          e = entryAt images (List.length slides) (List.length pre + j) s (startTime e) /\
          startTime e == spec_cursor slides (List.length pre + j) /\
          entryEnd e == spec_cursor slides (S (List.length pre + j))) /\
    totalDuration b == spec_cursor slides (List.length pre + List.length rest).
Proof.
  induction rest as [|s rest IH]; intros pre t Hslides Ht; cbv zeta.
  - simpl. split.
    + intros j s Hnth. destruct j; discriminate.
    + rewrite Nat.add_0_r. exact Ht.
  - rewrite buildTimeline_loop_cons. cbv zeta. simpl timeline. simpl totalDuration.
    assert (Hnth : nth_error slides (List.length pre) = Some s).
    { rewrite Hslides, nth_error_app2 by lia. rewrite Nat.sub_diag. reflexivity. }
    pose proof (spec_cursor_step slides images _ _ _ Hnth Ht) as Hstep.
    destruct (IH (pre ++ [s]) (entryEnd (entryAt images (List.length slides) (List.length pre) s t)))
      as [IHn IHt].
    { rewrite <- app_assoc. exact Hslides. }
    { rewrite length_app, Nat.add_1_r. exact Hstep. }
    rewrite length_app, Nat.add_1_r in IHn, IHt.
    split.
    + intros j s' Hj. destruct j as [|j]; simpl in Hj.
      * injection Hj as <-. eexists. split; [reflexivity|].
        rewrite Nat.add_0_r. split; [reflexivity|]. split; [exact Ht|exact Hstep].
      * destruct (IHn j s' Hj) as (e & He & Hform & Hstart & Hend).
        exists e. split; [exact He|].
        replace (List.length pre + S j)%nat with (S (List.length pre) + j)%nat by lia.
        auto.
    + simpl List.length.
      replace (List.length pre + S (List.length rest))%nat
        with (S (List.length pre) + List.length rest)%nat by lia.
      exact IHt.
Qed.


(** ** Input validation *)

Lemma loadImages_throw (load : string -> Completion ImgSource)
  (rest : list ImageSlide) :
  forall acc err,
    loadImages load rest acc = Throw err ->
    exists s, In s rest /\ load (src s) = Throw err.
Proof.
  induction rest as [|s rest IH]; intros acc err H; simpl in H.
  - discriminate.
  - destruct (load (src s)) as [img|e] eqn:E; simpl in H.
    + destruct (IH _ _ H) as (s' & Hin & Hs'). exists s'. split; [right|]; assumption.
    + injection H as ->. exists s. split; [left; reflexivity|exact E].
Qed.

(** C3, as the code has it.  [buildTimeline] validates nothing: for every
    slide list it returns a timeline with one entry per slide (the empty
    list gives the empty timeline and [totalDuration = 0]).
    [createRenderLoop] and [generateFrames] succeed whenever every image
    loads, and when they fail it is with the error of an image that
    failed to load. *)
Theorem buildTimeline_accepts_every_input :
  (forall (slides : list ImageSlide) (images : list ImgSource),
      exists tl total,
        buildTimeline slides images = mkBuiltTimeline tl total /\
        List.length tl = List.length slides) /\
  (forall images, buildTimeline [] images = mkBuiltTimeline [] 0) /\
  (forall (cos sin : Q -> Q) (PI : Q) (load : string -> Completion ImgSource)
          (this : ImageToVideoService) (request : ImageToVideoRequest),
      ((forall s, In s (slides request) -> exists img, load (src s) = Normal img) ->
       (exists loop, createRenderLoop cos sin PI load this request = Normal loop) /\
       (exists generated, generateFrames cos sin PI load this request = Normal generated)) /\
      (forall err,
          createRenderLoop cos sin PI load this request = Throw err ->
          exists s, In s (slides request) /\ load (src s) = Throw err) /\
      (forall err,
          generateFrames cos sin PI load this request = Throw err ->
          exists s, In s (slides request) /\ load (src s) = Throw err)).
Proof.
  split; [|split].
  - intros slides images.
    exists (timeline (buildTimeline slides images)),
           (totalDuration (buildTimeline slides images)).
    split; [destruct (buildTimeline slides images); reflexivity|].
    apply buildTimeline_length.
  - reflexivity.
  - intros cos sin PI load this request. split; [|split].
    + intro Hload.
      destruct (loadImages_all load (slides request) [] Hload) as (images & Himgs & _).
      unfold createRenderLoop, generateFrames. rewrite Himgs. simpl.
      split; eexists; reflexivity.
    + intros err H. unfold createRenderLoop in H.
      destruct (loadImages load (slides request) []) as [images|e] eqn:E; simpl in H.
      * discriminate.
      * injection H as ->. exact (loadImages_throw _ _ _ _ E).
    + intros err H. unfold generateFrames in H.
      destruct (loadImages load (slides request) []) as [images|e] eqn:E; simpl in H.
      * discriminate.
      * injection H as ->. exact (loadImages_throw _ _ _ _ E).
Qed.

(** C3 as stated fails: the empty slide list and a slide of duration -1
    are both accepted; the render loop is created, with 0 frames in the
    first case and a negative frame count in the second. *)
Lemma invalid_input_not_rejected :
  (invalidInput (slides emptyRequest) /\
   buildTimeline (slides emptyRequest) [] = mkBuiltTimeline [] 0 /\
   exists loop,
     createRenderLoop (fun _ => 0) (fun _ => 0) 0 exampleLoadImage
       exampleService emptyRequest = Normal loop /\
     loop_totalDuration loop = 0 /\ loop_totalFrames loop = 0%Z) /\
  (invalidInput (slides negativeRequest) /\
   exists loop,
     createRenderLoop (fun _ => 0) (fun _ => 0) 0 exampleLoadImage
       exampleService negativeRequest = Normal loop /\
     loop_totalDuration loop == -1 /\ loop_totalFrames loop = (-30)%Z) /\
  ~ rejectsInvalidInput.
Proof.
  split; [|split].
  - split; [left; reflexivity|]. split; [reflexivity|].
    eexists. split; [reflexivity|]. split; reflexivity.
  - split.
    + right. constructor. simpl. discriminate.
    + eexists. split; [reflexivity|]. split; reflexivity.
  - intro Hclaim.
    destruct (Hclaim (fun _ => 0) (fun _ => 0) 0 exampleLoadImage
                exampleService emptyRequest) as [[err Herr] _].
    + left. reflexivity.
    + discriminate.
Qed.

(** ** The theorems at concrete inputs *)

Lemma exampleSlides_valid : Forall validSlide exampleSlides.
Proof.
  repeat constructor; try (intros tr [= <-]; reflexivity); intros tr H; discriminate H.
Defined.

Lemma exampleLoadImage_ok (l : list ImageSlide) :
  forall s, In s l -> exists img, exampleLoadImage (src s) = Normal img.
Proof. intros s _. eexists. reflexivity. Defined.


Lemma timeline_partition_witness :
  let b := buildTimeline exampleSlides exampleImages in
  Forall validSlide exampleSlides /\
  0 <= 7 # 2 < totalDuration b /\
  exists k iv,
    nth_error (timelineIntervals (timeline b)) k = Some iv /\ within (7 # 2) iv /\
    forall k' iv',
      nth_error (timelineIntervals (timeline b)) k' = Some iv' ->
      within (7 # 2) iv' -> k' = k.
Proof.
  intro b.
  assert (Ht : 0 <= 7 # 2 < totalDuration b) by (split; [discriminate|reflexivity]).
  split; [exact exampleSlides_valid|]. split; [exact Ht|].
  destruct (timeline_partition exampleSlides exampleImages exampleSlides_valid)
    as (_ & _ & _ & _ & _ & _ & _ & _ & Hcover).
  exact (Hcover (7 # 2) Ht).
Defined.

Lemma buildTimeline_accepts_every_input_witness :
  (forall s, In s (slides negativeRequest) ->
             exists img, exampleLoadImage (src s) = Normal img) /\
  (exists loop,
      createRenderLoop (fun _ => 0) (fun _ => 0) 0 exampleLoadImage
        exampleService negativeRequest = Normal loop) /\
  (exists generated,
      generateFrames (fun _ => 0) (fun _ => 0) 0 exampleLoadImage
        exampleService negativeRequest = Normal generated).
Proof.
  split; [exact (exampleLoadImage_ok _)|].
  destruct buildTimeline_accepts_every_input as (_ & _ & Hentry).
  destruct (Hentry (fun _ => 0) (fun _ => 0) 0 exampleLoadImage
              exampleService negativeRequest) as (Hok & _).
  exact (Hok (exampleLoadImage_ok _)).
Defined.


Lemma renderFrame_total_witness :
  exampleSlides <> [] /\
  List.length exampleImages = List.length exampleSlides /\
  Forall validSlide exampleSlides /\
  11 <= 11 /\
  (let b := buildTimeline exampleSlides exampleImages in
   let frame := renderFrame (fun _ => 0) (fun _ => 0) 0 exampleService 11 (timeline b) in
   thrown frame = None /\
   oneInstruction 11 (timeline b) /\
   rendersOneInstruction (fun _ => 0) (fun _ => 0) 0 exampleService 11 (timeline b) /\
   (1 <= List.length (drawnImages (calls frame)) <= 2)%nat /\
   exists last,
     nth_error (timeline b) 2 = Some last /\
     resolveFrame 11 (timeline b) = PastAllSlides last /\
     frame = call (SetFillStyle (backgroundColor exampleService)) ;;
             call (FillRect 0 0 (width exampleService) (height exampleService)) ;;
             drawImageCover exampleService (image last)) /\
  exists loop,
    createRenderLoop (fun _ => 0) (fun _ => 0) 0 exampleLoadImage
      exampleService exampleRequest = Normal loop /\
    forall frameIndex : Z,
      thrown (loop_renderFrame loop frameIndex) = None /\
      (1 <= List.length (drawnImages (calls (loop_renderFrame loop frameIndex))) <= 2)%nat.
Proof.
  assert (Hne : exampleSlides <> []) by discriminate.
  assert (Hle : 11 <= 11) by discriminate.
  split; [exact Hne|]. split; [reflexivity|].
  split; [exact exampleSlides_valid|]. split; [exact Hle|].
  destruct renderFrame_total as [Hframe Hloop].
  split.
  - destruct (Hframe (fun _ => 0) (fun _ => 0) 0 exampleService exampleSlides
                exampleImages 11 Hne eq_refl)
      as (Hthrown & Hone & Hrenders & Hdraws & _ & _ & Hvalid).
    split; [exact Hthrown|]. split; [exact Hone|].
    split; [exact Hrenders|]. split; [exact Hdraws|].
    destruct (Hvalid exampleSlides_valid) as [_ Hpast].
    exact (Hpast Hle).
  - exact (Hloop (fun _ => 0) (fun _ => 0) 0 exampleLoadImage exampleService
             exampleRequest Hne (exampleLoadImage_ok _)).
Defined.

Lemma applyEasing_formulas_witness :
  (3 # 2 >= 1 /\ saturate (3 # 2) == 1) /\
  (saturate (1 # 4) < 1 # 2 /\
   applyEasing (1 # 4) "ease-in-out" == 4 * saturate (1 # 4) ^ 3) /\
  (1 # 2 <= saturate (3 # 4) /\
   applyEasing (3 # 4) "ease-in-out" == 1 - (-2 * saturate (3 # 4) + 2) ^ 3 / 2) /\
  (In "ease-out"%string ["linear"; "ease-in"; "ease-out"; "ease-in-out"]%string /\
   applyEasing 0 "ease-out" == 0 /\ applyEasing 1 "ease-out" == 1).
Proof.
  destruct applyEasing_formulas as (Hformulas & Hfixed & _).
  assert (H1 : 1 <= 3 # 2) by discriminate.
  assert (H2 : saturate (1 # 4) < 1 # 2) by reflexivity.
  assert (H3 : 1 # 2 <= saturate (3 # 4)) by discriminate.
  assert (H4 : In "ease-out"%string ["linear"; "ease-in"; "ease-out"; "ease-in-out"]%string)
    by (right; right; left; reflexivity).
  split; [split; [exact H1|]|split; [split; [exact H2|]|split; [split; [exact H3|]|split; [exact H4|]]]].
  - destruct (Hformulas (3 # 2)) as (_ & _ & Hhigh & _). exact (Hhigh H1).
  - destruct (Hformulas (1 # 4)) as (_ & _ & _ & _ & _ & _ & _ & Hlow & _). exact (Hlow H2).
  - destruct (Hformulas (3 # 4)) as (_ & _ & _ & _ & _ & _ & _ & _ & Hup). exact (Hup H3).
  - exact (Hfixed "ease-out"%string H4).
Defined.

Lemma renderTransitionFrame_hard_cut_witness :
  let img1 := mkImgSource "image1.jpg" 1920 1080 in
  let img2 := mkImgSource "image2.jpg" 1920 1080 in
  ~ In "sparkle"%string TransitionType_values /\
  1 # 4 < 1 # 2 /\
  renderTransitionFrame (fun _ => 0) (fun _ => 0) 0 (Some img1) (Some img2)
    (1 # 4) "sparkle" 1920 1080
  = call (ClearRect 0 0 1920 1080) ;; drawImage (Some img1) 1920 1080 1 /\
  renderTransitionFrame (fun _ => 0) (fun _ => 0) 0 (Some img1) (Some img2)
    (1 # 4) "sparkle" 1920 1080
  = renderTransitionFrame (fun _ => 0) (fun _ => 0) 0 (Some img1) (Some img2)
      (1 # 4) "none" 1920 1080.
Proof.
  intros img1 img2.
  assert (Hunknown : ~ In "sparkle"%string TransitionType_values).
  { simpl. intro H.
    repeat (destruct H as [H|H]; [discriminate H|]). exact H. }
  assert (Hlt : 1 # 4 < 1 # 2) by reflexivity.
  split; [exact Hunknown|]. split; [exact Hlt|].
  destruct (renderTransitionFrame_hard_cut (fun _ => 0) (fun _ => 0) 0
              (Some img1) (Some img2) (1 # 4) "sparkle" 1920 1080
              (or_intror Hunknown))
    as (Hfrom & _ & Hcut & _ & _ & _ & Hnone).
  split; [|exact Hnone].
  rewrite Hcut. rewrite (Hfrom Hlt). reflexivity.
Defined.

Lemma transition_has_next_entry_witness :
  let tl := timeline (buildTimeline exampleSlides exampleImages) in
  exists e out,
    nth_error tl 1 = Some e /\ transitionOut e = Some out /\
    (2 < List.length exampleSlides)%nat /\
    exists next, nth_error tl 2 = Some next.
Proof.
  intro tl.
  destruct (transition_has_next_entry exampleSlides exampleImages) as [Hnext _].
  fold tl in Hnext.
  destruct (nth_error tl 1) as [e|] eqn:He; [|discriminate He].
  destruct (transitionOut e) as [out|] eqn:Hout;
    [|vm_compute in He; injection He as <-; discriminate Hout].
  exists e, out. split; [reflexivity|]. split; [exact Hout|].
  exact (Hnext 1%nat e out He Hout).
Defined.

(** * Further properties *)

(** ** Easing *)

Lemma Qmult_le_mono (a b c d : Q) : 0 <= a -> a <= b -> 0 <= c -> c <= d -> a * c <= b * d.
Proof.
  intros Ha Hab Hc Hcd.
  assert (H1 : 0 <= (b - a) * c) by (apply Qmult_le_0_compat; lra).
  assert (H2 : 0 <= b * (d - c)) by (apply Qmult_le_0_compat; lra).
  lra.
Qed.

Lemma cube_mono (p q : Q) : 0 <= p -> p <= q -> p * p * p <= q * q * q.
Proof.
  intros Hp Hpq.
  assert (H2 : p * p <= q * q) by (apply Qmult_le_mono; lra).
  assert (H0 : 0 <= p * p) by (apply Qmult_le_0_compat; lra).
  apply Qmult_le_mono; lra.
Qed.

Lemma clamp_mono (t t' : Q) : t <= t' -> Qmax 0 (Qmin 1 t) <= Qmax 0 (Qmin 1 t').
Proof.
  intro H. apply Q.max_le_compat_l. apply Q.min_le_compat_l. exact H.
Qed.

Lemma clamp_bounds (t : Q) : 0 <= Qmax 0 (Qmin 1 t) <= 1.
Proof.
  split; [apply Q.le_max_l|].
  apply Q.max_lub; [discriminate|apply Q.le_min_l].
Qed.

Lemma easeInOut_low (c : Q) : 0 <= c -> c < 1#2 -> 0 <= 4 * c * c * c <= 1 # 2.
Proof.
  intros H0 H1.
  pose proof (cube_mono 0 c (Qle_refl 0) H0).
  pose proof (cube_mono c (1#2) H0 (Qlt_le_weak _ _ H1)).
  split; lra.
Qed.

Lemma easeInOut_high (c : Q) : 1#2 <= c -> c <= 1 -> 1 # 2 <= 1 - (-2 * c + 2) ^ 3 / 2 <= 1.
Proof.
  intros H0 H1.
  assert (Hu0 : 0 <= -2 * c + 2) by lra.
  assert (Hu1 : -2 * c + 2 <= 1) by lra.
  pose proof (cube_mono 0 _ (Qle_refl 0) Hu0) as Ha.
  pose proof (cube_mono _ 1 Hu0 Hu1) as Hb.
  assert (E : (-2 * c + 2) ^ 3 / 2 == (1#2) * ((-2 * c + 2) * (-2 * c + 2) * (-2 * c + 2))).
  { simpl Qpower. field. }
  rewrite E. split; lra.
Qed.

Lemma switch_rel {A B : Type} (R : A -> B -> Prop) (scrutinee : string)
  (cases : list (string * A)) (cases' : list (string * B))
  (default : A) (default' : B) :
  Forall2 (fun c c' => fst c = fst c' /\ R (snd c) (snd c')) cases cases' ->
  R default default' ->
  R (switch scrutinee cases default) (switch scrutinee cases' default').
Proof.
  intros Hcases Hdefault.
  induction Hcases as [|[l a] [l' b] cs cs' [Hl Hab] _ IH]; simpl.
  - exact Hdefault.
  - simpl in Hl, Hab. subst l'.
    destruct (String.eqb scrutinee l); [exact Hab|exact IH].
Qed.

(** X1. Whatever the input and whatever the easing string, the eased
    progress lies in [0, 1]. *)
Theorem applyEasing_range :
  forall (t : Q) (easing : string), 0 <= applyEasing t easing <= 1.
Proof.
  intros t easing. unfold applyEasing.
  destruct (clamp_bounds t) as [H0 H1].
  set (c := Qmax 0 (Qmin 1 t)) in *. clearbody c.
  apply switch_ind; [|split; assumption].
  repeat (apply Forall_cons; [simpl snd|]); try apply Forall_nil.
  - split; assumption.
  - pose proof (cube_mono 0 c (Qle_refl 0) H0).
    pose proof (cube_mono c 1 H0 H1). split; lra.
  - assert (Hu0 : 0 <= 1 - c) by lra. assert (Hu1 : 1 - c <= 1) by lra.
    pose proof (cube_mono 0 _ (Qle_refl 0) Hu0).
    pose proof (cube_mono _ 1 Hu0 Hu1).
    simpl Qpower. split; lra.
  - destruct (Qlt_bool c (1 # 2)) eqn:E.
    + apply Qlt_bool_iff in E. destruct (easeInOut_low c H0 E). split; lra.
    + apply Qlt_bool_false_iff in E. destruct (easeInOut_high c E H1) as [Hlo Hhi].
      split; [apply Qle_trans with (1 # 2); [discriminate|exact Hlo]|exact Hhi].
Qed.

(** X2. Every easing is non-decreasing: a later raw progress never gives
    an earlier eased progress, across the clamp and across the midpoint of
    ease-in-out. *)
Theorem applyEasing_monotone :
  forall (t t' : Q) (easing : string),
    t <= t' -> applyEasing t easing <= applyEasing t' easing.
Proof.
  intros t t' easing Ht. unfold applyEasing.
  pose proof (clamp_mono t t' Ht) as Hc.
  destruct (clamp_bounds t) as [H0 H1].
  destruct (clamp_bounds t') as [H0' H1'].
  set (c := Qmax 0 (Qmin 1 t)) in *. clearbody c.
  set (c' := Qmax 0 (Qmin 1 t')) in *. clearbody c'.
  apply (switch_rel Qle); [|exact Hc].
  repeat (apply Forall2_cons; [split; [reflexivity|simpl snd]|]); try apply Forall2_nil.
  - exact Hc.
  - apply cube_mono; assumption.
  - assert (Hu : (1 - c') * (1 - c') * (1 - c') <= (1 - c) * (1 - c) * (1 - c))
      by (apply cube_mono; lra).
    simpl Qpower. lra.
  - destruct (Qlt_bool c (1 # 2)) eqn:E; destruct (Qlt_bool c' (1 # 2)) eqn:E'.
    + pose proof (cube_mono c c' H0 Hc). lra.
    + apply Qlt_bool_iff in E. apply Qlt_bool_false_iff in E'.
      destruct (easeInOut_low c H0 E) as [_ Hlow].
      destruct (easeInOut_high c' E' H1') as [Hhigh _].
      exact (Qle_trans _ _ _ Hlow Hhigh).
    + apply Qlt_bool_false_iff in E. apply Qlt_bool_iff in E'. lra.
    + apply Qlt_bool_false_iff in E. apply Qlt_bool_false_iff in E'.
      assert (Hu : (-2 * c' + 2) * (-2 * c' + 2) * (-2 * c' + 2)
                   <= (-2 * c + 2) * (-2 * c + 2) * (-2 * c + 2))
        by (apply cube_mono; lra).
      assert (E1 : forall u, (-2 * u + 2) ^ 3 / 2
                             == (1 # 2) * ((-2 * u + 2) * (-2 * u + 2) * (-2 * u + 2))).
      { intro u. simpl Qpower. field. }
      rewrite (E1 c), (E1 c'). lra.
Qed.

Lemma clamp_mirror (t : Q) : Qmax 0 (Qmin 1 (1 - t)) == 1 - Qmax 0 (Qmin 1 t).
Proof.
  rewrite !clamp_saturate. unfold saturate.
  destruct (Qlt_le_dec (1 - t) 0), (Qlt_le_dec 1 (1 - t)),
           (Qlt_le_dec t 0), (Qlt_le_dec 1 t); lra.
Qed.

(** X3. The easings mirror one another under [t |-> 1 - t]: linear and
    ease-in-out are their own mirror images, ease-out is the mirror image
    of ease-in. *)
Theorem applyEasing_mirror :
  forall t : Q,
    applyEasing (1 - t) "linear" == 1 - applyEasing t "linear" /\
    applyEasing (1 - t) "ease-out" == 1 - applyEasing t "ease-in" /\
    applyEasing (1 - t) "ease-in" == 1 - applyEasing t "ease-out" /\
    applyEasing (1 - t) "ease-in-out" == 1 - applyEasing t "ease-in-out".
Proof.
  intro t. unfold applyEasing. simpl switch.
  pose proof (clamp_mirror t) as Hm.
  destruct (clamp_bounds t) as [H0 H1].
  set (c := Qmax 0 (Qmin 1 t)) in *. clearbody c.
  set (c' := Qmax 0 (Qmin 1 (1 - t))) in *. clearbody c'.
  split; [exact Hm|]. split; [|split].
  - rewrite Hm. simpl Qpower. ring.
  - rewrite Hm. simpl Qpower. ring.
  - destruct (Qlt_bool c (1 # 2)) eqn:E; destruct (Qlt_bool c' (1 # 2)) eqn:E'.
    + apply Qlt_bool_iff in E. apply Qlt_bool_iff in E'. lra.
    + rewrite Hm. simpl Qpower. field.
    + rewrite Hm. simpl Qpower. field.
    + apply Qlt_bool_false_iff in E. apply Qlt_bool_false_iff in E'.
      assert (Hc : c == 1 # 2) by lra.
      rewrite Hm, Hc. reflexivity.
Qed.

(** X4. An easing string outside the four known kinds takes the [default]
    arm: the result is the clamped input, exactly as for ["linear"]. *)
Theorem applyEasing_unknown_is_linear :
  forall (t : Q) (easing : string),
    ~ In easing EasingType_values ->
    applyEasing t easing = applyEasing t "linear" /\
    applyEasing t easing == saturate t.
Proof.
  intros t easing Hunknown.
  assert (E : applyEasing t easing = Qmax 0 (Qmin 1 t)).
  { unfold applyEasing. apply switch_default. exact Hunknown. }
  split; [rewrite E; reflexivity|].
  rewrite E. apply clamp_saturate.
Qed.

(** ** Effect renderer *)

Lemma in_switch_cases {A : Type} (P : string -> A -> Prop) (scrutinee : string)
  (cases : list (string * A)) (default : A) :
  Forall (fun c => P (fst c) (snd c)) cases ->
  (~ In scrutinee (map fst cases) -> P scrutinee default) ->
  P scrutinee (switch scrutinee cases default).
Proof.
  intros Hcases.
  induction Hcases as [|[label arm] others Harm _ IH]; simpl; intro Hdefault.
  - apply Hdefault. tauto.
  - destruct (String.eqb_spec scrutinee label) as [->|Hne].
    + exact Harm.
    + apply IH. intro Hnot. apply Hdefault. intros [Heq|Hin]; [congruence|tauto].
Qed.

Lemma renderTransitionFrame_trace :
  forall (cos sin : Q -> Q) (PI : Q) (from to : option ImgSource)
         (progress : Q) (type : string) (w h : Q),
    let painted := renderTransitionFrame cos sin PI from to progress type w h in
    thrown painted = None /\
    (exists rest, calls painted = ClearRect 0 0 w h :: rest /\ stateNeutral rest).
Proof.
  intros cos sin PI from to progress type w h painted.
  split; [apply renderTransitionFrame_thrown|].
  subst painted. unfold renderTransitionFrame.
  set (arm := switch type _ _).
  assert (Harm : thrown arm = None /\ stateNeutral (calls arm)).
  { unfold arm. apply switch_ind.
    - unfold transitionCases.
      repeat (apply Forall_cons; [simpl snd|]); try apply Forall_nil;
        unfold renderFade, renderDissolve, renderSlide, renderWipe, renderZoom,
          renderBlur, renderRotate, renderFlip;
        destruct (Qlt_bool progress (1 # 2)); destruct from, to; split; reflexivity.
    - destruct (Qlt_bool progress (1 # 2)); destruct from, to; split; reflexivity. }
  destruct Harm as [Ht Hs].
  exists (calls arm). split; [|exact Hs].
  unfold andThen. simpl. reflexivity.
Qed.

(** X6. Whatever the kind, the progress and the images,
    [renderTransitionFrame] does not throw, clears the canvas first, and
    leaves the drawing state as it found it: every [save] is restored and
    opacity, filter, transform and clip are only changed inside a
    [save]/[restore] pair. *)
Theorem renderTransitionFrame_state_neutral :
  forall (cos sin : Q -> Q) (PI : Q) (from to : option ImgSource)
         (progress : Q) (type : string) (w h : Q),
    let painted := renderTransitionFrame cos sin PI from to progress type w h in
    thrown painted = None /\
    (exists rest, calls painted = ClearRect 0 0 w h :: rest /\ stateNeutral rest).
Proof.
  intros cos sin PI from to progress type w h painted.
  destruct (renderTransitionFrame_trace cos sin PI from to progress type w h)
    as [Hthrown (rest & Hcalls & Hneutral)].
  split; [exact Hthrown|]. exists rest. split; [exact Hcalls|exact Hneutral].
Qed.

(** X7. Which images a transition frame draws, and in which order: the
    blending kinds draw the outgoing image and then the incoming one,
    zoom-out draws the incoming one first, and every other kind (none,
    blur, rotate, flip and unknown kinds) draws a single image, the
    outgoing one before the midpoint and the incoming one from it on.  A
    missing image is skipped. *)
Theorem renderTransitionFrame_drawn_images :
  forall (cos sin : Q -> Q) (PI : Q) (from to : option ImgSource)
         (progress : Q) (type : string) (w h : Q),
    drawnImages (calls (renderTransitionFrame cos sin PI from to progress type w h))
    = drawnByKind from to progress type.
Proof.
  intros cos sin PI from to progress type w h.
  unfold renderTransitionFrame.
  set (arm := switch type _ _).
  assert (Harm : thrown arm = None /\
                 drawnImages (calls arm) = drawnByKind from to progress type).
  { unfold arm.
    apply (in_switch_cases
             (fun label arm => thrown arm = None /\
                drawnImages (calls arm) = drawnByKind from to progress label)).
    - unfold transitionCases, drawnByKind.
      repeat (apply Forall_cons; [simpl fst; simpl snd|]); try apply Forall_nil;
        unfold renderFade, renderDissolve, renderSlide, renderWipe, renderZoom,
          renderBlur, renderRotate, renderFlip;
        destruct (Qlt_bool progress (1 # 2)); destruct from, to; split; reflexivity.
    - intro Hnot. unfold drawnByKind.
      assert (E1 : existsb (String.eqb type) blendingKinds = false).
      { destruct (existsb (String.eqb type) blendingKinds) eqn:E; [|reflexivity].
        exfalso. apply Hnot. apply existsb_exists in E.
        destruct E as (k & Hin & Heq). apply String.eqb_eq in Heq. subst k.
        simpl in Hin. simpl. tauto. }
      assert (E2 : String.eqb type "zoom-out" = false).
      { apply String.eqb_neq. intros ->. apply Hnot. simpl. tauto. }
      rewrite E1, E2.
      destruct (Qlt_bool progress (1 # 2)); destruct from, to; split; reflexivity. }
  destruct Harm as [_ Hd]. unfold andThen. simpl. exact Hd.
Qed.

Lemma coverScale_facts (w h iw ih : Q) :
  0 < iw -> 0 < ih ->
  let scale := Qmax (w / iw) (h / ih) in
  w <= iw * scale /\ h <= ih * scale /\ (iw * scale == w \/ ih * scale == h).
Proof.
  intros Hiw Hih scale.
  assert (Ea : iw * (w / iw) == w) by (field; lra).
  assert (Eb : ih * (h / ih) == h) by (field; lra).
  assert (Ha : w / iw <= scale) by apply Q.le_max_l.
  assert (Hb : h / ih <= scale) by apply Q.le_max_r.
  assert (Hwa : iw * (w / iw) <= iw * scale).
  { apply Qmult_le_l; assumption. }
  assert (Hhb : ih * (h / ih) <= ih * scale).
  { apply Qmult_le_l; assumption. }
  split; [lra|]. split; [lra|].
  destruct (Q.max_dec (w / iw) (h / ih)) as [E|E]; fold scale in E.
  - left. rewrite E. exact Ea.
  - right. rewrite E. exact Eb.
Qed.

(** X5. Cover fit.  For an image with positive dimensions [drawImage]
    draws one rectangle between [save] and [restore]; it is centred on the
    canvas, covers it entirely, keeps the image's aspect ratio and matches
    the canvas exactly in width or in height.  [drawImageCover] draws the
    same rectangle. *)
Theorem drawImage_cover_fit :
  forall (this : ImageToVideoService) (img : ImgSource) (w h opacity : Q),
    0 < img_width img -> 0 < img_height img ->
    exists x y sw sh,
      calls (drawImage (Some img) w h opacity) =
        [Save; SetGlobalAlpha opacity; DrawImage img x y sw sh; Restore] /\
      (width this = w -> height this = h ->
       drawImageCover this (Some img) = call (DrawImage img x y sw sh)) /\
      x <= 0 /\ y <= 0 /\ w <= x + sw /\ h <= y + sh /\
      x + sw / 2 == w / 2 /\ y + sh / 2 == h / 2 /\
      sw * img_height img == sh * img_width img /\
      (sw == w \/ sh == h).
Proof.
  intros this img w h opacity Hiw Hih.
  destruct (coverScale_facts w h _ _ Hiw Hih) as (Hw & Hh & Hfit).
  set (scale := Qmax (w / img_width img) (h / img_height img)) in *.
  exists ((w - img_width img * scale) / 2), ((h - img_height img * scale) / 2),
         (img_width img * scale), (img_height img * scale).
  split; [reflexivity|].
  split; [intros <- <-; reflexivity|].
  assert (Hratio : img_width img * scale * img_height img
                   == img_height img * scale * img_width img) by ring.
  clearbody scale.
  set (sw := img_width img * scale) in *. clearbody sw.
  set (sh := img_height img * scale) in *. clearbody sh.
  assert (Ex : (w - sw) / 2 == (1 # 2) * w - (1 # 2) * sw) by field.
  assert (Ey : (h - sh) / 2 == (1 # 2) * h - (1 # 2) * sh) by field.
  assert (Esw : sw / 2 == (1 # 2) * sw) by field.
  assert (Esh : sh / 2 == (1 # 2) * sh) by field.
  assert (Ew : w / 2 == (1 # 2) * w) by field.
  assert (Eh : h / 2 == (1 # 2) * h) by field.
  rewrite Ex, Ey, Esw, Esh, Ew, Eh.
  repeat split; try lra; assumption.
Qed.


Ltac trace_member H :=
  unfold andThen, call, drawImage, skip in H;
  cbn [calls thrown app In] in H;
  repeat (destruct H as [H|H]; [try discriminate H|]);
  try contradiction.

Lemma Scale_inj (a b c d : Q) : Scale a b = Scale c d -> a = c /\ b = d.
Proof. intros [= -> ->]. split; reflexivity. Qed.

Lemma Rect_inj (a b c d a' b' c' d' : Q) :
  Rect a b c d = Rect a' b' c' d' -> a = a' /\ b = b' /\ c = c' /\ d = d'.
Proof. intros [= -> -> -> ->]. repeat split; reflexivity. Qed.

Lemma FilterBlur_inj (a b : Q) :
  SetFilter (FilterBlur a) = SetFilter (FilterBlur b) -> a = b.
Proof. intros [= ->]. reflexivity. Qed.

Lemma number_or_pos (a b : Q) : 0 <= a -> 0 < b -> 0 < number_or a b.
Proof.
  intros Ha Hb. unfold number_or.
  destruct (Qeq_bool a 0) eqn:E; [exact Hb|].
  apply Qeq_bool_neq in E.
  destruct (Qlt_le_dec 0 a) as [Hlt|Hle]; [exact Hlt|].
  exfalso. apply E. lra.
Qed.

Lemma number_or_le (a b c : Q) : a <= c -> b <= c -> number_or a b <= c.
Proof.
  intros Ha Hb. unfold number_or. destruct (Qeq_bool a 0); assumption.
Qed.

(** X11. The flip never scales by zero: the horizontal factor is 1 and the
    vertical factor is positive for every progress, and at most 1 for
    progress in [0, 1]. *)
Theorem renderFlip_scale_positive :
  forall (from to : option ImgSource) (progress w h sx sy : Q),
    In (Scale sx sy) (calls (renderFlip from to progress w h)) ->
    sx = 1 /\ 0 < sy /\ (0 <= progress <= 1 -> sy <= 1).
Proof.
  intros from to progress w h sx sy Hin.
  unfold renderFlip in Hin.
  destruct (Qlt_bool progress (1 # 2)) eqn:E.
  - apply Qlt_bool_iff in E.
    assert (Habs : Qabs (1 - progress * 2) == 1 - progress * 2).
    { apply Qabs_pos. lra. }
    destruct from, to; trace_member Hin;
      apply Scale_inj in Hin; destruct Hin as [<- <-];
      (split; [reflexivity|]; split;
       [apply number_or_pos; [apply Qabs_nonneg|reflexivity]
       |intro Hp; apply number_or_le; [rewrite Habs; lra|discriminate]]).
  - apply Qlt_bool_false_iff in E.
    destruct from, to; trace_member Hin;
      apply Scale_inj in Hin; destruct Hin as [<- <-];
      (split; [reflexivity|]; split;
       [apply number_or_pos; [lra|reflexivity]
       |intro Hp; apply number_or_le; [lra|discriminate]]).
Qed.

(** X10. For progress in [0, 1] the blur radius lies in [0, 20]; it is 0 at
    both ends of the transition and 20 at the midpoint. *)
Theorem renderBlur_radius_bounds :
  forall (from to : option ImgSource) (progress w h px : Q),
    In (SetFilter (FilterBlur px)) (calls (renderBlur from to progress w h)) ->
    0 <= progress <= 1 ->
    0 <= px <= 20 /\
    (progress == 0 \/ progress == 1 -> px == 0) /\
    (progress == 1 # 2 -> px == 20).
Proof.
  intros from to progress w h px Hin Hp.
  unfold renderBlur in Hin.
  destruct (Qlt_bool progress (1 # 2)) eqn:E.
  - apply Qlt_bool_iff in E.
    assert (Hpx : progress / (1 # 2) * 20 == 40 * progress) by field.
    destruct from, to; trace_member Hin; apply FilterBlur_inj in Hin; subst px;
      rewrite Hpx; repeat split; try lra; intros [H|H]; lra.
  - apply Qlt_bool_false_iff in E.
    assert (Hpx : (1 - progress) / (1 # 2) * 20 == 40 - 40 * progress) by field.
    destruct from, to; trace_member Hin; apply FilterBlur_inj in Hin; subst px;
      rewrite Hpx; repeat split; try lra; intros [H|H]; lra.
Qed.

(** X9. In a wipe with progress in [0, 1] the clip rectangle lies inside the
    canvas, touches the edge the wipe is named after (left and up start at
    the origin, right and down end at the far edge), and covers the
    fraction [progress] of the canvas area. *)
Theorem renderWipe_clip_rectangle :
  forall (from to : option ImgSource) (progress w h : Q) (direction : Direction)
         (x y rw rh : Q),
    In (Rect x y rw rh) (calls (renderWipe from to progress w h direction)) ->
    0 <= progress <= 1 -> 0 <= w -> 0 <= h ->
    0 <= x /\ 0 <= y /\ 0 <= rw /\ 0 <= rh /\
    x + rw <= w /\ y + rh <= h /\
    rw * rh == progress * (w * h) /\
    match direction with
    | dir_left => x == 0
    | dir_right => x + rw == w
    | dir_up => y == 0
    | dir_down => y + rh == h
    end.
Proof.
  intros from to progress w h direction x y rw rh Hin Hp Hw Hh.
  assert (Hwp : 0 <= w * progress) by (apply Qmult_le_0_compat; lra).
  assert (Hhp : 0 <= h * progress) by (apply Qmult_le_0_compat; lra).
  assert (Hwq : 0 <= w * (1 - progress)) by (apply Qmult_le_0_compat; lra).
  assert (Hhq : 0 <= h * (1 - progress)) by (apply Qmult_le_0_compat; lra).
  unfold renderWipe in Hin.
  destruct direction; destruct from, to; trace_member Hin;
    apply Rect_inj in Hin; destruct Hin as (<- & <- & <- & <-);
    repeat split; try lra; ring.
Qed.

(** X8. In a slide transition the two images are translated so that the
    incoming one sits exactly one canvas width (or height) from the
    outgoing one, on the side it enters from; at progress 0 the outgoing
    image is in place and at progress 1 the incoming one is. *)
Theorem renderSlide_images_adjacent :
  forall (from to : option ImgSource) (progress w h : Q) (direction : Direction),
    exists fromX fromY toX toY,
      translations (calls (renderSlide from to progress w h direction)) =
        [(fromX, fromY); (toX, toY)] /\
      toX - fromX == fst (slideStep direction w h) /\
      toY - fromY == snd (slideStep direction w h) /\
      (progress == 0 -> fromX == 0 /\ fromY == 0) /\
      (progress == 1 -> toX == 0 /\ toY == 0).
Proof.
  intros from to progress w h direction.
  destruct direction; unfold renderSlide; cbv iota beta;
    do 4 eexists;
    (split; [destruct from, to; reflexivity|]);
    cbn [slideStep fst snd];
    (split; [ring|]); (split; [ring|]);
    split; intro Hp; split; rewrite ?Hp; ring.
Qed.

(** ** Frames of a render job *)

Lemma nth_error_frameIndices (n : Z) (k : nat) (z : Z) :
  nth_error (frameIndices n) k = Some z ->
  z = Z.of_nat k /\ (0 <= z < n)%Z.
Proof.
  unfold frameIndices. intro H.
  rewrite nth_error_map in H.
  destruct (nth_error (seq 0 (Z.to_nat n)) k) as [m|] eqn:E; [|discriminate].
  injection H as <-.
  assert (Hk : (k < List.length (seq 0 (Z.to_nat n)))%nat).
  { apply nth_error_Some. congruence. }
  rewrite length_seq in Hk.
  rewrite (nth_error_nth' _ 0%nat) in E by (rewrite length_seq; exact Hk).
  rewrite seq_nth in E by exact Hk. injection E as <-.
  split; [reflexivity|lia].
Qed.

(** *** The rounding of binary64 *)

Lemma roundHalfEven_bounds (q : Q) :
  (Qfloor q <= roundHalfEven q <= Qfloor q + 1)%Z.
Proof.
  unfold roundHalfEven.
  destruct (Qcompare (q - inject_Z (Qfloor q)) (1 # 2)); [|lia|lia].
  destruct (Z.even (Qfloor q)); lia.
Qed.

Lemma roundHalfEven_mono (p q : Q) :
  p <= q -> (roundHalfEven p <= roundHalfEven q)%Z.
Proof.
  intro Hpq.
  pose proof (Qfloor_resp_le _ _ Hpq) as Hf.
  pose proof (roundHalfEven_bounds p) as Hp.
  pose proof (roundHalfEven_bounds q) as Hq.
  destruct (Z.eq_dec (Qfloor p) (Qfloor q)) as [E|E]; [|lia].
  clear Hp Hq Hf. unfold roundHalfEven. rewrite E.
  destruct (Qcompare_spec (p - inject_Z (Qfloor q)) (1 # 2)) as [Hp|Hp|Hp];
    destruct (Qcompare_spec (q - inject_Z (Qfloor q)) (1 # 2)) as [Hq|Hq|Hq];
    try lia; try (exfalso; lra);
    destruct (Z.even (Qfloor q)); lia.
Qed.

Lemma roundHalfEven_Z (z : Z) : roundHalfEven (inject_Z z) = z.
Proof.
  unfold roundHalfEven. rewrite Qfloor_Z.
  destruct (Qcompare_spec (inject_Z z - inject_Z z) (1 # 2)) as [H|H|H];
    [exfalso; lra|reflexivity|exfalso; lra].
Qed.

Lemma pow2_pos (e : Z) : 0 < 2 ^ e.
Proof. apply Qpower_0_lt. reflexivity. Qed.

Lemma pow2_le (a b : Z) : (a <= b)%Z -> 2 ^ a <= 2 ^ b.
Proof. intro H. apply Qpower_le_compat_l; [exact H|discriminate]. Qed.

Lemma pow2_lt_inv (a b : Z) : 2 ^ a < 2 ^ b -> (a < b)%Z.
Proof. intro H. apply (Qpower_lt_compat_l_inv 2); [exact H|reflexivity]. Qed.

Lemma pow2_plus (a b : Z) : 2 ^ (a + b) == 2 ^ a * 2 ^ b.
Proof. apply Qpower_plus. discriminate. Qed.

Lemma pow2_Z (n : Z) : (0 <= n)%Z -> inject_Z (2 ^ n) == 2 ^ n.
Proof. intro H. rewrite Zpower_Qpower by exact H. reflexivity. Qed.

Lemma binade_spec (q : Q) :
  0 < q -> 2 ^ binade q <= q /\ q < 2 ^ (binade q + 1).
Proof.
  intro Hq. unfold binade.
  set (n := Qnum q). set (d := Zpos (Qden q)).
  set (a := Z.log2 n). set (b := Z.log2 d).
  assert (Hn : (0 < n)%Z).
  { unfold n. destruct q as [qn qd]. unfold Qlt in Hq. simpl in *. lia. }
  assert (Hd : (0 < d)%Z) by (unfold d; lia).
  destruct (Z.log2_spec n Hn) as [Ha1 Ha2]. fold a in Ha1, Ha2.
  destruct (Z.log2_spec d Hd) as [Hb1 Hb2]. fold b in Hb1, Hb2.
  assert (Ha0 : (0 <= a)%Z) by apply Z.log2_nonneg.
  assert (Hb0 : (0 <= b)%Z) by apply Z.log2_nonneg.
  assert (Eq : q == inject_Z n / inject_Z d).
  { destruct q as [qn qd]. apply Qmake_Qdiv. }
  assert (Hdq : 0 < inject_Z d) by (rewrite <- (Zlt_Qlt 0); exact Hd).
  assert (Hlow : 2 ^ (a - b - 1) < q).
  { rewrite Eq. apply Qlt_shift_div_l; [exact Hdq|].
    apply Qlt_le_trans with (2 ^ (a - b - 1) * 2 ^ (b + 1)).
    - apply Qmult_lt_l; [apply pow2_pos|].
      rewrite <- pow2_Z by lia. rewrite <- Zlt_Qlt. exact Hb2.
    - rewrite <- pow2_plus. replace (a - b - 1 + (b + 1))%Z with a by lia.
      rewrite <- pow2_Z by lia. rewrite <- Zle_Qle. exact Ha1. }
  assert (Hhigh : q < 2 ^ (a - b + 1)).
  { rewrite Eq. apply Qlt_shift_div_r; [exact Hdq|].
    apply Qlt_le_trans with (2 ^ (a - b + 1) * 2 ^ b).
    - rewrite <- pow2_plus. replace (a - b + 1 + b)%Z with (a + 1)%Z by lia.
      rewrite <- pow2_Z by lia. rewrite <- Zlt_Qlt.
      replace (a + 1)%Z with (Z.succ a) by lia. exact Ha2.
    - apply Qmult_le_l; [apply pow2_pos|].
      rewrite <- pow2_Z by lia. rewrite <- Zle_Qle. exact Hb1. }
  destruct (Qle_bool (2 ^ (a - b)) q) eqn:E.
  - apply Qle_bool_iff in E. split; assumption.
  - assert (Hlt : q < 2 ^ (a - b)).
    { apply Qnot_le_lt. intro H. apply Qle_bool_iff in H. congruence. }
    split.
    + apply Qlt_le_weak. exact Hlow.
    + replace (a - b - 1 + 1)%Z with (a - b)%Z by lia. exact Hlt.
Qed.

Lemma binade_mono (p q : Q) : 0 < p -> p <= q -> (binade p <= binade q)%Z.
Proof.
  intros Hp Hpq.
  assert (Hq : 0 < q) by lra.
  destruct (binade_spec p Hp) as [Hp1 _].
  destruct (binade_spec q Hq) as [_ Hq2].
  assert (H : 2 ^ binade p < 2 ^ (binade q + 1)) by lra.
  apply pow2_lt_inv in H. lia.
Qed.

Lemma round64_pos_mono (p q : Q) :
  0 < p -> p <= q -> round64_pos p <= round64_pos q.
Proof.
  intros Hp Hpq.
  assert (Hq : 0 < q) by lra.
  pose proof (binade_mono p q Hp Hpq) as Hb.
  unfold round64_pos.
  set (ep := Z.max (binade p - 52) (-1074)).
  set (eq := Z.max (binade q - 52) (-1074)).
  assert (He : (ep <= eq)%Z) by (unfold ep, eq; lia).
  destruct (Z.eq_dec ep eq) as [E|E].
  - rewrite E. apply Qmult_le_compat_r; [|apply Qlt_le_weak, pow2_pos].
    rewrite <- Zle_Qle. apply roundHalfEven_mono.
    apply Qmult_le_compat_r; [exact Hpq|].
    apply Qlt_le_weak, Qinv_lt_0_compat, pow2_pos.
  - assert (Eeq : eq = (binade q - 52)%Z) by (unfold ep, eq in *; lia).
    assert (Hlt : (ep + 1 <= eq)%Z) by lia.
    destruct (binade_spec p Hp) as [_ Hp2].
    destruct (binade_spec q Hq) as [Hq1 _].
    apply Qle_trans with (2 ^ 53 * 2 ^ ep).
    + apply Qmult_le_compat_r; [|apply Qlt_le_weak, pow2_pos].
      rewrite <- (pow2_Z 53) by lia. rewrite <- Zle_Qle.
      rewrite <- (roundHalfEven_Z (2 ^ 53)).
      apply roundHalfEven_mono. rewrite pow2_Z by lia.
      apply Qle_shift_div_r; [apply pow2_pos|].
      rewrite <- pow2_plus.
      apply Qle_trans with (2 ^ (binade p + 1)); [apply Qlt_le_weak; exact Hp2|].
      apply pow2_le. unfold ep. lia.
    + apply Qle_trans with (2 ^ 52 * 2 ^ eq).
      * rewrite <- !pow2_plus. apply pow2_le. lia.
      * apply Qmult_le_compat_r; [|apply Qlt_le_weak, pow2_pos].
        rewrite <- (pow2_Z 52) by lia. rewrite <- Zle_Qle.
        rewrite <- (roundHalfEven_Z (2 ^ 52)) at 1.
        apply roundHalfEven_mono. rewrite pow2_Z by lia.
        apply Qle_shift_div_l; [apply pow2_pos|].
        rewrite <- pow2_plus. rewrite Eeq.
        replace (52 + (binade q - 52))%Z with (binade q) by lia. exact Hq1.
Qed.

Lemma round64_pos_nonneg (q : Q) : 0 < q -> 0 <= round64_pos q.
Proof.
  intro Hq. unfold round64_pos.
  apply Qmult_le_0_compat; [|apply Qlt_le_weak, pow2_pos].
  rewrite <- (Zle_Qle 0).
  pose proof (roundHalfEven_bounds (q / 2 ^ Z.max (binade q - 52) (-1074))) as [H _].
  assert (H0 : (0 <= Qfloor (q / 2 ^ Z.max (binade q - 52) (-1074)))%Z).
  { rewrite <- (Qfloor_Z 0). apply Qfloor_resp_le.
    apply Qle_shift_div_l; [apply pow2_pos|]. rewrite Qmult_0_l. lra. }
  lia.
Qed.

Lemma round64_mono (p q : Q) : p <= q -> round64 p <= round64 q.
Proof.
  intro Hpq. unfold round64.
  destruct (Qcompare_spec p 0) as [Hp|Hp|Hp];
    destruct (Qcompare_spec q 0) as [Hq|Hq|Hq];
    try (exfalso; lra).
  - lra.
  - apply round64_pos_nonneg. exact Hq.
  - pose proof (round64_pos_nonneg (- p)). lra.
  - pose proof (round64_pos_mono (- q) (- p)). lra.
  - pose proof (round64_pos_nonneg (- p)).
    pose proof (round64_pos_nonneg q). lra.
  - apply round64_pos_mono; assumption.
Qed.

Lemma round64_pos_Z (z : Z) :
  (0 < z < 2 ^ 53)%Z -> round64_pos (inject_Z z) == inject_Z z.
Proof.
  intros [Hz0 Hz].
  assert (Hq : 0 < inject_Z z) by (rewrite <- (Zlt_Qlt 0); exact Hz0).
  destruct (binade_spec _ Hq) as [Hb1 Hb2].
  assert (Hb : (0 <= binade (inject_Z z) <= 52)%Z).
  { split.
    - assert (H : 2 ^ 0 < 2 ^ (binade (inject_Z z) + 1)).
      { apply Qle_lt_trans with (inject_Z z); [|exact Hb2].
        change (2 ^ 0) with (inject_Z 1). rewrite <- Zle_Qle. lia. }
      apply pow2_lt_inv in H. lia.
    - assert (H : 2 ^ binade (inject_Z z) < 2 ^ 53).
      { apply Qle_lt_trans with (inject_Z z); [exact Hb1|].
        rewrite <- (pow2_Z 53) by lia. rewrite <- Zlt_Qlt. exact Hz. }
      apply pow2_lt_inv in H. lia. }
  unfold round64_pos.
  set (e := Z.max (binade (inject_Z z) - 52) (-1074)).
  assert (He : (e <= 0)%Z) by (unfold e; lia).
  assert (Ez : inject_Z z / 2 ^ e == inject_Z (z * 2 ^ (- e))).
  { rewrite inject_Z_mult. rewrite pow2_Z by lia.
    rewrite Qpower_opp. reflexivity. }
  assert (Er : roundHalfEven (inject_Z z / 2 ^ e) = (z * 2 ^ (- e))%Z).
  { rewrite <- (roundHalfEven_Z (z * 2 ^ (- e))).
    apply Z.le_antisymm; apply roundHalfEven_mono; rewrite Ez; apply Qle_refl. }
  rewrite Er. rewrite inject_Z_mult. rewrite pow2_Z by lia.
  rewrite <- Qmult_assoc. rewrite <- pow2_plus.
  replace (- e + e)%Z with 0%Z by lia. change (2 ^ 0) with 1. ring.
Qed.

Lemma round64_Z (z : Z) :
  (Z.abs z <= 2 ^ 53)%Z -> round64 (inject_Z z) == inject_Z z.
Proof.
  intro Hz.
  assert (Hpos : forall y, (0 < y <= 2 ^ 53)%Z -> round64_pos (inject_Z y) == inject_Z y).
  { intros y Hy. destruct (Z.eq_dec y (2 ^ 53)) as [->|Hne].
    - vm_compute. reflexivity.
    - apply round64_pos_Z. lia. }
  unfold round64.
  destruct (Qcompare_spec (inject_Z z) 0) as [H|H|H].
  - symmetry. exact H.
  - change 0 with (inject_Z 0) in H. rewrite <- Zlt_Qlt in H.
    rewrite <- inject_Z_opp. rewrite Hpos by lia. rewrite inject_Z_opp. ring.
  - change 0 with (inject_Z 0) in H. rewrite <- Zlt_Qlt in H.
    apply Hpos. lia.
Qed.

(** *** Frame times *)

Lemma contiguous_le (l : list SlideTimeline) :
  forall a b, contiguous a l b -> a <= b.
Proof.
  induction l as [|e l IH]; intros a b Hc; simpl in Hc.
  - change (a == b) in Hc. lra.
  - destruct Hc as (_ & Hlt & Hout & Hc').
    specialize (IH _ _ Hc'). unfold entryEnd in IH.
    destruct (transitionOut e) as [out|]; [|lra].
    destruct (Hout out eq_refl) as (_ & Hlt' & _). lra.
Qed.

Lemma chained_contiguous (l : list SlideTimeline) :
  forall a b, chained a l b -> Forall validEntry l -> contiguous a l b.
Proof.
  induction l as [|e l IH]; intros a b Hc Hv.
  - simpl in *. subst. reflexivity.
  - inversion Hv as [|? ? He Hl]; subst.
    destruct (validEntry_order _ _ _ _ Hc He) as [Hlt _].
    destruct Hc as (Hs & Hend & Hout & Hc'). destruct He as [_ Hpos].
    simpl. split; [rewrite Hs; reflexivity|]. split; [exact Hlt|].
    split; [|exact (IH _ _ Hc' Hl)].
    intros out Eo. destruct (Hout out Eo) as (Hos & Hoe & _ & Hne).
    specialize (Hpos out Eo).
    split; [rewrite Hos; reflexivity|]. split; [rewrite Hoe; lra|exact Hne].
Qed.

(** On a gap-free timeline the scan finds every time inside it, in a
    display or a transition interval, and no time from its end on. *)
Lemma contiguous_inside (l : list SlideTimeline) :
  forall a b time,
    contiguous a l b -> a <= time < b ->
    (exists e, resolveFrame time l = DisplaySlide e /\ In e l /\
               startTime e <= time < endTime e) \/
    (exists e next out,
        resolveFrame time l = TransitionFrame e next out /\ In e l /\ In next l /\
        transitionOut e = Some out /\
        out_startTime out <= time < out_endTime out).
Proof.
  assert (Hscan : forall l0 a b time,
             contiguous a l0 b -> a <= time < b ->
             exists choice, scanTimeline time l0 = Some choice /\
                            forall e, choice <> NoNextSlide e).
  { induction l0 as [|e l' IH]; intros a b time Hc Ht.
    - change (a == b) in Hc. lra.
    - destruct Hc as (Hs & Hlt & Hout & Hc'). simpl.
      destruct (inDisplay time e) eqn:Ed; [eexists; split; [reflexivity|discriminate]|].
      assert (Hge : endTime e <= time).
      { destruct (Qlt_le_dec time (endTime e)) as [H|H]; [|exact H].
        assert (Htrue : inDisplay time e = true) by (apply inDisplay_iff; lra).
        congruence. }
      unfold entryEnd in Hc'.
      destruct (transitionOut e) as [out|].
      + destruct (Hout out eq_refl) as (Hos & Hoe & Hne).
        destruct (inTransition time out) eqn:Et.
        * destruct l' as [|next l'']; [congruence|].
          eexists. split; [reflexivity|discriminate].
        * assert (Hpast : out_endTime out <= time).
          { destruct (Qlt_le_dec time (out_endTime out)) as [H|H]; [|exact H].
            assert (Htrue : inTransition time out = true)
              by (apply inTransition_iff; lra).
            congruence. }
          apply (IH _ _ _ Hc'). lra.
      + apply (IH _ _ _ Hc'). lra. }
  intros a b time Hc Ht.
  destruct (Hscan l a b time Hc Ht) as (choice & Hchoice & Hnext).
  unfold resolveFrame. rewrite Hchoice.
  destruct (scanTimeline_choice _ _ _ Hchoice)
    as [(e & -> & ? & ?)|[(e & -> & ?)|(e & next & out & -> & ? & ? & ? & ?)]].
  - left. eauto.
  - exfalso. exact (Hnext e eq_refl).
  - right. exists e, next, out. auto.
Qed.

Lemma contiguous_past (l : list SlideTimeline) :
  forall a b time,
    contiguous a l b -> b <= time -> scanTimeline time l = None.
Proof.
  induction l as [|e l IH]; intros a b time Hc Ht.
  - reflexivity.
  - destruct Hc as (Hs & Hlt & Hout & Hc').
    pose proof (contiguous_le _ _ _ Hc') as Hle.
    simpl. unfold entryEnd in Hc', Hle.
    destruct (transitionOut e) as [out|].
    + destruct (Hout out eq_refl) as (Hos & Hoe & _).
      rewrite inDisplay_false by lra.
      rewrite inTransition_false by lra.
      exact (IH _ _ _ Hc' Ht).
    + rewrite inDisplay_false by lra.
      exact (IH _ _ _ Hc' Ht).
Qed.

(** A frame index below the frame count lies, as an exact quotient,
    strictly before the end; its rounded time cannot pass the end. *)
Lemma frameTime_bounds (fl : Q -> Q) (total fps : Q) (k : Z) :
  (forall x y, x <= y -> fl x <= fl y) ->
  (forall z, (0 <= z <= 2 ^ 53)%Z -> fl (inject_Z z) == inject_Z z) ->
  fl total == total ->
  0 < fps ->
  (totalFramesOf fl total fps <= 2 ^ 53)%Z ->
  (0 <= k < totalFramesOf fl total fps)%Z ->
  inject_Z k / fps < total /\
  0 <= frameTime fl k fps <= total.
Proof.
  intros Hmono Hint Htotal Hfps Hmax [Hk0 Hk].
  unfold totalFramesOf in *.
  assert (Hlt : inject_Z k < fl (total * fps)).
  { apply Qle_lt_trans with (inject_Z (Qceiling (fl (total * fps)) - 1)).
    - rewrite <- Zle_Qle. lia.
    - apply Qceiling_lt. }
  assert (Hexact : inject_Z k < total * fps).
  { apply Qnot_le_lt. intro Hle.
    pose proof (Hmono _ _ Hle) as H.
    rewrite (Hint k) in H by lia. lra. }
  assert (Hq : inject_Z k / fps < total).
  { apply Qlt_shift_div_r; [exact Hfps|exact Hexact]. }
  split; [exact Hq|]. unfold frameTime. split.
  - rewrite <- (Hint 0%Z) by lia. apply Hmono.
    apply Qle_shift_div_l; [exact Hfps|].
    rewrite Qmult_0_l. rewrite <- (Zle_Qle 0). exact Hk0.
  - rewrite <- Htotal. apply Hmono. apply Qlt_le_weak. exact Hq.
Qed.

(** The frame count and the frame times of the embedded
    [createRenderLoop] are the exact reading of [totalFramesOf] and
    [frameTime]. *)
Lemma createRenderLoop_exact_reading (cos sin : Q -> Q) (PI : Q)
  (load : string -> Completion ImgSource) (this : ImageToVideoService)
  (request : ImageToVideoRequest) (loop : RenderLoop) :
  createRenderLoop cos sin PI load this request = Normal loop ->
  loop_totalFrames loop =
    totalFramesOf (fun x => x) (loop_totalDuration loop) (fps this) /\
  exists images,
    loadImages load (slides request) [] = Normal images /\
    forall frameIndex : Z,
      loop_renderFrame loop frameIndex =
        renderFrame cos sin PI this (frameTime (fun x => x) frameIndex (fps this))
          (timeline (buildTimeline (slides request) images)).
Proof.
  unfold createRenderLoop. intro H.
  destruct (loadImages load (slides request) []) as [images|err]; [|discriminate].
  simpl in H. injection H as <-. simpl.
  split; [reflexivity|]. exists images. split; reflexivity.
Qed.

(** X14. The frames of a render job, with the rounding of the Number
    operations written out.  Let [fl] be any rounding that is monotone and
    leaves the integers up to 2^53 and the total duration unchanged, as
    the rounding of binary64 does.  Every frame index below
    [Math.ceil(fl(totalDuration * fps))] has an exact quotient
    [frameIndex / fps] strictly before the end, and its time
    [fl(frameIndex / fps)] lies in [0, totalDuration] and does not
    decrease with the index.  On any gap-free timeline the frame is
    painted without throwing: as a steady display or a transition when
    its time is before the end, and by the past-the-end fallback, which
    draws the last image, when its time is the total duration itself.
    That case occurs: in binary64 a 2.2 s timeline at 25 frames per
    second has 56 frames, and frame 55 has time 2.2; exact arithmetic
    counts 55 frames. *)
Theorem generateFrames_frame_times :
  (forall (fl cos sin : Q -> Q) (PI : Q) (this : ImageToVideoService)
          (tl : list SlideTimeline) (total : Q),
      (forall x y, x <= y -> fl x <= fl y) ->
      (forall z, (0 <= z <= 2 ^ 53)%Z -> fl (inject_Z z) == inject_Z z) ->
      fl total == total ->
      0 < fps this ->
      contiguous 0 tl total ->
      Forall (fun e => image e <> None) tl ->
      (totalFramesOf fl total (fps this) <= 2 ^ 53)%Z ->
      forall frameIndex : Z,
        (0 <= frameIndex < totalFramesOf fl total (fps this))%Z ->
        let time := frameTime fl frameIndex (fps this) in
        inject_Z frameIndex / fps this < total /\
        0 <= time <= total /\
        time <= frameTime fl (frameIndex + 1) (fps this) /\
        thrown (renderFrame cos sin PI this time tl) = None /\
        (time < total ->
           (exists e, resolveFrame time tl = DisplaySlide e /\ In e tl /\
                      startTime e <= time < endTime e) \/
           (exists e next out,
               resolveFrame time tl = TransitionFrame e next out /\
               In e tl /\ In next tl /\ transitionOut e = Some out /\
               out_startTime out <= time < out_endTime out)) /\
        (time == total ->
           exists last,
             nth_error tl (List.length tl - 1) = Some last /\
             resolveFrame time tl = PastAllSlides last /\
             renderFrame cos sin PI this time tl =
               call (SetFillStyle (backgroundColor this)) ;;
               call (FillRect 0 0 (width this) (height this)) ;;
               drawImageCover this (image last))) /\
  ((forall x y, x <= y -> round64 x <= round64 y) /\
   (forall z, (Z.abs z <= 2 ^ 53)%Z -> round64 (inject_Z z) == inject_Z z)) /\
  (let total := round64 (11 # 5) in
   round64 total == total /\
   totalFramesOf round64 total 25 = 56%Z /\
   frameTime round64 55 25 == total /\
   totalFramesOf (fun x => x) (11 # 5) 25 = 55%Z).
Proof.
  split; [|split; [split; [exact round64_mono|exact round64_Z]|]].
  - intros fl cos sin PI this tl total Hmono Hint Htotal Hfps Hc Himg Hmax
      frameIndex Hk time.
    destruct (frameTime_bounds fl total (fps this) frameIndex
                Hmono Hint Htotal Hfps Hmax Hk) as [Hexact Htime].
    fold time in Htime.
    split; [exact Hexact|]. split; [exact Htime|].
    split; [|split; [apply renderFrame_thrown; exact Himg|split]].
    + unfold time, frameTime. apply Hmono.
      apply Qmult_le_compat_r; [|apply Qlt_le_weak, Qinv_lt_0_compat; exact Hfps].
      rewrite <- Zle_Qle. lia.
    + intro Hin. apply (contiguous_inside tl 0 total time Hc). lra.
    + intro Heq.
      assert (Hscan : scanTimeline time tl = None).
      { apply (contiguous_past tl 0 total time Hc). rewrite Heq. apply Qle_refl. }
      assert (Hne : tl <> []).
      { intros ->. change (0 == total) in Hc.
        assert (H0 : 0 <= inject_Z frameIndex / fps this).
        { apply Qle_shift_div_l; [exact Hfps|].
          rewrite Qmult_0_l. rewrite <- (Zle_Qle 0). lia. }
        lra. }
      destruct (nth_error tl (List.length tl - 1)) as [last|] eqn:El.
      * exists last. split; [reflexivity|].
        assert (Hres : resolveFrame time tl = PastAllSlides last).
        { unfold resolveFrame. rewrite Hscan, El. reflexivity. }
        split; [exact Hres|]. unfold renderFrame. rewrite Hres. reflexivity.
      * apply nth_error_None in El. destruct tl; [congruence|simpl in El; lia].
  - cbv zeta. split; [vm_compute; reflexivity|].
    split; [vm_compute; reflexivity|].
    split; [vm_compute; reflexivity|vm_compute; reflexivity].
Qed.

(** X15. [generateFrames] and [createRenderLoop] agree: they fail together
    with the same error, and otherwise report the same duration and frame
    count, there are exactly [totalFrames] generators (none when the count
    is not positive), and generator [k] paints what [renderFrame(k)]
    paints and then reads the canvas back. *)
Theorem generateFrames_matches_createRenderLoop :
  forall (cos sin : Q -> Q) (PI : Q) (load : string -> Completion ImgSource)
         (this : ImageToVideoService) (request : ImageToVideoRequest),
    match generateFrames cos sin PI load this request,
          createRenderLoop cos sin PI load this request with
    | Normal generated, Normal loop =>
        frames_totalDuration generated = loop_totalDuration loop /\
        frames_totalFrames generated = loop_totalFrames loop /\
        List.length (frames generated) = Z.to_nat (loop_totalFrames loop) /\
        forall k frame,
          nth_error (frames generated) k = Some frame ->
          frame tt = loop_renderFrame loop (Z.of_nat k) ;;
                     call (GetImageData 0 0 (width this) (height this))
    | Throw e, Throw e' => e = e'
    | _, _ => False
    end.
Proof.
  intros cos sin PI load this request.
  unfold generateFrames, createRenderLoop.
  destruct (loadImages load (slides request) []) as [images|err]; simpl;
    [|reflexivity].
  split; [reflexivity|]. split; [reflexivity|].
  split.
  - unfold frameIndices. rewrite !length_map, length_seq. reflexivity.
  - intros k frame Hk.
    rewrite nth_error_map in Hk.
    destruct (nth_error (frameIndices _) k) as [z|] eqn:Ez; [|discriminate].
    injection Hk as <-.
    destruct (nth_error_frameIndices _ _ _ Ez) as [-> _]. reflexivity.
Qed.

Lemma loadImages_first_failure (load : string -> Completion ImgSource)
  (pre : list ImageSlide) :
  forall (s : ImageSlide) (post : list ImageSlide) (acc : list ImgSource) (err : JsError),
    (forall s', In s' pre -> exists img, load (src s') = Normal img) ->
    load (src s) = Throw err ->
    loadImages load (pre ++ s :: post) acc = Throw err.
Proof.
  induction pre as [|p pre IH]; intros s post acc err Hpre Hs; simpl.
  - rewrite Hs. reflexivity.
  - destruct (Hpre p (or_introl eq_refl)) as [img Himg]. rewrite Himg. simpl.
    apply IH; [|exact Hs]. intros s' Hin. apply Hpre. right. exact Hin.
Qed.

(** X16. Images are loaded in slide order and the first failure rejects the
    whole call with that image's error, for both entry points, whatever
    the slides after it would have done. *)
Theorem first_failed_load_rejects :
  forall (cos sin : Q -> Q) (PI : Q) (load : string -> Completion ImgSource)
         (this : ImageToVideoService) (request : ImageToVideoRequest)
         (pre post : list ImageSlide) (s : ImageSlide) (err : JsError),
    slides request = pre ++ s :: post ->
    (forall s', In s' pre -> exists img, load (src s') = Normal img) ->
    load (src s) = Throw err ->
    createRenderLoop cos sin PI load this request = Throw err /\
    generateFrames cos sin PI load this request = Throw err.
Proof.
  intros cos sin PI load this request pre post s err Hslides Hpre Hs.
  unfold createRenderLoop, generateFrames. rewrite Hslides.
  rewrite (loadImages_first_failure load pre s post [] err Hpre Hs).
  split; reflexivity.
Qed.

Lemma lerp_between (a b t : Q) :
  0 <= t <= 1 -> between a (a + (b - a) * t) b.
Proof.
  intros [H0 H1]. unfold between.
  destruct (Qlt_le_dec a b) as [Hab|Hba].
  - rewrite (Q.min_l a b), (Q.max_r a b) by lra.
    assert (Hp : 0 <= (b - a) * t) by (apply Qmult_le_0_compat; lra).
    assert (Hq : 0 <= (b - a) * (1 - t)) by (apply Qmult_le_0_compat; lra).
    lra.
  - rewrite (Q.min_r a b), (Q.max_l a b) by lra.
    assert (Hp : 0 <= (a - b) * t) by (apply Qmult_le_0_compat; lra).
    assert (Hq : 0 <= (a - b) * (1 - t)) by (apply Qmult_le_0_compat; lra).
    lra.
Qed.

Lemma kenBurnsProgress_bounds (e : SlideTimeline) (time : Q) :
  0 <= kenBurnsProgress e time <= 1.
Proof.
  unfold kenBurnsProgress. split; [apply Q.le_max_l|].
  apply Q.max_lub; [discriminate|apply Q.le_min_l].
Qed.

Lemma kenBurnsProgress_before (e : SlideTimeline) (time : Q) :
  0 < duration (slide e) -> time <= startTime e -> kenBurnsProgress e time == 0.
Proof.
  intros Hd Ht. unfold kenBurnsProgress.
  apply Q.max_l.
  apply Qle_trans with ((time - startTime e) / duration (slide e));
    [apply Q.le_min_r|].
  apply Qle_shift_div_r; [exact Hd|]. lra.
Qed.

Lemma kenBurnsProgress_after (e : SlideTimeline) (time : Q) :
  0 < duration (slide e) -> startTime e + duration (slide e) <= time ->
  kenBurnsProgress e time == 1.
Proof.
  intros Hd Ht. unfold kenBurnsProgress.
  assert (H1 : 1 <= (time - startTime e) / duration (slide e)).
  { apply Qle_shift_div_l; [exact Hd|]. lra. }
  rewrite (Q.min_l 1 _) by exact H1.
  apply Q.max_r. discriminate.
Qed.

(** X12. For a slide with a Ken Burns spec, a loaded image and a positive
    duration, the drawing is wrapped in [save]/[restore] and, at every
    time, the scale and the pan offsets lie between their start and end
    values; they equal the start values up to the slide's start time and
    the end values from its end time on. *)
Theorem renderSlideWithKenBurns_interpolates :
  forall (this : ImageToVideoService) (e : SlideTimeline) (kb : KenBurns)
         (img : ImgSource) (time : Q),
    kenBurns (slide e) = Some kb ->
    image e = Some img ->
    0 < duration (slide e) ->
    exists scale posX posY,
      calls (renderSlideWithKenBurns this e time) =
        [ Save;
          Translate (width this / 2 + posX) (height this / 2 + posY);
          Scale scale scale;
          Translate (- width this / 2) (- height this / 2) ]
        ++ calls (drawImageCover this (Some img)) ++ [Restore] /\
      between (startScale kb) scale (endScale kb) /\
      between (pos_x (startPosition kb)) posX (pos_x (endPosition kb)) /\
      between (pos_y (startPosition kb)) posY (pos_y (endPosition kb)) /\
      (time <= startTime e ->
       scale == startScale kb /\
       posX == pos_x (startPosition kb) /\ posY == pos_y (startPosition kb)) /\
      (startTime e + duration (slide e) <= time ->
       scale == endScale kb /\
       posX == pos_x (endPosition kb) /\ posY == pos_y (endPosition kb)).
Proof.
  intros this e kb img time Hkb Himg Hd.
  pose proof (kenBurnsProgress_bounds e time) as Ht.
  do 3 eexists. split.
  - unfold renderSlideWithKenBurns. rewrite Hkb, Himg. reflexivity.
  - split; [apply lerp_between; exact Ht|].
    split; [apply lerp_between; exact Ht|].
    split; [apply lerp_between; exact Ht|].
    split; intro Hedge.
    + rewrite (kenBurnsProgress_before e time Hd Hedge). repeat split; ring.
    + rewrite (kenBurnsProgress_after e time Hd Hedge). repeat split; ring.
Qed.

Lemma renderSlideWithKenBurns_trace (this : ImageToVideoService)
  (e : SlideTimeline) (time : Q) :
  image e <> None ->
  let painted := renderSlideWithKenBurns this e time in
  stateNeutral (calls painted) /\ existsb clearsCanvas (calls painted) = false.
Proof.
  intro Himg. unfold renderSlideWithKenBurns.
  destruct (image e) as [img|]; [|congruence].
  destruct (kenBurns (slide e)); split; reflexivity.
Qed.

(** X13. When every timeline entry has its image, [renderFrame] first fills
    the whole canvas with the background colour, and what follows leaves
    the drawing state untouched.  The canvas is cleared again exactly in
    transition frames: there the background fill is erased before the
    images are drawn. *)
Theorem renderFrame_trace_shape :
  forall (cos sin : Q -> Q) (PI : Q) (this : ImageToVideoService)
         (time : Q) (tl : list SlideTimeline),
    Forall (fun e => image e <> None) tl ->
    exists rest,
      calls (renderFrame cos sin PI this time tl) =
        SetFillStyle (backgroundColor this)
        :: FillRect 0 0 (width this) (height this) :: rest /\
      stateNeutral rest /\
      existsb clearsCanvas rest = isTransitionFrame (resolveFrame time tl).
Proof.
  intros cos sin PI this time tl Himg.
  exists (calls (drawChoice cos sin PI this time (resolveFrame time tl))).
  split; [reflexivity|].
  assert (Hin : forall e, In e tl -> image e <> None).
  { intros e He. exact (proj1 (Forall_forall _ _) Himg e He). }
  unfold resolveFrame.
  destruct (scanTimeline time tl) as [choice|] eqn:E.
  - destruct (scanTimeline_choice _ _ _ E)
      as [(e & -> & He & _)|[(e & -> & He)|(e & next & out & -> & _)]];
      cbn [drawChoice isTransitionFrame].
    + apply renderSlideWithKenBurns_trace. apply Hin. exact He.
    + apply renderSlideWithKenBurns_trace. apply Hin. exact He.
    + destruct (renderTransitionFrame_trace cos sin PI (image e) (image next)
                  (applyEasing (rawProgress time out) (out_easing out))
                  (out_type out) (width this) (height this))
        as (_ & rest & Hcalls & Hneutral).
      rewrite Hcalls. split; [exact Hneutral|reflexivity].
  - destruct (nth_error tl (List.length tl - 1)) as [last|] eqn:El;
      cbn [drawChoice isTransitionFrame].
    + apply nth_error_In in El. specialize (Hin last El).
      destruct (image last); [split; reflexivity|congruence].
    + split; reflexivity.
Qed.

(** ** The rendering plan of the route handler *)

Lemma planTimeline_loop_service (images : list ImgSource) (len : nat)
  (rest : list ImageSlide) :
  forall (i : nat) (t : Q) (acc : list TimelineSlide),
    planTimeline_loop len i rest t acc =
    (acc ++ map planOf (timeline (buildTimeline_loop images len i rest t [])),
     totalDuration (buildTimeline_loop images len i rest t [])).
Proof.
  induction rest as [|s rest IH]; intros i t acc.
  - simpl. rewrite app_nil_r. reflexivity.
  - rewrite buildTimeline_loop_cons. cbv zeta.
    simpl planTimeline_loop. unfold entryEnd, entryAt.
    destruct (transitionToAdd i len s) as [tr|]; simpl;
      rewrite IH, <- app_assoc; reflexivity.
Qed.

Lemma plan_timeline_matches_service :
  forall (slides : list ImageSlide) (images : list ImgSource),
    let plan := planTimeline_loop (List.length slides) 0 slides 0 [] in
    let built := buildTimeline slides images in
    fst plan = map planOf (timeline built) /\
    snd plan = totalDuration built /\
    List.length (fst plan) = List.length slides.
Proof.
  intros slides images plan built. subst plan built. unfold buildTimeline.
  rewrite (planTimeline_loop_service images). simpl.
  repeat split.
  rewrite length_map. apply buildTimeline_loop_length.
Qed.

Lemma zNumber_Some (lo hi v q : Q) :
  zNumber lo hi v = Some q -> q = v /\ lo <= v <= hi.
Proof.
  unfold zNumber. intro H.
  destruct (Qle_bool lo v) eqn:E1; destruct (Qle_bool v hi) eqn:E2;
    simpl in H; try discriminate.
  injection H as <-. apply Qle_bool_iff in E1. apply Qle_bool_iff in E2. auto.
Qed.

Lemma zInt_Some (lo hi v q : Q) :
  zInt lo hi v = Some q -> q = v /\ lo <= v <= hi /\ v == inject_Z (Qfloor v).
Proof.
  unfold zInt. intro H.
  destruct (Qeq_bool v (inject_Z (Qfloor v))) eqn:E; [|discriminate].
  apply Qeq_bool_iff in E. destruct (zNumber_Some _ _ _ _ H) as [-> Hr]. auto.
Qed.

Lemma zArray_Forall2 {A B : Type} (schema : A -> option B) (vs : list A) :
  forall bs, zArray schema vs = Some bs ->
             Forall2 (fun v b => schema v = Some b) vs bs.
Proof.
  induction vs as [|v vs IH]; intros bs H; simpl in H.
  - injection H as <-. constructor.
  - destruct (schema v) as [b|] eqn:E; [|discriminate].
    destruct (zArray schema vs) as [bs'|]; [|discriminate].
    injection H as <-. constructor; [exact E|apply IH; reflexivity].
Qed.

Lemma transitionConfigSchema_Some (v : TransitionInput) (tr : TransitionConfig) :
  transitionConfigSchema v = Some tr ->
  transition_type tr = in_type v /\
  transition_duration tr = in_transitionDuration v /\
  1 # 10 <= transition_duration tr <= 5.
Proof.
  unfold transitionConfigSchema. intro H.
  destruct (transitionTypeSchema (in_type v)) as [ty|] eqn:Et; [|discriminate].
  destruct (zNumber (1 # 10) 5 (in_transitionDuration v)) as [d|] eqn:Ed; [|discriminate].
  destruct (zDefault easingTypeSchema "ease-in-out"%string (in_easing v)) as [e|];
    [|discriminate].
  injection H as <-. simpl.
  destruct (zNumber_Some _ _ _ _ Ed) as [-> Hr].
  unfold transitionTypeSchema, zEnum in Et.
  destruct (existsb _ _); [|discriminate]. injection Et as <-. auto.
Qed.

Lemma imageSlideSchema_Some (v : SlideInput) (s : ImageSlide) :
  imageSlideSchema v = Some s ->
  src s = in_src v /\ duration s = in_duration v /\ inSchemaRange s.
Proof.
  unfold imageSlideSchema. intro H.
  destruct (srcSchema (in_src v)) as [sr|] eqn:Es; [|discriminate].
  destruct (zNumber (1 # 10) 60 (in_duration v)) as [d|] eqn:Ed; [|discriminate].
  destruct (zOptional transitionConfigSchema (in_transition v)) as [tr|] eqn:Et;
    [|discriminate].
  destruct (zOptional kenBurnsSchema (in_kenBurns v)) as [kb|]; [|discriminate].
  injection H as <-. simpl.
  destruct (zNumber_Some _ _ _ _ Ed) as [-> Hr].
  unfold srcSchema in Es. destruct (_ && _); [|discriminate]. injection Es as <-.
  split; [reflexivity|]. split; [reflexivity|].
  split; [exact Hr|].
  intros tr' Htr. simpl in Htr. subst tr.
  unfold zOptional in Et. destruct (in_transition v) as [ti|]; [|discriminate].
  destruct (transitionConfigSchema ti) as [tc|] eqn:Etc; [|discriminate].
  simpl in Et. injection Et as ->.
  exact (proj2 (proj2 (transitionConfigSchema_Some ti tr' Etc))).
Qed.

Lemma inject_Z_S (n : nat) :
  inject_Z (Z.of_nat (S n)) = inject_Z (Z.of_nat n) + 1.
Proof. rewrite Nat2Z.inj_succ. unfold Z.succ. apply inject_Z_plus. Qed.

Lemma buildTimeline_loop_duration_bounds (images : list ImgSource)
  (rest : list ImageSlide) :
  forall (len i : nat) (t : Q),
    Forall inSchemaRange rest ->
    len = (i + List.length rest)%nat ->
    let n := inject_Z (Z.of_nat (List.length rest)) in
    let total := totalDuration (buildTimeline_loop images len i rest t []) in
    t + (1 # 10) * n <= total /\
    (rest <> [] -> total <= t + 65 * n - 5).
Proof.
  induction rest as [|s rest IH]; intros len i t Hrange Hlen; cbv zeta.
  - cbn [List.length buildTimeline_loop totalDuration Z.of_nat].
    change (inject_Z 0) with 0. split; [lra|congruence].
  - inversion Hrange as [|? ? [Hd Htr] Hrest]; subst.
    rewrite buildTimeline_loop_cons. cbv zeta. simpl totalDuration.
    simpl List.length. rewrite inject_Z_S.
    set (n := inject_Z (Z.of_nat (List.length rest))).
    assert (Hn : 0 <= n).
    { unfold n. rewrite <- (Zle_Qle 0). lia. }
    set (e := entryAt images (i + S (List.length rest)) i s t).
    destruct (IH (i + S (List.length rest))%nat (S i) (entryEnd e) Hrest) as [Hlow Hup]; [lia|].
    fold n in Hlow, Hup.
    assert (He : t + (1 # 10) <= entryEnd e /\
                 entryEnd e <= t + 65 /\
                 (rest = [] -> entryEnd e <= t + 60)).
    { unfold e, entryEnd, entryAt. simpl.
      destruct (transitionToAdd i (i + S (List.length rest)) s) as [tr|] eqn:E; simpl.
      - apply transitionToAdd_Some in E. destruct E as (Hi & Hs & _).
        specialize (Htr tr Hs).
        repeat split; try lra.
        intros ->. simpl in Hi. lia.
      - repeat split; lra. }
    destruct He as (He1 & He2 & He3).
    split; [lra|]. intros _.
    destruct rest as [|s' rest'].
    + specialize (He3 eq_refl).
      cbn [buildTimeline_loop totalDuration].
      assert (Hn0 : n == 0) by reflexivity. lra.
    + assert (Hne : s' :: rest' <> []) by discriminate.
      specialize (Hup Hne). lra.
Qed.

Lemma transitionToAdd_hasRealTransition (i len : nat) (s : ImageSlide) :
  (S i < len)%nat ->
  (match transitionToAdd i len s with Some _ => true | None => false end)
  = hasRealTransition s.
Proof.
  intro Hi. unfold hasRealTransition.
  destruct (transitionToAdd i len s) as [tr|] eqn:E.
  - apply transitionToAdd_Some in E. destruct E as (_ & -> & Hne).
    apply String.eqb_neq in Hne. rewrite Hne. reflexivity.
  - destruct (transition s) as [tr|] eqn:Et; [|reflexivity].
    destruct (String.eqb_spec (transition_type tr) "none") as [_|Hne]; [reflexivity|].
    assert (Hsome : transitionToAdd i len s = Some tr)
      by (apply transitionToAdd_Some; auto).
    congruence.
Qed.

Lemma lastHasRealTransition_cons (s s' : ImageSlide) (rest : list ImageSlide) :
  lastHasRealTransition (s :: s' :: rest) = lastHasRealTransition (s' :: rest).
Proof.
  unfold lastHasRealTransition.
  change (rev (s :: s' :: rest)) with (rev (s' :: rest) ++ [s]).
  destruct (rev (s' :: rest)) as [|x xs] eqn:E; [|reflexivity].
  apply (f_equal (@List.length _)) in E. rewrite length_rev in E. discriminate.
Qed.

Lemma planTimeline_loop_transition_count (rest : list ImageSlide) :
  forall (len i : nat) (t : Q),
    len = (i + List.length rest)%nat ->
    (List.length
       (filter hasPlanTransition (fst (planTimeline_loop len i rest t [])))
     + (if lastHasRealTransition rest then 1 else 0))%nat
    = List.length (filter hasRealTransition rest).
Proof.
  induction rest as [|s rest IH]; intros len i t Hlen.
  - reflexivity.
  - rewrite (planTimeline_loop_service []), buildTimeline_loop_cons.
    cbv zeta. cbn [fst timeline map app].
    specialize (IH len (S i)
                  (entryEnd (entryAt [] len i s t))).
    rewrite (planTimeline_loop_service []) in IH. cbn [fst app] in IH.
    cbn [filter]. unfold hasPlanTransition at 1. cbn [planOf plan_transition entryAt transitionOut].
    destruct rest as [|s' rest'].
    + simpl in Hlen.
      replace i with (len - 1)%nat by lia.
      rewrite transitionToAdd_last.
      unfold lastHasRealTransition. cbn [rev app].
      destruct (hasRealTransition s); reflexivity.
    + rewrite lastHasRealTransition_cons.
      assert (Hi : (S i < len)%nat) by (simpl in Hlen; lia).
      pose proof (transitionToAdd_hasRealTransition i len s Hi) as Hs.
      specialize (IH ltac:(simpl in Hlen; simpl; lia)).
      destruct (transitionToAdd i len s) as [tr|]; rewrite <- Hs;
        cbn [List.length]; lia.
Qed.

Lemma POST_success_inv (rateLimit : RateLimitResult) (body : BodyResult)
  (plan : RenderPlan) :
  POST rateLimit body = Success plan ->
  rateLimit = RateLimit false /\
  exists input config,
    body = BodyJson input /\
    imageToVideoRequestSchema input = Some config /\
    plan =
      mkRenderPlan (config_output config) (config_backgroundColor config)
        (fst (planTimeline_loop (List.length (config_slides config)) 0
                (config_slides config) 0 []))
        (mkPlanMetadata
           (snd (planTimeline_loop (List.length (config_slides config)) 0
                   (config_slides config) 0 []))
           (Qceiling
              (snd (planTimeline_loop (List.length (config_slides config)) 0
                      (config_slides config) 0 [])
               * valid_fps (config_output config)))
           (List.length (config_slides config))
           (List.length (filter hasRealTransition (config_slides config)))).
Proof.
  unfold POST. intro H.
  destruct rateLimit as [[|]|]; try discriminate.
  destruct body as [input| |]; try discriminate.
  destruct (imageToVideoRequestSchema input) as [config|] eqn:E; [|discriminate].
  split; [reflexivity|]. exists input, config.
  split; [reflexivity|]. split; [exact E|].
  destruct (planTimeline_loop _ _ _ _ _) as [tl total]. simpl.
  injection H as <-. reflexivity.
Qed.

Lemma imageToVideoRequestSchema_Some (input : RequestInput) (config : ValidatedConfig) :
  imageToVideoRequestSchema input = Some config ->
  (1 <= List.length (config_slides config) <= 100)%nat /\
  Forall2 (fun v s => imageSlideSchema v = Some s)
    (in_slides input) (config_slides config) /\
  1 <= valid_fps (config_output config) <= 60.
Proof.
  unfold imageToVideoRequestSchema. intro H.
  destruct (zArray imageSlideSchema (in_slides input)) as [slides|] eqn:Es; [|discriminate].
  destruct (outputSchema (in_output input)) as [out|] eqn:Eo; [|discriminate].
  destruct (Nat.leb_spec 1 (List.length slides)); [|discriminate].
  destruct (Nat.leb_spec (List.length slides) 100); [|discriminate].
  simpl in H. injection H as <-. simpl.
  split; [lia|]. split; [apply zArray_Forall2; exact Es|].
  unfold outputSchema in Eo.
  destruct (zDefault (zInt 64 3840) 1920 (in_width (in_output input))); [|discriminate].
  destruct (zDefault (zInt 64 2160) 1080 (in_height (in_output input))); [|discriminate].
  destruct (zDefault (zInt 1 60) 30 (in_fps (in_output input))) as [f|] eqn:Ef;
    [|discriminate].
  destruct (zDefault (zEnum _) _ (in_format _)); [|discriminate].
  destruct (zDefault (zEnum _) _ (in_quality _)); [|discriminate].
  injection Eo as <-. simpl.
  unfold zDefault in Ef. destruct (in_fps (in_output input)) as [v|].
  - destruct (zInt_Some _ _ _ _ Ef) as (-> & Hr & _). exact Hr.
  - injection Ef as <-. split; discriminate.
Qed.

(** X17. A 200 response of the route describes the timeline the service
    builds: for the validated slides (same sources and durations as in the
    body) the plan's entries carry the same intervals and transitions as
    the entries of [buildTimeline], and the metadata's duration, frame
    count and slide count are those of the service at the same frame
    rate. *)
Theorem POST_plan_matches_service :
  forall (rateLimit : RateLimitResult) (body : BodyResult) (plan : RenderPlan),
    POST rateLimit body = Success plan ->
    exists input config,
      body = BodyJson input /\
      imageToVideoRequestSchema input = Some config /\
      Forall2 (fun v s => src s = in_src v /\ duration s = in_duration v)
        (in_slides input) (config_slides config) /\
      forall (images : list ImgSource) (this : ImageToVideoService),
        fps this = valid_fps (config_output config) ->
        let built := buildTimeline (config_slides config) images in
        plan_timeline plan = map planOf (timeline built) /\
        meta_totalDuration (plan_metadata plan) = totalDuration built /\
        meta_totalFrames (plan_metadata plan) =
          Qceiling (totalDuration built * fps this) /\
        meta_slideCount (plan_metadata plan) = List.length (timeline built).
Proof.
  intros rateLimit body plan H.
  destruct (POST_success_inv _ _ _ H) as (_ & input & config & -> & Hschema & ->).
  exists input, config. split; [reflexivity|]. split; [exact Hschema|].
  destruct (imageToVideoRequestSchema_Some _ _ Hschema) as (_ & Hslides & _).
  split.
  - clear - Hslides. induction Hslides as [|v s vs ss Hv _ IH]; constructor.
    + destruct (imageSlideSchema_Some _ _ Hv) as (? & ? & _). auto.
    + exact IH.
  - intros images this Hfps built. simpl.
    destruct (plan_timeline_matches_service (config_slides config) images)
      as (Htl & Htotal & _).
    fold built in Htl, Htotal.
    rewrite Htl, Htotal, Hfps.
    repeat split. subst built. symmetry. apply buildTimeline_length.
Qed.

Lemma buildTimeline_entries_within (slides : list ImageSlide) (images : list ImgSource)
  (e : SlideTimeline) :
  Forall validSlide slides ->
  In e (timeline (buildTimeline slides images)) ->
  0 <= startTime e /\
  duration (slide e) <= endTime e /\
  endTime e <= totalDuration (buildTimeline slides images).
Proof.
  intros Hvalid Hin.
  pose proof (buildTimeline_chained slides images) as Hc.
  pose proof (buildTimeline_valid slides images Hvalid) as Hv.
  destruct (In_nth_error _ _ Hin) as [i Hnth].
  destruct (chained_nth_start _ _ _ _ _ Hc Hv Hnth) as [Hstart Hend].
  destruct (chained_suffix _ _ _ _ _ Hc Hv Hnth) as [_ Hsuf].
  assert (He : validEntry e).
  { eapply Forall_forall; [exact Hv|exact Hin]. }
  destruct (validEntry_order _ _ _ _ Hsuf He) as [_ Hle].
  destruct Hsuf as (_ & Heq & _).
  split; [exact Hstart|]. split; [rewrite Heq; lra|lra].
Qed.

(** X18. A 200 response has between 1 and 100 slides and one plan entry
    per slide; every entry starts at or after 0, ends no earlier than its
    own duration and no later than the total duration, which is at least
    0.1 s and at most [65 n - 5] s (hence at most 6495 s); the frame count
    lies between 1 and 389700. *)
Theorem POST_success_bounds :
  forall (rateLimit : RateLimitResult) (body : BodyResult) (plan : RenderPlan),
    POST rateLimit body = Success plan ->
    let n := meta_slideCount (plan_metadata plan) in
    let total := meta_totalDuration (plan_metadata plan) in
    (1 <= n <= 100)%nat /\
    List.length (plan_timeline plan) = n /\
    1 # 10 <= total /\
    (forall p, In p (plan_timeline plan) ->
       0 <= plan_startTime p /\
       plan_duration p <= plan_endTime p /\
       plan_endTime p <= total) /\
    total <= 65 * inject_Z (Z.of_nat n) - 5 /\
    total <= 6495 /\
    (1 <= meta_totalFrames (plan_metadata plan) <= 389700)%Z.
Proof.
  intros rateLimit body plan H.
  destruct (POST_success_inv _ _ _ H) as (_ & input & config & -> & Hschema & ->).
  destruct (imageToVideoRequestSchema_Some _ _ Hschema) as (Hn & Hslides & Hfps).
  cbv zeta. simpl.
  set (slides := config_slides config) in *.
  assert (Hrange : Forall inSchemaRange slides).
  { clear - Hslides. induction Hslides as [|v s vs ss Hv _ IH]; constructor.
    - exact (proj2 (proj2 (imageSlideSchema_Some _ _ Hv))).
    - exact IH. }
  assert (Hvalid : Forall validSlide slides).
  { eapply Forall_impl; [|exact Hrange].
    intros s [Hd Htr]. split; [lra|].
    intros tr Hs. specialize (Htr tr Hs). lra. }
  destruct (plan_timeline_matches_service slides []) as (Htl & Htotal & Hlen).
  rewrite Htotal.
  destruct (buildTimeline_loop_duration_bounds [] slides (List.length slides) 0 0
              Hrange eq_refl) as [Hlow Hup].
  fold (buildTimeline slides []) in Hlow, Hup.
  assert (Hentries : forall p,
             In p (fst (planTimeline_loop (List.length slides) 0 slides 0 [])) ->
             0 <= plan_startTime p /\ plan_duration p <= plan_endTime p /\
             plan_endTime p <= totalDuration (buildTimeline slides [])).
  { intros p Hp. rewrite Htl in Hp. apply in_map_iff in Hp.
    destruct Hp as (e & <- & He).
    exact (buildTimeline_entries_within slides [] e Hvalid He). }
  set (total := totalDuration (buildTimeline slides [])) in *.
  assert (Hne : slides <> []) by (destruct slides; [simpl in Hn; lia|discriminate]).
  specialize (Hup Hne).
  set (n := inject_Z (Z.of_nat (List.length slides))) in *.
  assert (Hn1 : 1 <= n).
  { unfold n. rewrite <- (Zle_Qle 1). lia. }
  assert (Hn100 : n <= 100).
  { unfold n. rewrite <- (Zle_Qle _ 100). lia. }
  assert (Htot : total <= 6495) by lra.
  split; [exact Hn|]. split; [exact Hlen|].
  split; [lra|]. split; [exact Hentries|]. split; [lra|]. split; [exact Htot|].
  set (f := valid_fps (config_output config)) in *.
  assert (Hpos : 1 # 10 <= total * f).
  { assert (H0 : 0 <= (total - (1 # 10)) * f) by (apply Qmult_le_0_compat; lra).
    assert (H1 : 0 <= (1 # 10) * (f - 1)) by (apply Qmult_le_0_compat; lra).
    lra. }
  assert (Hmax : total * f <= 389700).
  { assert (H0 : 0 <= (6495 - total) * f) by (apply Qmult_le_0_compat; lra).
    assert (H1 : 0 <= 6495 * (60 - f)) by (apply Qmult_le_0_compat; lra).
    lra. }
  split.
  - pose proof (Qle_ceiling (total * f)) as Hc.
    assert (Hz : 0 < inject_Z (Qceiling (total * f))) by lra.
    rewrite <- (Zlt_Qlt 0) in Hz. lia.
  - pose proof (Qceiling_resp_le _ _ Hmax) as Hc.
    change 389700 with (inject_Z 389700) in Hc. rewrite Qceiling_Z in Hc. exact Hc.
Qed.

(** X19. The metadata's [transitionCount] also counts the last slide's
    transition, which the timeline drops: it exceeds the number of plan
    entries with a transition by one exactly when the last slide
    configures a transition other than ["none"]. *)
Theorem POST_transition_count :
  forall (rateLimit : RateLimitResult) (body : BodyResult) (plan : RenderPlan),
    POST rateLimit body = Success plan ->
    exists input config,
      body = BodyJson input /\
      imageToVideoRequestSchema input = Some config /\
      (List.length (filter hasPlanTransition (plan_timeline plan))
       + (if lastHasRealTransition (config_slides config) then 1 else 0))%nat
      = meta_transitionCount (plan_metadata plan).
Proof.
  intros rateLimit body plan H.
  destruct (POST_success_inv _ _ _ H) as (_ & input & config & -> & Hschema & ->).
  exists input, config. split; [reflexivity|]. split; [exact Hschema|].
  simpl. apply planTimeline_loop_transition_count. reflexivity.
Qed.

Lemma zArray_None {A B : Type} (schema : A -> option B) (vs : list A) :
  Exists (fun v => schema v = None) vs -> zArray schema vs = None.
Proof.
  induction 1 as [v vs Hv|v vs _ IH]; simpl.
  - rewrite Hv. reflexivity.
  - rewrite IH. destruct (schema v); reflexivity.
Qed.

Lemma zArray_length {A B : Type} (schema : A -> option B) (vs : list A) (bs : list B) :
  zArray schema vs = Some bs -> List.length bs = List.length vs.
Proof.
  intro H. apply zArray_Forall2 in H.
  induction H; simpl; congruence.
Qed.

(** X20. The route rejects with 400 a body with no slides, with more than
    100 slides, or with a slide duration below 0.1 or above 60 (in
    particular a non-positive one); a rate-limited call is answered 429
    whatever the body. *)
Theorem POST_rejects_invalid_input :
  forall (input : RequestInput),
    in_slides input = [] \/
    (100 < List.length (in_slides input))%nat \/
    Exists (fun v => in_duration v < 1 # 10 \/ 60 < in_duration v) (in_slides input) ->
    POST (RateLimit false) (BodyJson input) = InvalidRequest /\
    forall body, POST (RateLimit true) body = TooManyRequests.
Proof.
  intros input Hbad. split; [|reflexivity].
  assert (Hnone : imageToVideoRequestSchema input = None).
  { unfold imageToVideoRequestSchema.
    destruct (zArray imageSlideSchema (in_slides input)) as [slides|] eqn:Es;
      [|reflexivity].
    pose proof (zArray_length _ _ _ Es) as Hlen.
    destruct Hbad as [Hempty|[Hmany|Hdur]].
    - rewrite Hempty in Hlen. destruct slides; [|discriminate].
      destruct (outputSchema (in_output input)); reflexivity.
    - destruct (outputSchema (in_output input)); [|reflexivity].
      destruct (Nat.leb_spec (List.length slides) 100); [lia|].
      rewrite andb_false_r. reflexivity.
    - exfalso.
      assert (Hex : Exists (fun v => imageSlideSchema v = None) (in_slides input)).
      { eapply Exists_impl; [|exact Hdur].
        intros v Hv. unfold imageSlideSchema.
        assert (Hz : zNumber (1 # 10) 60 (in_duration v) = None).
        { unfold zNumber.
          destruct (Qle_bool (1 # 10) (in_duration v)) eqn:E1;
            destruct (Qle_bool (in_duration v) 60) eqn:E2; try reflexivity.
          apply Qle_bool_iff in E1. apply Qle_bool_iff in E2.
          destruct Hv; lra. }
        rewrite Hz. destruct (srcSchema (in_src v)); reflexivity. }
      rewrite (zArray_None _ _ Hex) in Es. discriminate. }
  unfold POST. rewrite Hnone. reflexivity.
Qed.

(** X21. A configuration that passes the request schema has at least one
    slide, positive slide and transition durations, a positive frame rate
    and dimensions within 64..3840 by 64..2160. *)
Theorem validated_request_meets_renderer_preconditions :
  forall (input : RequestInput) (config : ValidatedConfig),
    imageToVideoRequestSchema input = Some config ->
    config_slides config <> [] /\
    Forall validSlide (config_slides config) /\
    0 < valid_fps (config_output config) /\
    64 <= valid_width (config_output config) <= 3840 /\
    64 <= valid_height (config_output config) <= 2160.
Proof.
  intros input config Hschema.
  destruct (imageToVideoRequestSchema_Some _ _ Hschema) as (Hn & Hslides & Hfps).
  split; [intro Hnil; rewrite Hnil in Hn; simpl in Hn; lia|].
  split; [|split; [lra|]].
  - clear - Hslides. induction Hslides as [|v s vs ss Hv _ IH]; constructor.
    + destruct (imageSlideSchema_Some _ _ Hv) as (_ & _ & Hd & Htr).
      split; [lra|]. intros tr Hs. specialize (Htr tr Hs). lra.
    + exact IH.
  - unfold imageToVideoRequestSchema in Hschema.
    destruct (zArray imageSlideSchema (in_slides input)); [|discriminate].
    destruct (outputSchema (in_output input)) as [out|] eqn:Eo; [|discriminate].
    destruct (_ && _); [|discriminate]. injection Hschema as <-. simpl.
    unfold outputSchema in Eo.
    destruct (zDefault (zInt 64 3840) 1920 (in_width (in_output input))) as [w|] eqn:Ew;
      [|discriminate].
    destruct (zDefault (zInt 64 2160) 1080 (in_height (in_output input))) as [h|] eqn:Eh;
      [|discriminate].
    destruct (zDefault (zInt 1 60) 30 (in_fps (in_output input))); [|discriminate].
    destruct (zDefault (zEnum _) _ (in_format _)); [|discriminate].
    destruct (zDefault (zEnum _) _ (in_quality _)); [|discriminate].
    injection Eo as <-. simpl.
    unfold zDefault in Ew, Eh.
    split.
    + destruct (in_width (in_output input)) as [v|].
      * destruct (zInt_Some _ _ _ _ Ew) as (-> & Hr & _). exact Hr.
      * injection Ew as <-. split; discriminate.
    + destruct (in_height (in_output input)) as [v|].
      * destruct (zInt_Some _ _ _ _ Eh) as (-> & Hr & _). exact Hr.
      * injection Eh as <-. split; discriminate.
Qed.

(** ** Frame loops and the slideshow page *)

Lemma generate_frameLoop_spec (cancelled : Z -> bool) (renderFrame : Z -> Paint)
  (addFrame : Z -> option JsError) (n : nat) :
  forall (a : nat),
    let result :=
      generate_frameLoop cancelled renderFrame addFrame (map Z.of_nat (seq a n)) in
    let k := List.length (fst result) in
    (k <= n)%nat /\
    fst result = map (fun i => (Z.of_nat i, renderFrame (Z.of_nat i))) (seq a k) /\
    (forall i, (a <= i < a + k)%nat -> cancelled (Z.of_nat i) = false) /\
    (snd result = LoopDone ->
     k = n /\ forall i, (a <= i < a + n)%nat ->
                        thrown (renderFrame (Z.of_nat i)) = None /\
                        addFrame (Z.of_nat i) = None) /\
    (snd result = LoopCancelled ->
     (k < n)%nat /\ cancelled (Z.of_nat (a + k)) = true) /\
    (forall e, snd result = LoopThrew e ->
       (1 <= k)%nat /\
       (thrown (renderFrame (Z.of_nat (a + k - 1))) = Some e \/
        addFrame (Z.of_nat (a + k - 1)) = Some e)).
Proof.
  induction n as [|n IH]; intro a; cbv zeta.
  - simpl. repeat split; try lia; try discriminate.
  - cbn [seq map generate_frameLoop].
    destruct (cancelled (Z.of_nat a)) eqn:Ec.
    + simpl. repeat split; try lia; try discriminate.
      rewrite Nat.add_0_r. exact Ec.
    + destruct (thrown (renderFrame (Z.of_nat a))) as [e|] eqn:Et.
      * simpl. split; [lia|]. split; [reflexivity|].
        split; [intros i Hi; replace i with a by lia; exact Ec|].
        split; [discriminate|]. split; [discriminate|].
        intros e' [= <-]. split; [lia|]. left.
        replace (a + 1 - 1)%nat with a by lia. exact Et.
      * destruct (addFrame (Z.of_nat a)) as [e|] eqn:Ea.
        -- simpl. split; [lia|]. split; [reflexivity|].
           split; [intros i Hi; replace i with a by lia; exact Ec|].
           split; [discriminate|]. split; [discriminate|].
           intros e' [= <-]. split; [lia|]. right.
           replace (a + 1 - 1)%nat with a by lia. exact Ea.
        -- specialize (IH (S a)). cbv zeta in IH.
           destruct (generate_frameLoop cancelled renderFrame addFrame
                       (map Z.of_nat (seq (S a) n))) as [later outcome].
           cbn [fst snd List.length] in *.
           destruct IH as (Hk & Hlist & Hnc & Hdone & Hcancel & Hthrew).
           split; [lia|]. split; [cbn [seq map]; rewrite Hlist at 1; reflexivity|].
           split; [|split; [|split]].
           ++ intros i Hi. destruct (Nat.eq_dec i a) as [->|Hne]; [exact Ec|].
              apply Hnc. lia.
           ++ intro Ho. destruct (Hdone Ho) as [Hkn Hall].
              split; [lia|].
              intros i Hi. destruct (Nat.eq_dec i a) as [->|Hne]; [auto|].
              apply Hall. lia.
           ++ intro Ho. destruct (Hcancel Ho) as [Hkn Hc].
              split; [lia|].
              replace (a + S (List.length later))%nat
                with (S a + List.length later)%nat by lia.
              exact Hc.
           ++ intros e Ho. destruct (Hthrew e Ho) as [Hk1 Hwhy].
              split; [lia|].
              replace (a + S (List.length later) - 1)%nat
                with (S a + List.length later - 1)%nat by lia.
              exact Hwhy.
Qed.

Lemma frameIndices_of_nat (k : nat) : frameIndices (Z.of_nat k) = map Z.of_nat (seq 0 k).
Proof. unfold frameIndices. rewrite Nat2Z.id. reflexivity. Qed.

(** X22. The frame loop of [generate] calls [renderFrame] with the indices
    0, 1, 2, ... in order, each once, and at most [totalFrames] of them.
    It completes only if no frame threw and the cancel flag was never seen
    set; once the flag is seen at iteration [c] no frame from [c] on is
    rendered, and if nothing failed before, the loop ends as cancelled
    with exactly the frames below [c] rendered. *)
Theorem generate_frameLoop_order_and_cancel :
  forall (cancelled : Z -> bool) (renderFrame : Z -> Paint)
         (addFrame : Z -> option JsError) (totalFrames : Z),
    let result :=
      generate_frameLoop cancelled renderFrame addFrame (frameIndices totalFrames) in
    let k := List.length (fst result) in
    (k <= Z.to_nat totalFrames)%nat /\
    fst result = map (fun i => (i, renderFrame i)) (frameIndices (Z.of_nat k)) /\
    (forall i, (0 <= i < Z.of_nat k)%Z -> cancelled i = false) /\
    (snd result = LoopDone ->
     k = Z.to_nat totalFrames /\
     forall i, (0 <= i < totalFrames)%Z -> thrown (renderFrame i) = None) /\
    (snd result = LoopCancelled ->
     cancelled (Z.of_nat k) = true /\ (Z.of_nat k < totalFrames)%Z) /\
    (forall c, (0 <= c < totalFrames)%Z -> cancelled c = true ->
               snd result <> LoopDone /\ (Z.of_nat k <= c)%Z) /\
    (forall c, (0 <= c < totalFrames)%Z -> cancelled c = true ->
               (forall i, (0 <= i < c)%Z ->
                          cancelled i = false /\
                          thrown (renderFrame i) = None /\ addFrame i = None) ->
               snd result = LoopCancelled /\ Z.of_nat k = c).
Proof.
  intros cancelled renderFrame addFrame totalFrames result k.
  destruct (generate_frameLoop_spec cancelled renderFrame addFrame
              (Z.to_nat totalFrames) 0) as (Hk & Hlist & Hnc & Hdone & Hcancel & Hthrew).
  fold (frameIndices totalFrames) in Hk, Hlist, Hnc, Hdone, Hcancel, Hthrew.
  fold result in Hk, Hlist, Hnc, Hdone, Hcancel, Hthrew.
  fold k in Hk, Hlist, Hnc, Hdone, Hcancel, Hthrew.
  assert (Hnc' : forall i, (0 <= i < Z.of_nat k)%Z -> cancelled i = false).
  { intros i Hi. rewrite <- (Z2Nat.id i) by lia. apply Hnc. lia. }
  assert (Hstop : forall c, (0 <= c < totalFrames)%Z -> cancelled c = true ->
                            snd result <> LoopDone /\ (Z.of_nat k <= c)%Z).
  { intros c Hc Hset.
    assert (Hle : (Z.of_nat k <= c)%Z).
    { destruct (Z.le_gt_cases (Z.of_nat k) c) as [H|H]; [exact H|].
      rewrite Hnc' in Hset by lia. discriminate. }
    split; [|exact Hle].
    intro Ho. destruct (Hdone Ho) as [Hkn _].
    rewrite Hnc' in Hset by lia. discriminate. }
  split; [exact Hk|].
  split; [|split; [exact Hnc'|split; [|split; [|split; [exact Hstop|]]]]].
  - rewrite Hlist, frameIndices_of_nat, map_map. reflexivity.
  - intro Ho. destruct (Hdone Ho) as [Hkn Hall]. split; [exact Hkn|].
    intros i Hi. rewrite <- (Z2Nat.id i) by lia. apply Hall. lia.
  - intro Ho. destruct (Hcancel Ho) as [Hkn Hc]. split; [exact Hc|lia].
  - intros c Hc Hset Hbefore.
    destruct (Hstop c Hc Hset) as [Hnd Hle].
    destruct (snd result) as [| |e] eqn:Eo; [congruence| |].
    + split; [reflexivity|].
      destruct (Hcancel eq_refl) as [_ Hck]. simpl in Hck.
      destruct (Z.eq_dec (Z.of_nat k) c) as [Heq|Hne]; [exact Heq|].
      destruct (Hbefore (Z.of_nat k)) as [Hf _]; [lia|]. congruence.
    + exfalso. destruct (Hthrew e eq_refl) as [Hk1 Hwhy]. simpl in Hwhy.
      destruct (Hbefore (Z.of_nat (k - 1))) as (_ & Hok & Hadd); [lia|].
      destruct Hwhy; congruence.
Qed.

Lemma renderWithMediaRecorder_loop_spec (renderFrame : Z -> Paint) (total : Z)
  (onProgress : Z -> Z -> option JsError) (n : nat) :
  forall (a : nat),
    let result :=
      renderWithMediaRecorder_loop renderFrame total onProgress
        (map Z.of_nat (seq a n)) in
    let k := List.length (fst result) in
    (k <= n)%nat /\
    fst result = map (fun i => (Z.of_nat i, renderFrame (Z.of_nat i))) (seq a k) /\
    (forall i, (a <= i < a + k)%nat -> onProgress (Z.of_nat i + 1)%Z total = None) /\
    (snd result = LoopDone ->
     k = n /\ forall i, (a <= i < a + n)%nat ->
                        thrown (renderFrame (Z.of_nat i)) = None) /\
    (forall e, snd result = LoopThrew e ->
       ((k < n)%nat /\ onProgress (Z.of_nat (a + k) + 1)%Z total = Some e) \/
       ((1 <= k)%nat /\ thrown (renderFrame (Z.of_nat (a + k - 1))) = Some e)) /\
    snd result <> LoopCancelled.
Proof.
  induction n as [|n IH]; intro a; cbv zeta.
  - simpl. repeat split; try lia; try discriminate.
  - cbn [seq map renderWithMediaRecorder_loop].
    destruct (onProgress (Z.of_nat a + 1)%Z total) as [e|] eqn:Ep.
    + simpl. repeat split; try lia; try discriminate.
      intros e' [= <-]. left. split; [lia|]. rewrite Nat.add_0_r. exact Ep.
    + destruct (thrown (renderFrame (Z.of_nat a))) as [e|] eqn:Et.
      * simpl. repeat split; try lia; try discriminate.
        -- intros i Hi. replace i with a by lia. exact Ep.
        -- intros e' [= <-]. right. split; [lia|].
           replace (a + 1 - 1)%nat with a by lia. exact Et.
      * specialize (IH (S a)). cbv zeta in IH.
        destruct (renderWithMediaRecorder_loop renderFrame total onProgress
                    (map Z.of_nat (seq (S a) n))) as [later outcome].
        cbn [fst snd List.length] in *.
        destruct IH as (Hk & Hlist & Hnp & Hdone & Hthrew & Hnot).
        split; [lia|]. split; [cbn [seq map]; rewrite Hlist at 1; reflexivity|].
        split; [|split; [|split; [|exact Hnot]]].
        -- intros i Hi. destruct (Nat.eq_dec i a) as [->|Hne]; [exact Ep|].
           apply Hnp. lia.
        -- intro Ho. destruct (Hdone Ho) as [Hkn Hall].
           split; [lia|].
           intros i Hi. destruct (Nat.eq_dec i a) as [->|Hne]; [exact Et|].
           apply Hall. lia.
        -- intros e Ho. destruct (Hthrew e Ho) as [[Hkn Hp]|[Hk1 Hthrown]].
           ++ left. split; [lia|].
              replace (a + S (List.length later))%nat
                with (S a + List.length later)%nat by lia. exact Hp.
           ++ right. split; [lia|].
              replace (a + S (List.length later) - 1)%nat
                with (S a + List.length later - 1)%nat by lia. exact Hthrown.
Qed.

(** X23. [renderWithMediaRecorder], driven by the progress callback of
    [handleRender], renders the frames 0, 1, 2, ... in order, each once.
    The callback for frame [c] runs before that frame is rendered and is
    passed [c + 1]; if it sees the cancel flag set, the loop stops with
    the error "Cancelled" and no frame from [c] on is rendered. *)
Theorem renderWithMediaRecorder_order_and_cancel :
  forall (cancelled : Z -> bool) (renderFrame : Z -> Paint) (totalFrames : Z),
    let result :=
      renderWithMediaRecorder renderFrame totalFrames
        (handleRender_onProgress cancelled) in
    let k := List.length (fst result) in
    (k <= Z.to_nat totalFrames)%nat /\
    fst result = map (fun i => (i, renderFrame i)) (frameIndices (Z.of_nat k)) /\
    (forall i, (0 <= i < Z.of_nat k)%Z -> cancelled (i + 1)%Z = false) /\
    (snd result = LoopDone ->
     k = Z.to_nat totalFrames /\
     forall i, (0 <= i < totalFrames)%Z -> thrown (renderFrame i) = None) /\
    (forall c, (0 <= c < totalFrames)%Z -> cancelled (c + 1)%Z = true ->
               snd result <> LoopDone /\ (Z.of_nat k <= c)%Z) /\
    (forall c, (0 <= c < totalFrames)%Z -> cancelled (c + 1)%Z = true ->
               (forall i, (0 <= i < c)%Z ->
                          cancelled (i + 1)%Z = false /\
                          thrown (renderFrame i) = None) ->
               snd result = LoopThrew (Error "Cancelled") /\ Z.of_nat k = c).
Proof.
  intros cancelled renderFrame totalFrames result k.
  destruct (renderWithMediaRecorder_loop_spec renderFrame totalFrames
              (handleRender_onProgress cancelled) (Z.to_nat totalFrames) 0)
    as (Hk & Hlist & Hnp & Hdone & Hthrew & Hnot).
  fold (frameIndices totalFrames) in Hk, Hlist, Hnp, Hdone, Hthrew, Hnot.
  fold (renderWithMediaRecorder renderFrame totalFrames
          (handleRender_onProgress cancelled)) in Hk, Hlist, Hnp, Hdone, Hthrew, Hnot.
  fold result in Hk, Hlist, Hnp, Hdone, Hthrew, Hnot.
  fold k in Hk, Hlist, Hnp, Hdone, Hthrew, Hnot.
  assert (Hnc : forall i, (0 <= i < Z.of_nat k)%Z -> cancelled (i + 1)%Z = false).
  { intros i Hi. specialize (Hnp (Z.to_nat i)).
    rewrite Z2Nat.id in Hnp by lia.
    unfold handleRender_onProgress in Hnp.
    destruct (cancelled (i + 1)%Z); [|reflexivity].
    assert (Hx : Some (Error "Cancelled") = None) by (apply Hnp; lia).
    discriminate. }
  assert (Hstop : forall c, (0 <= c < totalFrames)%Z -> cancelled (c + 1)%Z = true ->
                            snd result <> LoopDone /\ (Z.of_nat k <= c)%Z).
  { intros c Hc Hset.
    assert (Hle : (Z.of_nat k <= c)%Z).
    { destruct (Z.le_gt_cases (Z.of_nat k) c) as [H|H]; [exact H|].
      rewrite Hnc in Hset by lia. discriminate. }
    split; [|exact Hle].
    intro Ho. destruct (Hdone Ho) as [Hkn _].
    rewrite Hnc in Hset by lia. discriminate. }
  split; [exact Hk|]. split; [|split; [exact Hnc|split; [|split; [exact Hstop|]]]].
  - rewrite Hlist, frameIndices_of_nat, map_map. reflexivity.
  - intro Ho. destruct (Hdone Ho) as [Hkn Hall]. split; [exact Hkn|].
    intros i Hi. rewrite <- (Z2Nat.id i) by lia. apply Hall. lia.
  - intros c Hc Hset Hbefore.
    destruct (Hstop c Hc Hset) as [Hnd Hle].
    destruct (snd result) as [| |e] eqn:Eo; [congruence|congruence|].
    destruct (Hthrew e eq_refl) as [[Hkn Hp]|[Hk1 Hthrown]].
    + unfold handleRender_onProgress in Hp. simpl in Hp.
      destruct (cancelled (Z.of_nat k + 1)%Z) eqn:Ec; [|discriminate].
      injection Hp as <-. split; [reflexivity|].
      destruct (Z.eq_dec (Z.of_nat k) c) as [Heq|Hne]; [exact Heq|].
      destruct (Hbefore (Z.of_nat k)) as [Hf _]; [lia|]. congruence.
    + exfalso. simpl in Hthrown.
      destruct (Hbefore (Z.of_nat (k - 1))) as [_ Hok]; [lia|]. congruence.
Qed.

Lemma slideConfigs_spec (fileToDataUri : File -> Completion string) (len : nat)
  (rest : list SlideItem) :
  forall (i : nat) (configs : list ImageSlide),
    len = (i + List.length rest)%nat ->
    slideConfigs fileToDataUri len i rest = Normal configs ->
    Forall2
      (fun item s =>
         fileToDataUri (item_file item) = Normal (src s) /\
         duration s = item_duration item /\ kenBurns s = None)
      rest configs /\
    forall j s,
      nth_error configs j = Some s ->
      transitionToAdd (i + j) len s = transition s /\
      exists item,
        nth_error rest j = Some item /\
        ((exists tr, transition s = Some tr) <->
         ((S (i + j) < len)%nat /\ item_transitionType item <> "none"%string)).
Proof.
  induction rest as [|item rest IH]; intros i configs Hlen H; simpl in H.
  - injection H as <-. split; [constructor|].
    intros j s Hj. destruct j; discriminate.
  - destruct (fileToDataUri (item_file item)) as [dataUri|e] eqn:Ef; [|discriminate].
    simpl in H.
    destruct (slideConfigs fileToDataUri len (S i) rest) as [later|e] eqn:El;
      [|discriminate].
    simpl in H. injection H as <-.
    destruct (IH (S i) later) as [Hall Hnth]; [simpl in Hlen; lia|exact El|].
    split; [constructor; [simpl; auto|exact Hall]|].
    intros j s Hj. destruct j as [|j]; simpl in Hj.
    + injection Hj as <-. rewrite Nat.add_0_r.
      set (isLast := (Z.of_nat i =? Z.of_nat len - 1)%Z).
      set (real := negb (String.eqb (item_transitionType item) "none")).
      assert (Hlast : isLast = false <-> (S i < len)%nat).
      { unfold isLast. destruct (Z.eqb_spec (Z.of_nat i) (Z.of_nat len - 1));
          simpl in Hlen; split; intros; try discriminate; try reflexivity; lia. }
      assert (Hreal : real = true <-> item_transitionType item <> "none"%string).
      { unfold real. rewrite negb_true_iff. apply String.eqb_neq. }
      split.
      * unfold transitionToAdd. simpl transition.
        destruct isLast eqn:E1; simpl.
        -- destruct (Z.ltb_spec (Z.of_nat i) (Z.of_nat len - 1)) as [Hlt|_];
             [|reflexivity].
           exfalso. assert (Hx : (S i < len)%nat) by lia.
           apply Hlast in Hx. discriminate.
        -- destruct (Z.ltb_spec (Z.of_nat i) (Z.of_nat len - 1)) as [_|Hge].
           ++ destruct real eqn:E2; [|reflexivity]. simpl. fold real. rewrite E2.
              reflexivity.
           ++ exfalso. assert (Hx : (S i < len)%nat) by (apply Hlast; reflexivity). lia.
      * exists item. split; [reflexivity|]. simpl transition.
        destruct isLast eqn:E1; destruct real eqn:E2; simpl; split.
        -- intros [tr Htr]. discriminate.
        -- intros [Hx _]. apply Hlast in Hx. discriminate.
        -- intros [tr Htr]. discriminate.
        -- intros [Hx _]. apply Hlast in Hx. discriminate.
        -- intros _. split; [apply Hlast; reflexivity|apply Hreal; reflexivity].
        -- intros _. eauto.
        -- intros [tr Htr]. discriminate.
        -- intros [_ Hx]. apply Hreal in Hx. discriminate.
    + destruct (Hnth j s Hj) as (Hadd & item' & Hitem & Hiff).
      replace (i + S j)%nat with (S i + j)%nat by lia.
      split; [exact Hadd|]. exists item'. split; [exact Hitem|exact Hiff].
Qed.

(** X24. [handleRender] builds no request for an empty slide list.  The
    request it builds has one slide per item with the item's duration and
    no Ken Burns spec, and configures a transition exactly for the items
    that are not last and whose transition type is not ["none"]; so
    every transition of the request gets its interval in the timeline. *)
Theorem handleRender_request_transitions_honoured :
  forall (fileToDataUri : File -> Completion string) (items : list SlideItem)
         (outputWidth outputHeight outputFps : Q),
    (handleRender_request fileToDataUri items outputWidth outputHeight outputFps = None
     <-> items = []) /\
    forall request,
      handleRender_request fileToDataUri items outputWidth outputHeight outputFps
        = Some (Normal request) ->
      slides request <> [] /\
      List.length (slides request) = List.length items /\
      (forall j s,
          nth_error (slides request) j = Some s ->
          kenBurns s = None /\
          exists item,
            nth_error items j = Some item /\
            duration s = item_duration item /\
            ((exists tr, transition s = Some tr) <->
             ((S j < List.length items)%nat /\
              item_transitionType item <> "none"%string))) /\
      (forall images j e,
          nth_error (timeline (buildTimeline (slides request) images)) j = Some e ->
          (transitionOut e = None <-> transition (slide e) = None)).
Proof.
  intros fileToDataUri items w h f. unfold handleRender_request. split.
  - destruct items; simpl; split; intro H; try reflexivity; discriminate.
  - intros request H.
    destruct items as [|item0 items0] eqn:Eitems; [discriminate|].
    rewrite <- Eitems in *.
    assert (Hnz : (List.length items =? 0)%nat = false) by (rewrite Eitems; reflexivity).
    rewrite Hnz in H. injection H as H.
    destruct (slideConfigs fileToDataUri (List.length items) 0 items) as [configs|e] eqn:Ec;
      [|discriminate].
    simpl in H. injection H as <-. simpl slides.
    destruct (slideConfigs_spec fileToDataUri (List.length items) items 0 configs
                eq_refl Ec) as [Hall Hnth].
    assert (Hlen : List.length configs = List.length items).
    { symmetry. eapply Forall2_length. exact Hall. }
    split; [intros ->; rewrite Eitems in Hlen; discriminate|].
    split; [exact Hlen|]. split.
    + intros j s Hj.
      destruct (Hnth j s Hj) as (_ & item & Hitem & Hiff).
      assert (Hpair : duration s = item_duration item /\ kenBurns s = None).
      { clear - Hall Hj Hitem. revert j Hj Hitem.
        induction Hall as [|it c its cs Hc _ IH]; intros j Hj Hitem.
        - destruct j; discriminate.
        - destruct j as [|j]; simpl in Hj, Hitem.
          + injection Hj as <-. injection Hitem as <-. tauto.
          + eapply IH; eassumption. }
      split; [tauto|]. exists item. split; [exact Hitem|]. split; [tauto|exact Hiff].
    + intros images j e He.
      assert (Hj : (j < List.length configs)%nat).
      { rewrite <- (buildTimeline_length configs images). apply nth_error_Some. congruence. }
      destruct (nth_error configs j) as [s|] eqn:Es;
        [|apply nth_error_None in Es; lia].
      destruct (buildTimeline_loop_cursor configs images configs [] 0 eq_refl (Qeq_refl 0))
        as [Hentries _].
      destruct (Hentries j s Es) as (e' & He' & Hform & _).
      simpl List.length in He', Hform. simpl Nat.add in Hform.
      change (buildTimeline_loop images (List.length configs) 0 configs 0 [])
        with (buildTimeline configs images) in He'.
      assert (e' = e) by congruence. subst e'.
      destruct (Hnth j s Es) as (Hadd & _). simpl in Hadd.
      rewrite Hform. simpl. rewrite Hlen in *. rewrite Hadd.
      destruct (transition s); split; intro; congruence.
Qed.

Lemma getSupportedMimeType_loop_spec (isTypeSupported : string -> bool)
  (types : list string) :
  let chosen := getSupportedMimeType_loop isTypeSupported types in
  (isTypeSupported chosen = true /\
   exists before after,
     types = before ++ chosen :: after /\
     forall t, In t before -> isTypeSupported t = false) \/
  (chosen = "video/webm"%string /\
   forall t, In t types -> isTypeSupported t = false).
Proof.
  induction types as [|type rest IH]; cbv zeta; simpl.
  - right. split; [reflexivity|]. intros t [].
  - destruct (isTypeSupported type) eqn:E.
    + left. split; [exact E|]. exists [], rest. split; [reflexivity|]. intros t [].
    + destruct IH as [(Hsup & before & after & Heq & Hbefore)|(Hdef & Hnone)].
      * left. split; [exact Hsup|].
        exists (type :: before), after. split; [simpl; rewrite <- Heq; reflexivity|].
        intros t [<-|Hin]; [exact E|apply Hbefore; exact Hin].
      * right. split; [exact Hdef|].
        intros t [<-|Hin]; [exact E|apply Hnone; exact Hin].
Qed.

(** X25. [getSupportedMimeType] always returns one of its four
    candidates.  If the recorder supports any of them, it returns the
    first supported one in order of preference; if it supports none, it
    still returns ["video/webm"], a type the recorder does not support. *)
Theorem getSupportedMimeType_first_supported :
  forall (isTypeSupported : string -> bool),
    let chosen := getSupportedMimeType isTypeSupported in
    In chosen mimeTypeCandidates /\
    (forall t, In t mimeTypeCandidates -> isTypeSupported t = true ->
       isTypeSupported chosen = true /\
       exists before after,
         mimeTypeCandidates = before ++ chosen :: after /\
         forall t', In t' before -> isTypeSupported t' = false) /\
    ((forall t, In t mimeTypeCandidates -> isTypeSupported t = false) ->
     chosen = "video/webm"%string /\ isTypeSupported chosen = false).
Proof.
  intros isTypeSupported chosen.
  pose proof (getSupportedMimeType_loop_spec isTypeSupported mimeTypeCandidates)
    as Hspec.
  cbv zeta in Hspec.
  change (getSupportedMimeType_loop isTypeSupported mimeTypeCandidates)
    with chosen in Hspec.
  clearbody chosen.
  destruct Hspec as [(Hsup & before & after & Heq & Hbefore)|(Hdef & Hnone)].
  - split; [rewrite Heq; apply in_or_app; right; left; reflexivity|].
    split.
    + intros t _ _. split; [exact Hsup|]. exists before, after. auto.
    + intro Hnone. rewrite Hnone in Hsup; [discriminate|].
      rewrite Heq. apply in_or_app. right. left. reflexivity.
  - split; [rewrite Hdef; simpl; tauto|].
    split.
    + intros t Hin Ht. rewrite (Hnone t Hin) in Ht. discriminate.
    + intros _. split; [exact Hdef|].
      apply Hnone. rewrite Hdef. simpl. tauto.
Qed.

(** ** The further properties at concrete inputs *)

Lemma applyEasing_monotone_witness :
  1 # 4 <= 3 # 4 /\
  applyEasing (1 # 4) "ease-in-out" <= applyEasing (3 # 4) "ease-in-out".
Proof.
  assert (H : 1 # 4 <= 3 # 4) by discriminate.
  split; [exact H|]. exact (applyEasing_monotone _ _ "ease-in-out" H).
Defined.

Lemma applyEasing_unknown_is_linear_witness :
  ~ In "bounce"%string EasingType_values /\
  applyEasing (1 # 4) "bounce" = applyEasing (1 # 4) "linear".
Proof.
  assert (H : ~ In "bounce"%string EasingType_values).
  { simpl. intro H. repeat (destruct H as [H|H]; [discriminate H|]). exact H. }
  split; [exact H|]. exact (proj1 (applyEasing_unknown_is_linear (1 # 4) _ H)).
Defined.

Lemma drawImage_cover_fit_witness :
  0 < img_width wideImage /\ 0 < img_height wideImage /\
  exists x y sw sh,
    calls (drawImage (Some wideImage) 1920 1080 1) =
      [Save; SetGlobalAlpha 1; DrawImage wideImage x y sw sh; Restore] /\
    x <= 0 /\ 1920 <= x + sw /\ sh == 1080.
Proof.
  assert (Hw : 0 < img_width wideImage) by reflexivity.
  assert (Hh : 0 < img_height wideImage) by reflexivity.
  split; [exact Hw|]. split; [exact Hh|].
  destruct (drawImage_cover_fit exampleService wideImage 1920 1080 1 Hw Hh)
    as (x & y & sw & sh & Hcalls & _ & Hx & _ & Hcover & _).
  exists x, y, sw, sh. split; [exact Hcalls|]. split; [exact Hx|]. split; [exact Hcover|].
  unfold drawImage in Hcalls. vm_compute in Hcalls.
  injection Hcalls as _ _ _ <-. reflexivity.
Defined.

Lemma renderFlip_scale_positive_witness :
  exists sy,
    In (Scale 1 sy) (calls (renderFlip (Some wideImage) None (1 # 2) 1920 1080)) /\
    0 < sy.
Proof.
  exists (number_or (((1 # 2) - (1 # 2)) * 2) (1 # 1000)).
  assert (Hin : In (Scale 1 (number_or (((1 # 2) - (1 # 2)) * 2) (1 # 1000)))
                  (calls (renderFlip (Some wideImage) None (1 # 2) 1920 1080))).
  { right. right. left. reflexivity. }
  split; [exact Hin|].
  exact (proj1 (proj2 (renderFlip_scale_positive _ _ _ _ _ _ _ Hin))).
Defined.

Lemma renderBlur_radius_bounds_witness :
  exists px,
    In (SetFilter (FilterBlur px))
       (calls (renderBlur (Some wideImage) None (1 # 4) 1920 1080)) /\
    0 <= 1 # 4 <= 1 /\ 0 <= px <= 20.
Proof.
  exists ((1 # 4) / (1 # 2) * 20).
  assert (Hin : In (SetFilter (FilterBlur ((1 # 4) / (1 # 2) * 20)))
                  (calls (renderBlur (Some wideImage) None (1 # 4) 1920 1080))).
  { right. left. reflexivity. }
  assert (Hp : 0 <= 1 # 4 <= 1) by (split; discriminate).
  split; [exact Hin|]. split; [exact Hp|].
  exact (proj1 (renderBlur_radius_bounds _ _ _ _ _ _ Hin Hp)).
Defined.

Lemma renderWipe_clip_rectangle_witness :
  In (Rect 0 0 (1920 * (1 # 4)) 1080)
     (calls (renderWipe None (Some wideImage) (1 # 4) 1920 1080 dir_left)) /\
  0 <= 1 # 4 <= 1 /\ 0 <= 1920 /\ 0 <= 1080 /\
  1920 * (1 # 4) * 1080 == (1 # 4) * (1920 * 1080).
Proof.
  assert (Hin : In (Rect 0 0 (1920 * (1 # 4)) 1080)
                  (calls (renderWipe None (Some wideImage) (1 # 4) 1920 1080 dir_left))).
  { right. right. left. reflexivity. }
  assert (Hp : 0 <= 1 # 4 <= 1) by (split; discriminate).
  assert (Hw : 0 <= 1920) by discriminate.
  assert (Hh : 0 <= 1080) by discriminate.
  split; [exact Hin|]. split; [exact Hp|]. split; [exact Hw|]. split; [exact Hh|].
  destruct (renderWipe_clip_rectangle _ _ _ _ _ _ _ _ _ _ Hin Hp Hw Hh)
    as (_ & _ & _ & _ & _ & _ & Harea & _).
  exact Harea.
Defined.

Lemma renderSlide_images_adjacent_witness :
  0 == 0 /\
  exists fromX fromY toX toY,
    translations (calls (renderSlide (Some wideImage) None 0 1920 1080 dir_up)) =
      [(fromX, fromY); (toX, toY)] /\
    toY - fromY == 1080 /\ fromX == 0 /\ fromY == 0.
Proof.
  assert (H0 : 0 == 0) by reflexivity.
  split; [exact H0|].
  destruct (renderSlide_images_adjacent (Some wideImage) None 0 1920 1080 dir_up)
    as (fx & fy & tx & ty & Htr & _ & Hy & Hstart & _).
  exists fx, fy, tx, ty. split; [exact Htr|]. split; [exact Hy|]. exact (Hstart H0).
Defined.

Lemma renderSlideWithKenBurns_interpolates_witness :
  kenBurns (slide kenBurnsEntry)
    = Some (mkKenBurns 1 2 (mkPoint 0 0) (mkPoint 10 20)) /\
  image kenBurnsEntry = Some (mkImgSource "zoom.jpg" 1920 1080) /\
  0 < duration (slide kenBurnsEntry) /\
  startTime kenBurnsEntry + duration (slide kenBurnsEntry) <= 5 /\
  exists scale posX posY,
    In (Scale scale scale) (calls (renderSlideWithKenBurns exampleService kenBurnsEntry 5)) /\
    scale == 2 /\ posX == 10 /\ posY == 20.
Proof.
  assert (Hd : 0 < duration (slide kenBurnsEntry)) by reflexivity.
  assert (Hlate : startTime kenBurnsEntry + duration (slide kenBurnsEntry) <= 5)
    by discriminate.
  split; [reflexivity|]. split; [reflexivity|]. split; [exact Hd|]. split; [exact Hlate|].
  destruct (renderSlideWithKenBurns_interpolates exampleService kenBurnsEntry _ _ 5
              eq_refl eq_refl Hd)
    as (scale & posX & posY & Hcalls & _ & _ & _ & _ & Hend).
  exists scale, posX, posY.
  split; [rewrite Hcalls; right; right; left; reflexivity|].
  exact (Hend Hlate).
Defined.

Lemma renderFrame_trace_shape_witness :
  let tl := timeline (buildTimeline exampleSlides exampleImages) in
  Forall (fun e => image e <> None) tl /\
  exists rest,
    calls (renderFrame (fun _ => 0) (fun _ => 0) 0 exampleService (7 # 2) tl) =
      SetFillStyle "#000000" :: FillRect 0 0 1920 1080 :: rest /\
    stateNeutral rest /\
    existsb clearsCanvas rest = true.
Proof.
  intro tl.
  assert (Himg : Forall (fun e => image e <> None) tl).
  { repeat constructor; discriminate. }
  split; [exact Himg|].
  destruct (renderFrame_trace_shape (fun _ => 0) (fun _ => 0) 0 exampleService
              (7 # 2) tl Himg) as (rest & Hcalls & Hneutral & Hclear).
  exists rest. split; [exact Hcalls|]. split; [exact Hneutral|].
  rewrite Hclear. reflexivity.
Defined.

Lemma generateFrames_frame_times_witness :
  let total := totalDuration (buildTimeline binary64Slides binary64Images) in
  let tl := timeline (buildTimeline binary64Slides binary64Images) in
  let time := frameTime round64 55 (fps service25fps) in
  round64 total == total /\
  0 < fps service25fps /\
  contiguous 0 tl total /\
  Forall (fun e => image e <> None) tl /\
  (totalFramesOf round64 total (fps service25fps) <= 2 ^ 53)%Z /\
  (0 <= 55 < totalFramesOf round64 total (fps service25fps))%Z /\
  time == total /\
  0 <= time <= total /\
  exists last,
    nth_error tl 0 = Some last /\
    resolveFrame time tl = PastAllSlides last.
Proof.
  intros total tl time.
  assert (Htotal : round64 total == total) by (vm_compute; reflexivity).
  assert (Hfps : 0 < fps service25fps) by reflexivity.
  assert (Hvalid : Forall validSlide binary64Slides).
  { constructor; [|constructor]. split; [reflexivity|]. intros tr Htr. discriminate Htr. }
  assert (Hc : contiguous 0 tl total).
  { apply chained_contiguous.
    - apply buildTimeline_chained.
    - apply buildTimeline_valid. exact Hvalid. }
  assert (Himg : Forall (fun e => image e <> None) tl).
  { constructor; [discriminate|constructor]. }
  assert (Hmax : (totalFramesOf round64 total (fps service25fps) <= 2 ^ 53)%Z)
    by (vm_compute; discriminate).
  assert (Hk : (0 <= 55 < totalFramesOf round64 total (fps service25fps))%Z)
    by (vm_compute; split; [discriminate|reflexivity]).
  assert (Heq : time == total) by (vm_compute; reflexivity).
  split; [exact Htotal|]. split; [exact Hfps|]. split; [exact Hc|].
  split; [exact Himg|]. split; [exact Hmax|]. split; [exact Hk|].
  split; [exact Heq|].
  destruct generateFrames_frame_times as [Hgeneral _].
  destruct (Hgeneral round64 (fun _ => 0) (fun _ => 0) 0 service25fps tl total
              round64_mono (fun z Hz => round64_Z z ltac:(lia)) Htotal Hfps Hc Himg Hmax 55%Z Hk)
    as (_ & Hbounds & _ & _ & _ & Hpast).
  split; [exact Hbounds|].
  destruct (Hpast Heq) as (last & Hlast & Hres & _).
  exists last. split; [exact Hlast|exact Hres].
Defined.

Lemma generateFrames_matches_createRenderLoop_witness :
  exists generated loop,
    generateFrames (fun _ => 0) (fun _ => 0) 0 exampleLoadImage
      exampleService exampleRequest = Normal generated /\
    createRenderLoop (fun _ => 0) (fun _ => 0) 0 exampleLoadImage
      exampleService exampleRequest = Normal loop /\
    frames_totalFrames generated = loop_totalFrames loop /\
    List.length (frames generated) = Z.to_nat (loop_totalFrames loop).
Proof.
  pose proof (generateFrames_matches_createRenderLoop (fun _ => 0) (fun _ => 0) 0
                exampleLoadImage exampleService exampleRequest) as H.
  destruct (generateFrames (fun _ => 0) (fun _ => 0) 0 exampleLoadImage
              exampleService exampleRequest) as [generated|err] eqn:Hgen;
    [|discriminate Hgen].
  destruct (createRenderLoop (fun _ => 0) (fun _ => 0) 0 exampleLoadImage
              exampleService exampleRequest) as [loop|err] eqn:Hloop;
    [|discriminate Hloop].
  exists generated, loop. split; [reflexivity|]. split; [reflexivity|].
  destruct H as (_ & Hframes & Hlen & _). split; [exact Hframes|exact Hlen].
Defined.

Lemma first_failed_load_rejects_witness :
  slides exampleRequest =
    [mkImageSlide "image1.jpg" 3 (Some fade1s) None]
    ++ mkImageSlide "image2.jpg" 3 (Some fade1s) None
    :: [mkImageSlide "image3.jpg" 3 None None] /\
  flakyLoadImage "image2.jpg" = Throw (Error "Failed to load image: image2.jpg") /\
  createRenderLoop (fun _ => 0) (fun _ => 0) 0 flakyLoadImage
    exampleService exampleRequest
  = Throw (Error "Failed to load image: image2.jpg").
Proof.
  split; [reflexivity|]. split; [reflexivity|].
  refine (proj1 (first_failed_load_rejects (fun _ => 0) (fun _ => 0) 0 flakyLoadImage
                   exampleService exampleRequest
                   [mkImageSlide "image1.jpg" 3 (Some fade1s) None]
                   [mkImageSlide "image3.jpg" 3 None None]
                   (mkImageSlide "image2.jpg" 3 (Some fade1s) None)
                   (Error "Failed to load image: image2.jpg") eq_refl _ eq_refl)).
  intros s' [<-|[]]. eexists. reflexivity.
Defined.

Lemma POST_plan_matches_service_witness :
  exists plan config,
    POST (RateLimit false) (BodyJson sampleInput) = Success plan /\
    imageToVideoRequestSchema sampleInput = Some config /\
    fps exampleService = valid_fps (config_output config) /\
    meta_totalDuration (plan_metadata plan)
      = totalDuration (buildTimeline (config_slides config) exampleImages) /\
    meta_totalFrames (plan_metadata plan) = 324%Z.
Proof.
  destruct (POST (RateLimit false) (BodyJson sampleInput)) as [| | | |plan] eqn:Hpost;
    try discriminate Hpost.
  destruct (POST_plan_matches_service _ _ _ Hpost)
    as (input & config & Hbody & Hschema & _ & Hagree).
  injection Hbody as <-.
  exists plan, config. split; [reflexivity|]. split; [exact Hschema|].
  assert (Hfps : fps exampleService = valid_fps (config_output config)).
  { vm_compute in Hschema. injection Hschema as <-. reflexivity. }
  split; [exact Hfps|].
  destruct (Hagree exampleImages exampleService Hfps) as (_ & Htotal & _).
  split; [exact Htotal|].
  vm_compute in Hpost. injection Hpost as <-. reflexivity.
Defined.

Lemma POST_success_bounds_witness :
  exists plan,
    POST (RateLimit false) (BodyJson sampleInput) = Success plan /\
    1 # 10 <= meta_totalDuration (plan_metadata plan) <= 6495 /\
    (forall p, In p (plan_timeline plan) ->
       plan_duration p <= plan_endTime p /\
       plan_endTime p <= meta_totalDuration (plan_metadata plan)) /\
    (1 <= meta_totalFrames (plan_metadata plan) <= 389700)%Z.
Proof.
  destruct (POST (RateLimit false) (BodyJson sampleInput)) as [| | | |plan] eqn:Hpost;
    try discriminate Hpost.
  exists plan. split; [reflexivity|].
  destruct (POST_success_bounds _ _ _ Hpost)
    as (_ & _ & Hlow & Hentries & _ & Htotal & Hframes).
  split; [split; [exact Hlow|exact Htotal]|].
  split; [|exact Hframes].
  intros p Hp. destruct (Hentries p Hp) as (_ & H1 & H2). split; assumption.
Defined.

Lemma POST_transition_count_witness :
  exists plan,
    POST (RateLimit false) (BodyJson sampleInput) = Success plan /\
    List.length (filter hasPlanTransition (plan_timeline plan)) = 2%nat /\
    meta_transitionCount (plan_metadata plan) = 3%nat.
Proof.
  destruct (POST (RateLimit false) (BodyJson sampleInput)) as [| | | |plan] eqn:Hpost;
    try discriminate Hpost.
  exists plan. split; [reflexivity|].
  destruct (POST_transition_count _ _ _ Hpost)
    as (input & config & Hbody & Hschema & Hcount).
  injection Hbody as <-.
  assert (Hused : List.length (filter hasPlanTransition (plan_timeline plan)) = 2%nat).
  { vm_compute in Hpost. injection Hpost as <-. reflexivity. }
  split; [exact Hused|].
  rewrite <- Hcount, Hused.
  vm_compute in Hschema. injection Hschema as <-. reflexivity.
Defined.

Lemma POST_rejects_invalid_input_witness :
  in_slides emptyInput = [] /\
  POST (RateLimit false) (BodyJson emptyInput) = InvalidRequest.
Proof.
  split; [reflexivity|].
  exact (proj1 (POST_rejects_invalid_input emptyInput (or_introl eq_refl))).
Defined.

Lemma validated_request_meets_renderer_preconditions_witness :
  exists config,
    imageToVideoRequestSchema sampleInput = Some config /\
    config_slides config <> [] /\
    Forall validSlide (config_slides config) /\
    0 < valid_fps (config_output config).
Proof.
  destruct (imageToVideoRequestSchema sampleInput) as [config|] eqn:Hschema;
    [|discriminate Hschema].
  exists config. split; [reflexivity|].
  destruct (validated_request_meets_renderer_preconditions _ _ Hschema)
    as (Hne & Hvalid & Hfps & _).
  split; [exact Hne|]. split; [exact Hvalid|exact Hfps].
Defined.

Lemma generate_frameLoop_order_and_cancel_witness :
  let result :=
    generate_frameLoop cancelAtTwo (fun _ => skip) (fun _ => None) (frameIndices 5) in
  (0 <= 2 < 5)%Z /\ cancelAtTwo 2 = true /\
  snd result = LoopCancelled /\ Z.of_nat (List.length (fst result)) = 2%Z.
Proof.
  intro result.
  assert (Hc : (0 <= 2 < 5)%Z) by lia.
  split; [exact Hc|]. split; [reflexivity|].
  destruct (generate_frameLoop_order_and_cancel cancelAtTwo (fun _ => skip)
              (fun _ => None) 5) as (_ & _ & _ & _ & _ & _ & Hfirst).
  apply (Hfirst 2%Z Hc eq_refl).
  intros i Hi. split; [|split; reflexivity].
  unfold cancelAtTwo. apply Z.eqb_neq. lia.
Defined.

Lemma renderWithMediaRecorder_order_and_cancel_witness :
  let result :=
    renderWithMediaRecorder (fun _ => skip) 5 (handleRender_onProgress cancelAtTwo) in
  (0 <= 1 < 5)%Z /\ cancelAtTwo (1 + 1) = true /\
  snd result = LoopThrew (Error "Cancelled") /\
  Z.of_nat (List.length (fst result)) = 1%Z.
Proof.
  intro result.
  assert (Hc : (0 <= 1 < 5)%Z) by lia.
  split; [exact Hc|]. split; [reflexivity|].
  destruct (renderWithMediaRecorder_order_and_cancel cancelAtTwo (fun _ => skip) 5)
    as (_ & _ & _ & _ & _ & Hfirst).
  apply (Hfirst 1%Z Hc eq_refl).
  intros i Hi. split; [|reflexivity].
  unfold cancelAtTwo. apply Z.eqb_neq. lia.
Defined.

Lemma handleRender_request_transitions_honoured_witness :
  exists request,
    handleRender_request sampleFileToDataUri sampleItems 1920 1080 30
      = Some (Normal request) /\
    slides request <> [] /\
    List.length (slides request) = 2%nat /\
    forall j e,
      nth_error (timeline (buildTimeline (slides request) exampleImages)) j = Some e ->
      (transitionOut e = None <-> transition (slide e) = None).
Proof.
  destruct (handleRender_request_transitions_honoured sampleFileToDataUri sampleItems
              1920 1080 30) as [_ Hbuilt].
  destruct (handleRender_request sampleFileToDataUri sampleItems 1920 1080 30)
    as [[request|err]|] eqn:Hreq; try discriminate Hreq.
  exists request. split; [reflexivity|].
  destruct (Hbuilt request eq_refl) as (Hne & Hlen & _ & Hused).
  split; [exact Hne|]. split; [exact Hlen|]. exact (Hused exampleImages).
Defined.

Lemma getSupportedMimeType_first_supported_witness :
  In "video/mp4"%string mimeTypeCandidates /\
  onlyMp4 "video/mp4" = true /\
  onlyMp4 (getSupportedMimeType onlyMp4) = true.
Proof.
  assert (Hin : In "video/mp4"%string mimeTypeCandidates)
    by (right; right; right; left; reflexivity).
  split; [exact Hin|]. split; [reflexivity|].
  destruct (getSupportedMimeType_first_supported onlyMp4) as (_ & Hfirst & _).
  exact (proj1 (Hfirst "video/mp4"%string Hin eq_refl)).
Defined.
